(** * Emoji mosaic generator: glyph decoding, match dispatch and composition

    A shallow embedding of [script.js]: the palette-identifier decoder
    [filenameToEmoji], the worker-backed matcher [initWorker] /
    [matchEmojisInWorker] with its main-thread fallback, and the canvas
    composer [renderFromResults], together with the properties the
    specification states about them. *)

From Stdlib Require Import String Ascii List ZArith QArith Lia Bool Arith.
From Stdlib Require Import DecimalString SpecFloat.
Import ListNotations.

Local Open Scope Z_scope.

(** ** Completions

    A JavaScript call either returns a value or throws. *)

Inductive JsError : Type :=
| RangeError
| TypeError
| Error (msg : string).

Inductive Completion (A : Type) : Type :=
| Normal (a : A)
| Throw (e : JsError).

Arguments Normal {A} a.
Arguments Throw {A} e.

Definition bindC {A B : Type} (c : Completion A) (k : A -> Completion B)
  : Completion B :=
  match c with
  | Normal a => k a
  | Throw e => Throw e
  end.

Notation "x <- c ;; k" := (bindC c (fun x => k))
  (at level 61, c at next level, right associativity).

(** [Array.prototype.map] with a callback that may throw: the first
    exception aborts the traversal. *)
Fixpoint mapC {A B : Type} (f : A -> Completion B) (l : list A)
  : Completion (list B) :=
  match l with
  | [] => Normal []
  | a :: t => b <- f a ;; r <- mapC f t ;; Normal (b :: r)
  end.

(** ** Strings

    Palette identifiers are file names.  They are modelled as sequences of
    code units below 256 (ASCII and Latin-1), on which [toLowerCase] acts
    unit by unit.  Glyphs, the output of [String.fromCodePoint], are
    sequences of UTF-16 code units. *)

Module JsString.

Definition jsstr : Type := list ascii.
Definition ustr : Type := list Z.

Definition lit (s : string) : jsstr := list_ascii_of_string s.

Definition code (c : ascii) : Z := Z.of_N (N_of_ascii c).
Definition chr (n : Z) : ascii := ascii_of_N (Z.to_N n).

(** Unicode simple lower-casing restricted to code units below 256:
    A-Z, and the Latin-1 capitals U+00C0..U+00DE except U+00D7. *)
Definition lower_char (c : ascii) : ascii :=
  let n := code c in
  if ((65 <=? n) && (n <=? 90))
     || ((192 <=? n) && (n <=? 222) && negb (n =? 215))
  then chr (n + 32) else c.

Definition toLowerCase (s : jsstr) : jsstr := map lower_char s.

(** [s.split(sep)] for a separator of one code unit.  The result is never
    empty: the empty string splits into one empty piece. *)
Fixpoint split (sep : ascii) (s : jsstr) : list jsstr :=
  match s with
  | [] => [[]]
  | c :: t =>
      if Ascii.eqb c sep then [] :: split sep t
      else match split sep t with
           | h :: r => (c :: h) :: r
           | [] => [[c]]
           end
  end.

(** [a.pop()]: the last element, [undefined] (here [None]) on an empty
    array. *)
Fixpoint pop {A : Type} (a : list A) : option A :=
  match a with
  | [] => None
  | [x] => Some x
  | _ :: t => pop t
  end.

Fixpoint strip_prefix (p s : jsstr) : option jsstr :=
  match p, s with
  | [], _ => Some s
  | a :: p', b :: s' => if Ascii.eqb a b then strip_prefix p' s' else None
  | _ :: _, [] => None
  end.

(** [s.replace(/^p/, '')] for a literal [p]. *)
Definition replace_prefix (p s : jsstr) : jsstr :=
  match strip_prefix p s with
  | Some r => r
  | None => s
  end.

(** [s.replace(/p$/, '')] for a literal [p]: the pattern can only match at
    the very end of the input. *)
Definition replace_suffix (p s : jsstr) : jsstr :=
  match strip_prefix (rev p) (rev s) with
  | Some r => rev r
  | None => s
  end.

(** *** [parseInt(s, 16)] *)

Definition isWhiteSpace (c : ascii) : bool :=
  let n := code c in
  (n =? 9) || (n =? 10) || (n =? 11) || (n =? 12) || (n =? 13)
  || (n =? 32) || (n =? 160).

Fixpoint trimStart (s : jsstr) : jsstr :=
  match s with
  | c :: t => if isWhiteSpace c then trimStart t else s
  | [] => []
  end.

Definition hexDigit (c : ascii) : option Z :=
  let n := code c in
  if (48 <=? n) && (n <=? 57) then Some (n - 48)
  else if (97 <=? n) && (n <=? 102) then Some (n - 87)
  else if (65 <=? n) && (n <=? 70) then Some (n - 55)
  else None.

(** The longest prefix of radix-16 digits, as digit values. *)
Fixpoint digitSpan (s : jsstr) : list Z :=
  match s with
  | c :: t => match hexDigit c with
              | Some d => d :: digitSpan t
              | None => []
              end
  | [] => []
  end.

Definition radix16 (ds : list Z) : Z :=
  fold_left (fun acc d => 16 * acc + d) ds 0.

(** [parseInt(s, 16)].  [None] is [NaN].  The result is kept as the exact
    integer: the only consumer, [fromCodePoint], compares it with
    [0x10FFFF], and rounding to a double is monotone and exact far beyond
    that bound; [-0] is read as [0] there. *)
Definition parseInt16 (s : jsstr) : option Z :=
  let s1 := trimStart s in
  let sign := match s1 with
              | "-"%char :: _ => -1
              | _ => 1
              end in
  let s2 := match s1 with
            | "+"%char :: t => t
            | "-"%char :: t => t
            | _ => s1
            end in
  let s3 := match s2 with
            | "0"%char :: "x"%char :: t => t
            | "0"%char :: "X"%char :: t => t
            | _ => s2
            end in
  match digitSpan s3 with
  | [] => None
  | ds => Some (sign * radix16 ds)
  end.

(** *** [String.fromCodePoint] *)

Definition UTF16EncodeCodePoint (cp : Z) : ustr :=
  if cp <=? 65535 then [cp]
  else [ (cp - 65536) / 1024 + 55296 ; (cp - 65536) mod 1024 + 56320 ].

Fixpoint fromCodePoint (args : list (option Z)) : Completion ustr :=
  match args with
  | [] => Normal []
  | None :: _ => Throw RangeError
  | Some cp :: rest =>
      if (cp <? 0) || (1114111 <? cp) then Throw RangeError
      else r <- fromCodePoint rest ;; Normal (UTF16EncodeCodePoint cp ++ r)
  end.

End JsString.

Import JsString.

(** ** [filenameToEmoji] *)

Definition filenameToEmoji (name : jsstr) : Completion ustr :=
  match pop (split "/"%char (toLowerCase name)) with
  | None => Throw TypeError
  | Some seg =>
      let hexes :=
        split "_"%char
          (replace_suffix (lit ".svg") (replace_prefix (lit "emoji_u") seg)) in
      fromCodePoint (map parseInt16 hexes)
  end.

(** ** Matching through the worker

    [runMatchingAndGetResults], the main-thread matcher, and the worker
    script live outside [script.js]; the page code only calls the first and
    exchanges messages with the second. *)

Definition Color : Type := list Z.
Definition ColorBatch : Type := list Color.
Definition MatchResult : Type := list jsstr.

(** Messages posted to the worker. *)
Inductive ToWorker : Type :=
| INIT_WASM (wasmPath kdTreePath : string)
| MATCH_EMOJIS (colors : ColorBatch).

(** Messages received from the worker, by their [type] field. *)
Inductive FromWorker : Type :=
| WASM_READY
| MATCH_COMPLETE (results : MatchResult)
| ERROR (error : string)
| OtherMessage (type : string).

Inductive PromiseState : Type :=
| Pending
| Fulfilled (v : MatchResult)
| Rejected (e : JsError).

(** A [handleMessage] closure: it captures the batch of its call and the
    [resolve]/[reject] pair of the promise created by that call. *)
Record Listener : Type := mkListener {
  l_colors : ColorBatch;
  l_promise : nat
}.

(** The worker object as the page sees it: the registered ['message']
    listeners, in registration order, and the messages posted to it that the
    worker has not taken yet, oldest first.  Its [onmessage] and [onerror]
    handlers are installed by [initWorker] before anything else can reach
    it, so they are not stored. *)
Record Worker : Type := mkWorker {
  listeners : list Listener;
  outbox : list ToWorker
}.

(** The page's globals and the promises handed out so far. *)
Record Page : Type := mkPage {
  mosaicWorker : option Worker;
  workerReady : bool;
  promises : list PromiseState
}.

Definition initial : Page :=
  {| mosaicWorker := None; workerReady := false; promises := [] |}.

Definition promise_state (st : Page) (p : nat) : PromiseState :=
  nth p (promises st) Pending.

(** Settling a promise: only the first [resolve] or [reject] has an
    effect. *)
Fixpoint settle_at (p : nat) (s : PromiseState) (ps : list PromiseState)
  {struct ps} : list PromiseState :=
  match ps with
  | [] => []
  | x :: t =>
      match p with
      | O => match x with
             | Pending => s :: t
             | _ => x :: t
             end
      | S p' => x :: settle_at p' s t
      end
  end.

Definition settle (p : nat) (s : PromiseState) (st : Page) : Page :=
  {| mosaicWorker := mosaicWorker st;
     workerReady := workerReady st;
     promises := settle_at p s (promises st) |}.

Definition resolve (p : nat) (v : MatchResult) : Page -> Page :=
  settle p (Fulfilled v).
Definition reject (p : nat) (e : JsError) : Page -> Page :=
  settle p (Rejected e).

Definition set_workerReady (b : bool) (st : Page) : Page :=
  {| mosaicWorker := mosaicWorker st;
     workerReady := b;
     promises := promises st |}.

Definition with_worker (f : Worker -> Worker) (st : Page) : Page :=
  {| mosaicWorker := option_map f (mosaicWorker st);
     workerReady := workerReady st;
     promises := promises st |}.

Definition addEventListener (l : Listener) : Page -> Page :=
  with_worker (fun w => {| listeners := listeners w ++ [l];
                           outbox := outbox w |}).

(** Closures are told apart by the promise they settle: every call creates
    one closure and one promise. *)
Definition removeEventListener (l : Listener) : Page -> Page :=
  with_worker (fun w =>
    {| listeners :=
         filter (fun l' => negb (Nat.eqb (l_promise l') (l_promise l)))
                (listeners w);
       outbox := outbox w |}).

Definition postMessage (m : ToWorker) : Page -> Page :=
  with_worker (fun w => {| listeners := listeners w;
                           outbox := outbox w ++ [m] |}).

Definition is_null {A : Type} (o : option A) : bool :=
  match o with
  | None => true
  | Some _ => false
  end.

Definition initWorker (st : Page) : Page :=
  match mosaicWorker st with
  | Some _ => st
  | None =>
      {| mosaicWorker :=
           Some {| listeners := [];
                   outbox := [INIT_WASM "build/full_mosaic.wasm"
                                        "kd_tree.json"] |};
         workerReady := workerReady st;
         promises := promises st |}
  end.

(** [mosaicWorker.onmessage] *)
Definition onmessage (m : FromWorker) (st : Page) : Page :=
  match m with
  | WASM_READY => set_workerReady true st
  | _ => st
  end.

(** [mosaicWorker.onerror] *)
Definition onerror (st : Page) : Page := set_workerReady false st.

Section Dispatcher.

(** The main-thread matcher.  It reads an index that does not change once
    loaded, so it is a function of the batch; it may throw. *)
Variable runMatchingAndGetResults : ColorBatch -> Completion MatchResult.

(** The [try { resolve(runMatchingAndGetResults(colors)) }
    catch (err) { reject(err) }] block, which occurs twice. *)
Definition fallback (colors : ColorBatch) (p : nat) (st : Page) : Page :=
  match runMatchingAndGetResults colors with
  | Normal results => resolve p results st
  | Throw err => reject p err st
  end.

Definition handleMessage (l : Listener) (m : FromWorker) (st : Page)
  : Page :=
  match m with
  | MATCH_COMPLETE results =>
      resolve (l_promise l) results (removeEventListener l st)
  | ERROR _ =>
      fallback (l_colors l) (l_promise l) (removeEventListener l st)
  | _ => st
  end.

(** A ['message'] event on the worker object: [onmessage] runs first (it
    was installed first), then the listeners registered when the event
    fired.  A listener only ever removes itself, so each of them is still
    registered when its turn comes. *)
Definition deliver (m : FromWorker) (ls : list Listener) (st : Page)
  : Page :=
  fold_left (fun s l => handleMessage l m s) ls st.

Definition dispatchMessage (m : FromWorker) (st : Page) : Page :=
  match mosaicWorker st with
  | None => st
  | Some w => deliver m (listeners w) (onmessage m st)
  end.

(** An ['error'] event on the worker object. *)
Definition dispatchError (st : Page) : Page :=
  match mosaicWorker st with
  | None => st
  | Some _ => onerror st
  end.

(** [matchEmojisInWorker(colors)]: the promise executor runs before the
    call returns.  The result is the new promise and the page state at
    the return. *)
Definition matchEmojisInWorker (colors : ColorBatch) (st : Page)
  : nat * Page :=
  let p := length (promises st) in
  let st1 := {| mosaicWorker := mosaicWorker st;
                workerReady := workerReady st;
                promises := promises st ++ [Pending] |} in
  if negb (workerReady st1) || is_null (mosaicWorker st1) then
    (p, fallback colors p st1)
  else
    (p, postMessage (MATCH_EMOJIS colors)
          (addEventListener {| l_colors := colors; l_promise := p |} st1)).

(** What can happen to the page, one turn of the event loop each. *)
Inductive Event : Type :=
| CallInitWorker
| CallMatch (colors : ColorBatch)
| Message (m : FromWorker)
| WorkerError.

Definition step (st : Page) (e : Event) : Page :=
  match e with
  | CallInitWorker => initWorker st
  | CallMatch colors => snd (matchEmojisInWorker colors st)
  | Message m => dispatchMessage m st
  | WorkerError => dispatchError st
  end.

Definition run (evs : list Event) (st : Page) : Page :=
  fold_left step evs st.

End Dispatcher.

(** The readiness test of [matchEmojisInWorker], negated. *)
Definition isReady (st : Page) : bool :=
  negb (negb (workerReady st) || is_null (mosaicWorker st)).

(** The worker's pending requests. *)
Definition sent (st : Page) : list ToWorker :=
  match mosaicWorker st with
  | Some w => outbox w
  | None => []
  end.

Definition registered (st : Page) : list Listener :=
  match mosaicWorker st with
  | Some w => listeners w
  | None => []
  end.

(** ** The match index and the background context *)

(** Modelled from the spec: the MatchIndex query capability, whose code (the
    nearest-neighbour search and its loader) is not part of [script.js].
    The index maps a colour to the identifier of the closest palette entry;
    [queryBatch] answers in the order of its input.  Ties go to the earlier
    palette entry, one deterministic rule among those the specification
    allows.  An index without entries cannot answer. *)
Definition MatchIndex : Type := list (Color * jsstr).

Fixpoint dist2 (a b : Color) : Z :=
  match a, b with
  | x :: a', y :: b' => (x - y) * (x - y) + dist2 a' b'
  | _, _ => 0
  end.

Fixpoint nearest (idx : MatchIndex) (c : Color) : option (Z * jsstr) :=
  match idx with
  | [] => None
  | (pc, id) :: rest =>
      let d := dist2 pc c in
      match nearest rest c with
      | Some (d', id') => if d' <? d then Some (d', id') else Some (d, id)
      | None => Some (d, id)
      end
  end.

Definition queryBatch (idx : MatchIndex) (colors : ColorBatch)
  : Completion MatchResult :=
  mapC (fun c => match nearest idx c with
                 | Some (_, id) => Normal id
                 | None => Throw (Error "empty match index")
                 end) colors.

(** Modelled from the spec: the background execution context, whose script
    ([mosaic-worker.js]) is not among the sources.  It owns its own copy of
    the index, acknowledges a successful load, and answers each match
    request with the result of [queryBatch] on its copy, or with an error
    response. *)
Record Background : Type := mkBackground {
  bg_contents : MatchIndex;
  bg_loaded : bool
}.

Definition bg_handle (bg : Background) (req : ToWorker)
  : Background * FromWorker :=
  match req with
  | INIT_WASM _ _ =>
      ({| bg_contents := bg_contents bg; bg_loaded := true |}, WASM_READY)
  | MATCH_EMOJIS colors =>
      if bg_loaded bg then
        match queryBatch (bg_contents bg) colors with
        | Normal results => (bg, MATCH_COMPLETE results)
        | Throw _ => (bg, ERROR "match failed")
        end
      else (bg, ERROR "index not loaded")
  end.

(** Modelled from the spec: requests reach the background context in the
    order they were posted; it takes the oldest off the channel. *)
Definition take_request (st : Page) : option (ToWorker * Page) :=
  match mosaicWorker st with
  | Some w =>
      match outbox w with
      | req :: rest =>
          Some (req, with_worker (fun w' => {| listeners := listeners w';
                                               outbox := rest |}) st)
      | [] => None
      end
  | None => None
  end.

(** Modelled from the spec: one turn of the background context, which is not
    among the sources.  It serves the oldest request, and its one reply is
    delivered to the page.  The page's own matcher reads the page's copy of
    the index. *)
Definition serve (local : MatchIndex) (sys : Page * Background)
  : Page * Background :=
  let (st, bg) := sys in
  match take_request st with
  | Some (req, st') =>
      let (bg', reply) := bg_handle bg req in
      (dispatchMessage (queryBatch local) reply st', bg')
  | None => sys
  end.

(** Modelled from the spec: the page and the background context together.
    The page calls [initWorker] or [matchEmojisInWorker], the background
    context takes a turn, or the worker object raises an error event;
    messages reach the page only as replies of the background context. *)
Inductive SystemEvent : Type :=
| PageInitWorker
| PageMatch (colors : ColorBatch)
| BackgroundTurn
| BackgroundError.

Definition system_step (local : MatchIndex) (sys : Page * Background)
    (e : SystemEvent) : Page * Background :=
  match e with
  | PageInitWorker => (initWorker (fst sys), snd sys)
  | PageMatch colors =>
      (snd (matchEmojisInWorker (queryBatch local) colors (fst sys)),
       snd sys)
  | BackgroundTurn => serve local sys
  | BackgroundError => (dispatchError (fst sys), snd sys)
  end.

Definition system_run (local : MatchIndex) (evs : list SystemEvent)
    (sys : Page * Background) : Page * Background :=
  fold_left (system_step local) evs sys.

(** ** Numbers

    A JavaScript number is an IEEE 754 double: 53 bits of precision, every
    operation rounded to the nearest double, ties to even.  [num] is the
    double nearest to an integer, the integer itself up to [2 ^ 53]. *)

Definition number : Type := spec_float.

Definition prec : Z := 53.
Definition emax : Z := 1024.

Definition num (z : Z) : number := binary_normalize prec emax z 0 false.
Definition of_nat (n : nat) : number := num (Z.of_nat n).

Declare Scope number_scope.
Delimit Scope number_scope with num.
Bind Scope number_scope with number.

Infix "+" := (SFadd prec emax) : number_scope.
Infix "-" := (SFsub prec emax) : number_scope.
Infix "*" := (SFmul prec emax) : number_scope.
Infix "/" := (SFdiv prec emax) : number_scope.

(** The literal [0.83]: the double nearest to 83/100, which the correctly
    rounded quotient of the two integers is. *)
Definition literal_0_83 : number := (num 83 / num 100)%num.

(** The truncation of a number to an integer; NaN, the zeros and the
    infinities give 0. *)
Definition IntegerPart (v : number) : Z :=
  match v with
  | S754_finite s m e =>
      let a := if 0 <=? e then Z.pos m * 2 ^ e else Z.pos m / 2 ^ (- e) in
      if s then - a else a
  | _ => 0
  end.

(** The conversion of a number to an [unsigned long], as at every
    assignment to an attribute of that type: truncated, then reduced
    modulo [2 ^ 32]. *)
Definition ToUint32 (v : number) : Z := IntegerPart v mod 4294967296.

(** Assigning to [canvas.width] or [canvas.height].  Both reflect a content
    attribute as an [unsigned long] with a default (300 and 150): a value
    above 2147483647 is replaced by the default.  The result is what the
    attribute reads afterwards: the size of the canvas's bitmap as the
    element reports it. *)
Definition set_dimension (default : Z) (v : number) : Z :=
  let n := ToUint32 v in
  if n <=? 2147483647 then n else default.

(** ** Composition *)

Definition placeholder : ustr := [11036].

Definition scaleOutput : number := num 4.

Record TextDraw : Type := mkTextDraw {
  td_text : ustr;
  td_x : number;
  td_y : number
}.

(** The string [n + "px"] assigned to a style property, [n] printed as
    numbers are. *)
Inductive CssLength : Type :=
| Px (n : number).

(** The canvas after [renderFromResults]: the backing size as the element
    reads it, the lengths assigned to the style, the scale set on the
    context, the font (size in CSS pixels), the background fill and the
    [fillText] calls in the order they were made. *)
Record Canvas : Type := mkCanvas {
  width : Z;
  height : Z;
  style_width : CssLength;
  style_height : CssLength;
  ctx_scale : number * number;
  font_px : number;
  font_family : string;
  textBaseline : string;
  fillStyle : string;
  cleared : Z * Z * Z * Z;
  texts : list TextDraw
}.

(** [results[index] || placeholder]: [undefined] (index out of range) and
    the empty string are falsy. *)
Definition glyph_at (results : list ustr) (index : nat) : ustr :=
  match nth_error results index with
  | Some (u :: s) => u :: s
  | _ => placeholder
  end.

Definition glyph_offset (tileSize scale : number) : number :=
  ((tileSize - tileSize * scale) / num 2)%num.

Definition glyph_pos (tileSize offset : number) (k : nat) : number :=
  (of_nat k * tileSize + offset)%num.

Section Compose.

Variables (results : list ustr) (cols rows : nat) (tileSize scale : number).

(** The inner loop [for (x = 0; x < cols; x++, index++)], started with
    [n = cols - x] iterations to go. *)
Fixpoint loop_x (offset : number) (y : nat) (n x index : nat)
                (drawn : list TextDraw) : nat * list TextDraw :=
  match n with
  | O => (index, drawn)
  | S n' =>
      let emoji := glyph_at results index in
      loop_x offset y n' (S x) (S index)
             (drawn ++ [ {| td_text := emoji;
                            td_x := glyph_pos tileSize offset x;
                            td_y := glyph_pos tileSize offset y |} ])
  end.

(** The outer loop [for (y = 0; y < rows; y++)]. *)
Fixpoint loop_y (offset : number) (n y index : nat) (drawn : list TextDraw)
  : list TextDraw :=
  match n with
  | O => drawn
  | S n' =>
      let (index', drawn') := loop_x offset y cols 0%nat index drawn in
      loop_y offset n' (S y) index' drawn'
  end.

(** The canvas the function leaves once the awaited
    [document.fonts.load] has resolved.  [cols] and [rows] are the whole
    numbers of tiles the two loops count through. *)
Definition renderFromResults : Canvas :=
  let canvas_width :=
    set_dimension 300 (of_nat cols * tileSize * scaleOutput)%num in
  let canvas_height :=
    set_dimension 150 (of_nat rows * tileSize * scaleOutput)%num in
  let offset := glyph_offset tileSize scale in
  {| width := canvas_width;
     height := canvas_height;
     style_width := Px (of_nat cols * tileSize)%num;
     style_height := Px (of_nat rows * tileSize)%num;
     ctx_scale := (scaleOutput, scaleOutput);
     font_px := (tileSize * scale)%num;
     font_family := "NotoEmoji";
     textBaseline := "top";
     fillStyle := "#000";
     cleared := (0, 0, canvas_width, canvas_height);
     texts := loop_y offset rows 0%nat 0%nat [] |}.

(** The call as its caller awaits it.  The one step that can fail is the
    awaited [document.fonts.load], which comes before anything is drawn:
    when it rejects, so does the call, with the same error. *)
Definition renderFromResults_awaited (fontsLoad : Completion unit)
  : Completion Canvas :=
  _ <- fontsLoad ;; Normal renderFromResults.

End Compose.


(** ** The upload handler, from the match results on *)

Definition tileSize : number := num 8.

Inductive Outcome : Type :=
| Rendered (c : Canvas)
| Alerted (msg : string).

(** Steps 6 and 7 of the handler and its [catch]: every identifier is
    decoded, then the mosaic is drawn at glyph scale 0.83; an exception
    anywhere, in the decoding or in the awaited font load, ends in the
    alert. *)
Definition decode_and_render (fontsLoad : Completion unit)
    (ids : MatchResult) (cols rows : nat) : Outcome :=
  match
    results <- mapC filenameToEmoji ids ;;
    renderFromResults_awaited results cols rows tileSize literal_0_83
                              fontsLoad
  with
  | Normal c => Rendered c
  | Throw _ => Alerted "Could not process image. Please try again."
  end.

Definition drawn_glyph (o : Outcome) (i : nat) : option ustr :=
  match o with
  | Rendered c => option_map td_text (nth_error (texts c) i)
  | Alerted _ => None
  end.

(** ** The download buttons

    [downloadUltraHD] and [downloadStandard]: a click looks the canvas up,
    disables its button and starts an interval of one second; the interval
    callback counts down on the button and, once the count is below zero,
    clears the interval, saves the file and restores the button. *)

Definition ustr_of (s : string) : ustr := map code (lit s).

Record Button : Type := mkButton {
  innerHTML : ustr;
  disabled : bool;
  style_opacity : string;
  style_cursor : string
}.

Inductive Kind : Type := UltraHD | Standard.

(** What the temporary link downloads: the PNG of the canvas, or the JPEG,
    at quality 0.85, of a copy scaled by 0.62 (the copy's pixel size is
    fixed by the canvas element, not by the script). *)
Inductive SavedFile : Type :=
| SavedPNG (download : string) (source : Canvas)
| SavedJPEG (download : string) (quality factor : Q) (source : Canvas).

(** The variables an interval callback closes over. *)
Record Countdown : Type := mkCountdown {
  cd_kind : Kind;
  cd_countdown : Z;
  cd_originalText : ustr;
  cd_canvas : Canvas
}.

(** The part of the document the two functions touch: what
    [getElementById("mosaicCanvas")] finds, the two buttons, the running
    intervals, the files saved and the alerts shown so far. *)
Record Ui : Type := mkUi {
  mosaicCanvas : option Canvas;
  btnUltraHD : Button;
  btnStandard : Button;
  intervals : list Countdown;
  saved : list SavedFile;
  alerts : list string
}.

Definition button (k : Kind) (ui : Ui) : Button :=
  match k with
  | UltraHD => btnUltraHD ui
  | Standard => btnStandard ui
  end.

Definition set_button (k : Kind) (b : Button) (ui : Ui) : Ui :=
  match k with
  | UltraHD => {| mosaicCanvas := mosaicCanvas ui; btnUltraHD := b;
                  btnStandard := btnStandard ui; intervals := intervals ui;
                  saved := saved ui; alerts := alerts ui |}
  | Standard => {| mosaicCanvas := mosaicCanvas ui;
                   btnUltraHD := btnUltraHD ui; btnStandard := b;
                   intervals := intervals ui; saved := saved ui;
                   alerts := alerts ui |}
  end.

Definition set_intervals (l : list Countdown) (ui : Ui) : Ui :=
  {| mosaicCanvas := mosaicCanvas ui; btnUltraHD := btnUltraHD ui;
     btnStandard := btnStandard ui; intervals := l; saved := saved ui;
     alerts := alerts ui |}.

Definition save_file (f : SavedFile) (ui : Ui) : Ui :=
  {| mosaicCanvas := mosaicCanvas ui; btnUltraHD := btnUltraHD ui;
     btnStandard := btnStandard ui; intervals := intervals ui;
     saved := saved ui ++ [f]; alerts := alerts ui |}.

Definition alert (msg : string) (ui : Ui) : Ui :=
  {| mosaicCanvas := mosaicCanvas ui; btnUltraHD := btnUltraHD ui;
     btnStandard := btnStandard ui; intervals := intervals ui;
     saved := saved ui; alerts := alerts ui ++ [msg] |}.

(** The countdown label: the hourglass, a space, the count, [s...]. *)
Definition countdown_label (n : Z) : ustr :=
  [9203; 32] ++ ustr_of (NilZero.string_of_int (Z.to_int n))
  ++ ustr_of "s...".

Definition file_of (k : Kind) (c : Canvas) : SavedFile :=
  match k with
  | UltraHD => SavedPNG "mosaic-ultra-hd.png" c
  | Standard => SavedJPEG "mosaic-standard.jpg" (85 # 100) (62 # 100) c
  end.

(** The body shared, up to the button and the file, by the two click
    handlers. *)
Definition download_click (k : Kind) (ui : Ui) : Ui :=
  match mosaicCanvas ui with
  | None => alert "Please generate the mosaic first!" ui
  | Some canvas =>
      let btn := button k ui in
      set_intervals
        (intervals ui ++ [ {| cd_kind := k;
                              cd_countdown := 5;
                              cd_originalText := innerHTML btn;
                              cd_canvas := canvas |} ])
        (set_button k {| innerHTML := innerHTML btn;
                         disabled := true;
                         style_opacity := "0.7";
                         style_cursor := "not-allowed" |} ui)
  end.

Definition downloadUltraHD : Ui -> Ui := download_click UltraHD.
Definition downloadStandard : Ui -> Ui := download_click Standard.

Fixpoint replace_nth {A : Type} (i : nat) (a : A) (l : list A) : list A :=
  match l, i with
  | [], _ => []
  | _ :: t, O => a :: t
  | x :: t, S i' => x :: replace_nth i' a t
  end.

Fixpoint remove_nth {A : Type} (i : nat) (l : list A) : list A :=
  match l, i with
  | [], _ => []
  | _ :: t, O => t
  | x :: t, S i' => x :: remove_nth i' t
  end.

(** One firing of the [i]-th running interval. *)
Definition interval_fires (i : nat) (ui : Ui) : Ui :=
  match nth_error (intervals ui) i with
  | None => ui
  | Some cd =>
      let k := cd_kind cd in
      let btn := button k ui in
      let shown := set_button k {| innerHTML := countdown_label (cd_countdown cd);
                                    disabled := disabled btn;
                                    style_opacity := style_opacity btn;
                                    style_cursor := style_cursor btn |} ui in
      let countdown := cd_countdown cd - 1 in
      if countdown <? 0 then
        set_button k {| innerHTML := cd_originalText cd;
                        disabled := false;
                        style_opacity := "1";
                        style_cursor := "pointer" |}
          (save_file (file_of k (cd_canvas cd))
             (set_intervals (remove_nth i (intervals ui)) shown))
      else
        set_intervals
          (replace_nth i {| cd_kind := k;
                            cd_countdown := countdown;
                            cd_originalText := cd_originalText cd;
                            cd_canvas := cd_canvas cd |}
                       (intervals ui))
          shown
  end.

(** ** The SVG optimiser script ([optimize-svgs.js])

    *** [getAllSvgFiles]

    What [readdir] with file types yields for a directory: files,
    directories (which may fail to be read) and anything else (links,
    sockets). *)

#[warnings="-register-all"]
Inductive Entry : Type :=
| FileEntry (name : jsstr)
| DirEntry (name : jsstr) (readable : bool) (entries : list Entry)
| OtherEntry (name : jsstr).

(** [s.endsWith(suffix)] *)
Definition endsWith (s suffix : jsstr) : bool :=
  match strip_prefix (rev suffix) (rev s) with
  | Some _ => true
  | None => false
  end.

Definition is_svg_name (name : jsstr) : bool :=
  endsWith (toLowerCase name) (lit ".svg").

Section Scan.

(** [path.join], which joins two paths and normalises the result.  The
    scan only hands its results on, so any function will do here. *)
Variable path_join : jsstr -> jsstr -> jsstr.

(** What the [for] loop of [scan] does with one entry of [currentDir], the
    recursive call on a directory included.  [files] is the shared array. *)
Fixpoint scan_entry (currentDir : jsstr) (entry : Entry) (files : list jsstr)
  {struct entry} : Completion (list jsstr) :=
  match entry with
  | DirEntry name readable entries =>
      let fullPath := path_join currentDir name in
      if readable then
        (fix loop (es : list Entry) (files : list jsstr)
           : Completion (list jsstr) :=
           match es with
           | [] => Normal files
           | e :: rest =>
               files' <- scan_entry fullPath e files ;; loop rest files'
           end) entries files
      else Throw (Error "readdir failed")
  | FileEntry name =>
      if is_svg_name name then Normal (files ++ [path_join currentDir name])
      else Normal files
  | OtherEntry _ => Normal files
  end.

(** [scan(currentDir)] *)
Fixpoint scan_entries (currentDir : jsstr) (entries : list Entry)
    (files : list jsstr) : Completion (list jsstr) :=
  match entries with
  | [] => Normal files
  | e :: rest =>
      files' <- scan_entry currentDir e files ;;
      scan_entries currentDir rest files'
  end.

Definition scan (currentDir : jsstr) (readable : bool) (entries : list Entry)
    (files : list jsstr) : Completion (list jsstr) :=
  if readable then scan_entries currentDir entries files
  else Throw (Error "readdir failed").

Definition getAllSvgFiles (dir : jsstr) (readable : bool)
    (entries : list Entry) : Completion (list jsstr) :=
  scan dir readable entries [].

(** The SVG files below an entry, depth first in directory order. *)
Fixpoint svg_files_below (currentDir : jsstr) (entry : Entry) : list jsstr :=
  match entry with
  | FileEntry name => if is_svg_name name then [path_join currentDir name]
                      else []
  | DirEntry name _ entries =>
      flat_map (svg_files_below (path_join currentDir name)) entries
  | OtherEntry _ => []
  end.

End Scan.

(** Whether every directory below an entry can be read. *)
Fixpoint all_readable (entry : Entry) : bool :=
  match entry with
  | DirEntry _ readable entries => readable && forallb all_readable entries
  | _ => true
  end.

(** *** The loop of [main] over the files

    [optimizeSvg] returns the two sizes of a file, or [null] when anything
    failed for it. *)

Record Totals : Type := mkTotals {
  totalOriginalSize : Z;
  totalOptimizedSize : Z;
  processedCount : Z;
  progress_shown : list nat
}.

(** One round of the loop, for index [i] of [n] files. *)
Definition account (n i : nat) (result : option (Z * Z)) (t : Totals)
  : Totals :=
  match result with
  | Some (originalSize, optimizedSize) =>
      {| totalOriginalSize := totalOriginalSize t + originalSize;
         totalOptimizedSize := totalOptimizedSize t + optimizedSize;
         processedCount := processedCount t + 1;
         progress_shown :=
           if Nat.eqb ((i + 1) mod 100) 0 || Nat.eqb i (n - 1)
           then progress_shown t ++ [(i + 1)%nat]
           else progress_shown t |}
  | None => t
  end.

Fixpoint account_from (n i : nat) (results : list (option (Z * Z)))
    (t : Totals) : Totals :=
  match results with
  | [] => t
  | r :: rest => account_from n (S i) rest (account n i r t)
  end.

Definition account_all (results : list (option (Z * Z))) : Totals :=
  account_from (length results) 0 results
    {| totalOriginalSize := 0; totalOptimizedSize := 0;
       processedCount := 0; progress_shown := [] |}.

(** *** The first lines of [main]

    [args] are the command-line arguments after the script's name, so that
    [process.argv[2]] is the first of them.  [path.join] throws a
    [TypeError] when given something that is not a string. *)

Inductive Start : Type :=
| UsageAndExit (code : Z)
| Proceed (inputDir outputDir : jsstr).

Definition truthy (v : option jsstr) : bool :=
  match v with
  | Some (_ :: _) => true
  | _ => false
  end.

Section MainStart.

Variable path_join : jsstr -> jsstr -> jsstr.

Definition main_start (args : list jsstr) : Completion Start :=
  let inputDir := nth_error args 0 in
  outputDir <-
    (if truthy (nth_error args 1)
     then Normal (match nth_error args 1 with Some s => s | None => [] end)
     else match inputDir with
          | Some d => Normal (path_join d (lit "../max-optimized-emojis"))
          | None => Throw TypeError
          end) ;;
  if negb (truthy inputDir) then Normal (UsageAndExit 1)
  else Normal (Proceed (match inputDir with Some d => d | None => [] end)
                       outputDir).

End MainStart.

(** ** Well-formed palette identifiers (the specification's side)

    [<prefix><hexGroup>(<delimiter><hexGroup>)*<extension>] with prefix
    [emoji_u], delimiter [_] and extension [.svg]; a group is a non-empty
    hexadecimal numeral, in either case, of a Unicode code point. *)

Fixpoint index_of (c : ascii) (s : jsstr) : option Z :=
  match s with
  | [] => None
  | a :: t => if Ascii.eqb a c then Some 0
              else option_map Z.succ (index_of c t)
  end.

(** The value of a hexadecimal digit is its place among the sixteen digits,
    the letters in either case. *)
Definition digit_value (c : ascii) : option Z :=
  match index_of c (lit "0123456789abcdef") with
  | Some d => Some d
  | None => option_map (Z.add 10) (index_of c (lit "ABCDEF"))
  end.

Definition is_hex (c : ascii) : bool :=
  match digit_value c with
  | Some _ => true
  | None => false
  end.

Definition digit_or_zero (c : ascii) : Z :=
  match digit_value c with
  | Some d => d
  | None => 0
  end.

Definition hex_value (g : jsstr) : Z :=
  fold_left (fun acc c => 16 * acc + digit_or_zero c) g 0.

Definition is_codepoint_group (g : jsstr) : bool :=
  negb (Nat.eqb (length g) 0) && forallb is_hex g
  && (hex_value g <=? 1114111).

Fixpoint join (sep : ascii) (gs : list jsstr) : jsstr :=
  match gs with
  | [] => []
  | [g] => g
  | g :: rest => g ++ sep :: join sep rest
  end.

Definition identifier (groups : list jsstr) : jsstr :=
  lit "emoji_u" ++ join "_"%char groups ++ lit ".svg".

Definition wellformed (groups : list jsstr) : bool :=
  negb (Nat.eqb (length groups) 0) && forallb is_codepoint_group groups.

(** The character sequence of a code point sequence. *)
Definition chars_of (cps : list Z) : ustr :=
  flat_map UTF16EncodeCodePoint cps.

(** Reading a UTF-16 string back as code points: a high surrogate followed
    by a low surrogate is one code point, any other unit stands alone. *)
Fixpoint code_points (u : ustr) : list Z :=
  match u with
  | [] => []
  | hi :: rest =>
      match rest with
      | lo :: rest' =>
          if (55296 <=? hi) && (hi <=? 56319)
             && (56320 <=? lo) && (lo <=? 57343)
          then ((hi - 55296) * 1024 + (lo - 56320) + 65536)
                 :: code_points rest'
          else hi :: code_points rest
      | [] => [hi]
      end
  end.

(** ** Vocabulary for the dispatcher's properties *)

(** How the promise ends when the fallback block runs on a pending
    promise. *)
Definition outcome (c : Completion MatchResult) : PromiseState :=
  match c with
  | Normal results => Fulfilled results
  | Throw err => Rejected err
  end.

(** What a [handleMessage] closure holding batch [colors] does to its
    promise on message [m], if anything. *)
Definition settled_by (runMatching : ColorBatch -> Completion MatchResult)
    (m : FromWorker) (colors : ColorBatch) : option PromiseState :=
  match m with
  | MATCH_COMPLETE results => Some (Fulfilled results)
  | ERROR _ => Some (outcome (runMatching colors))
  | _ => None
  end.

(** Every registered closure belongs to a promise that exists. *)
Definition wf (st : Page) : Prop :=
  Forall (fun l => (l_promise l < length (promises st))%nat) (registered st).

(** The events that answer a match request. *)
Definition is_reply (e : Event) : bool :=
  match e with
  | Message (MATCH_COMPLETE _) => true
  | Message (ERROR _) => true
  | _ => false
  end.

Definition is_ready_message (e : Event) : bool :=
  match e with
  | Message WASM_READY => true
  | _ => false
  end.

(** A call with batch [colors] that returned promise [p]: the promise
    exists, and every registered closure that settles [p] holds [colors]. *)
Definition tracks (colors : ColorBatch) (p : nat) (st : Page) : Prop :=
  (p < length (promises st))%nat
  /\ (forall l, In l (registered st) -> l_promise l = p ->
                l_colors l = colors).

(** The call is still waiting for its reply. *)
Definition awaiting (colors : ColorBatch) (p : nat) (st : Page) : Prop :=
  tracks colors p st
  /\ promise_state st p = Pending
  /\ (exists l, In l (registered st) /\ l_promise l = p).

(** The promise is settled, and if it is rejected then with what the local
    matcher threw on [colors]. *)
Definition settled_right (runMatching : ColorBatch -> Completion MatchResult)
    (colors : ColorBatch) (p : nat) (st : Page) : Prop :=
  (exists v, promise_state st p = Fulfilled v)
  \/ (exists e, promise_state st p = Rejected e
                /\ runMatching colors = Throw e).

(** ** A small palette for the examples *)

Definition demo_index : MatchIndex :=
  [ ([255; 0; 0], lit "emoji_u1f534.svg");
    ([0; 0; 255], lit "emoji_u1f535.svg") ].

Definition demo_background : Background :=
  {| bg_contents := demo_index; bg_loaded := false |}.

(** The page after [initWorker] and the worker's acknowledgement. *)
Definition demo_ready_page : Page :=
  fst (serve demo_index (initWorker initial, demo_background)).

(** Two calls made back to back on the ready channel, before the worker has
    answered the first. *)
Definition overlapping_page : Page :=
  snd (matchEmojisInWorker (queryBatch demo_index) [[0; 0; 255]]
         (snd (matchEmojisInWorker (queryBatch demo_index) [[255; 0; 0]]
                 demo_ready_page))).

Definition loaded (idx : MatchIndex) : Background :=
  {| bg_contents := idx; bg_loaded := true |}.

(** The [fillText] call made for tile [(x, y)] when the running index is
    [index]. *)
Definition tile_draw (results : list ustr) (tileSize offset : number)
    (y x index : nat) : TextDraw :=
  {| td_text := glyph_at results index;
     td_x := glyph_pos tileSize offset x;
     td_y := glyph_pos tileSize offset y |}.

(** The calls made for one row of tiles. *)
Definition tile_row (results : list ustr) (cols : nat)
    (tileSize offset : number) (y index : nat) : list TextDraw :=
  map (fun k => tile_draw results tileSize offset y k (index + k)%nat)
      (seq 0 cols).



(** The page's bookkeeping: no closure is registered twice, every registered
    closure belongs to a promise that is still pending, and every pending
    promise still has its closure. *)
Definition coherent (st : Page) : Prop :=
  NoDup (map l_promise (registered st))
  /\ (forall l, In l (registered st) ->
        (l_promise l < length (promises st))%nat
        /\ promise_state st (l_promise l) = Pending)
  /\ (forall p, (p < length (promises st))%nat ->
        promise_state st p = Pending ->
        exists l, In l (registered st) /\ l_promise l = p).

Definition is_match_request (m : ToWorker) : bool :=
  match m with
  | MATCH_EMOJIS _ => true
  | INIT_WASM _ _ => false
  end.

(** A Unicode scalar value: a code point that is not a surrogate. *)
Definition is_scalar (cp : Z) : bool :=
  (0 <=? cp) && (cp <=? 1114111)
  && negb ((55296 <=? cp) && (cp <=? 57343)).

(** The characters an identifier is made of besides prefix and extension. *)
Definition is_body_char (c : ascii) : bool :=
  is_hex c || Ascii.eqb c "_".

(** A page with both buttons idle, with or without a mosaic. *)
Definition idle_ui (canvas : option Canvas) : Ui :=
  {| mosaicCanvas := canvas;
     btnUltraHD := mkButton (ustr_of "Ultra HD") false "1" "pointer";
     btnStandard := mkButton (ustr_of "Standard") false "1" "pointer";
     intervals := []; saved := []; alerts := [] |}.

(** A page whose mosaic canvas was taken away after a click on the Ultra HD
    button: the countdown of that click is still running. *)
Definition countdown_without_canvas (c : Canvas) : Ui :=
  let ui := downloadUltraHD (idle_ui (Some c)) in
  {| mosaicCanvas := None;
     btnUltraHD := btnUltraHD ui;
     btnStandard := btnStandard ui;
     intervals := intervals ui;
     saved := saved ui;
     alerts := alerts ui |}.

(** A small directory: an upper-case SVG, a readable directory whose own
    name ends in [.svg], and a link. *)
Definition demo_entries : list Entry :=
  [FileEntry (lit "a.SVG");
   DirEntry (lit "flags.svg") true
     [FileEntry (lit "readme.txt"); FileEntry (lit "b.svg")];
   OtherEntry (lit "link.svg")].

(** The files for which [optimizeSvg] returned a result. *)
Definition processed (results : list (option (Z * Z))) : list (Z * Z) :=
  flat_map (fun r => match r with Some s => [s] | None => [] end) results.

Definition sum_Z (l : list Z) : Z := fold_right Z.add 0 l.

Definition init_request : ToWorker :=
  INIT_WASM "build/full_mosaic.wasm" "kd_tree.json".

(** The worker object, once created, has been sent the initialisation
    request first and only match requests after it. *)
Definition init_first (st : Page) : Prop :=
  match mosaicWorker st with
  | None => True
  | Some w => exists rest, outbox w = init_request :: rest
                           /\ forallb is_match_request rest = true
  end.

(** The initialisation request is either still on the channel, in front of
    everything else and with the flag down, or it is gone from it; without
    a worker the flag is down. *)
Definition init_pending_or_taken (st : Page) : Prop :=
  (is_null (mosaicWorker st) = true /\ workerReady st = false)
  \/ (is_null (mosaicWorker st) = false
      /\ (forallb is_match_request (sent st) = true
          \/ (workerReady st = false
              /\ exists rest, sent st = init_request :: rest
                              /\ forallb is_match_request rest = true))).

(** The worker exists, the flag is down and only match requests are left
    on the channel. *)
Definition unavailable (st : Page) : Prop :=
  is_null (mosaicWorker st) = false
  /\ workerReady st = false
  /\ forallb is_match_request (sent st) = true.

(** Induction over an entry and, for a directory, over all its entries. *)
Section EntryInduction.

Variable P : Entry -> Prop.
Hypothesis file_case : forall name, P (FileEntry name).
Hypothesis dir_case :
  forall name readable entries,
    Forall P entries -> P (DirEntry name readable entries).
Hypothesis other_case : forall name, P (OtherEntry name).

Fixpoint Entry_forall_ind (e : Entry) : P e :=
  match e with
  | FileEntry name => file_case name
  | DirEntry name readable entries =>
      dir_case name readable entries
        ((fix all (l : list Entry) : Forall P l :=
            match l with
            | [] => Forall_nil P
            | x :: t => Forall_cons x (Entry_forall_ind x) (all t)
            end) entries)
  | OtherEntry name => other_case name
  end.

End EntryInduction.

(** * Properties *)

(** ** Characters *)

Ltac each_char c :=
  destruct c as [[] [] [] [] [] [] [] []]; try reflexivity.

Lemma lower_char_idem (c : ascii) : lower_char (lower_char c) = lower_char c.
Proof. each_char c. Qed.

Lemma hexDigit_lower (c : ascii) : hexDigit (lower_char c) = hexDigit c.
Proof. each_char c. Qed.

Lemma hexDigit_digit_value (c : ascii) : hexDigit c = digit_value c.
Proof. each_char c. Qed.

Lemma lower_char_slash (c : ascii) :
  Ascii.eqb (lower_char c) "/" = Ascii.eqb c "/".
Proof. each_char c. Qed.

(** ** The decoder on a few names *)

Example parseInt16_plain : parseInt16 (lit "1f600") = Some 128512.
Proof. reflexivity. Qed.

Example parseInt16_stops_at_first_non_digit :
  parseInt16 (lit "1f600x") = Some 128512.
Proof. reflexivity. Qed.

Example parseInt16_skips_space_and_prefix :
  parseInt16 (lit " 0x1f") = Some 31.
Proof. reflexivity. Qed.

Example parseInt16_sign : parseInt16 (lit "-5") = Some (-5).
Proof. reflexivity. Qed.

Example parseInt16_empty_is_NaN : parseInt16 (lit "") = None.
Proof. reflexivity. Qed.

Example decode_grinning_face :
  filenameToEmoji (lit "emoji_u1f600.svg") = Normal [55357; 56832].
Proof. reflexivity. Qed.

Example decode_sequence_in_a_directory :
  filenameToEmoji (lit "assets/EMOJI_U1F468_200D_1F469.SVG")
  = Normal [55357; 56424; 8205; 55357; 56425].
Proof. reflexivity. Qed.

Example decode_no_group : filenameToEmoji (lit "emoji_u.svg") = Throw RangeError.
Proof. reflexivity. Qed.

Example decode_beyond_unicode :
  filenameToEmoji (lit "emoji_u110000.svg") = Throw RangeError.
Proof. reflexivity. Qed.

Example decode_negative : filenameToEmoji (lit "-1") = Throw RangeError.
Proof. reflexivity. Qed.

(** ** Splitting and the last path segment *)

Lemma split_nonempty (sep : ascii) (s : jsstr) : split sep s <> [].
Proof.
  destruct s as [|c t]; simpl; [discriminate|].
  destruct (Ascii.eqb c sep); [discriminate|].
  destruct (split sep t); discriminate.
Qed.

Lemma split_app_sep (sep : ascii) (a b : jsstr) :
  split sep (a ++ sep :: b) = split sep a ++ split sep b.
Proof.
  induction a as [|c t IH]; simpl.
  - now rewrite Ascii.eqb_refl.
  - destruct (Ascii.eqb c sep); [now rewrite IH|].
    rewrite IH. pose proof (split_nonempty sep t) as Hne.
    destruct (split sep t); [contradiction|reflexivity].
Qed.

Lemma pop_app {A : Type} (l1 l2 : list A) :
  l2 <> [] -> pop (l1 ++ l2) = pop l2.
Proof.
  intros Hne. induction l1 as [|x t IH]; [reflexivity|].
  change ((x :: t) ++ l2) with (x :: (t ++ l2)).
  simpl. destruct (t ++ l2) eqn:E; [|exact IH].
  destruct t; simpl in E; [contradiction|discriminate].
Qed.

Lemma toLowerCase_idem (s : jsstr) :
  toLowerCase (toLowerCase s) = toLowerCase s.
Proof.
  unfold toLowerCase. rewrite map_map.
  apply map_ext. exact lower_char_idem.
Qed.

Lemma last_segment_dir (p s : jsstr) :
  pop (split "/" (toLowerCase (p ++ lit "/" ++ s)))
  = pop (split "/" (toLowerCase s)).
Proof.
  unfold toLowerCase. rewrite map_app. simpl.
  change (lower_char "/") with "/"%char.
  rewrite split_app_sep. apply pop_app, split_nonempty.
Qed.

(** C10.  The decoder reads its input only through the lower-cased last
    path segment: two names with the same lower-cased last segment decode
    alike; hence putting any directory prefix [p] and a slash in front of
    [s] changes nothing, and neither does replacing [s] by its lower-case
    form (upper-case hexadecimal digits decode like lower-case ones);
    exceptions included. *)
Theorem filenameToEmoji_last_segment_lowercase :
  (forall s t : jsstr,
      pop (split "/" (toLowerCase s)) = pop (split "/" (toLowerCase t)) ->
      filenameToEmoji s = filenameToEmoji t)
  /\ (forall p s : jsstr,
         filenameToEmoji (p ++ lit "/" ++ s) = filenameToEmoji s)
  /\ (forall s : jsstr,
         filenameToEmoji (toLowerCase s) = filenameToEmoji s).
Proof.
  assert (H : forall s t : jsstr,
             pop (split "/" (toLowerCase s)) = pop (split "/" (toLowerCase t))
             -> filenameToEmoji s = filenameToEmoji t).
  { intros s t E. unfold filenameToEmoji. now rewrite E. }
  split; [exact H|split].
  - intros p s. apply H, last_segment_dir.
  - intros s. apply H. now rewrite toLowerCase_idem.
Qed.

Lemma filenameToEmoji_last_segment_lowercase_witness :
  pop (split "/" (toLowerCase (lit "svg/EMOJI_U1F600.SVG")))
  = pop (split "/" (toLowerCase (lit "emoji_u1F600.svg")))
  /\ filenameToEmoji (lit "svg/EMOJI_U1F600.SVG")
     = filenameToEmoji (lit "emoji_u1F600.svg").
Proof.
  split; [reflexivity|].
  apply (proj1 filenameToEmoji_last_segment_lowercase).
  reflexivity.
Defined.

(** ** Decoding well-formed identifiers *)

Lemma strip_prefix_app (p s : jsstr) : strip_prefix p (p ++ s) = Some s.
Proof.
  induction p as [|a p IH]; simpl; [reflexivity|].
  now rewrite Ascii.eqb_refl.
Qed.

Lemma replace_prefix_app (p s : jsstr) : replace_prefix p (p ++ s) = s.
Proof. unfold replace_prefix. now rewrite strip_prefix_app. Qed.

Lemma replace_suffix_app (p s : jsstr) : replace_suffix p (s ++ p) = s.
Proof.
  unfold replace_suffix.
  now rewrite rev_app_distr, strip_prefix_app, rev_involutive.
Qed.

Lemma split_absent (sep : ascii) (s : jsstr) :
  forallb (fun c => negb (Ascii.eqb c sep)) s = true -> split sep s = [s].
Proof.
  induction s as [|c t IH]; simpl; [reflexivity|].
  intros H. apply andb_prop in H. destruct H as [Hc Ht].
  apply negb_true_iff in Hc. rewrite Hc, (IH Ht). reflexivity.
Qed.

Lemma split_join (sep : ascii) (gs : list jsstr) :
  gs <> [] ->
  Forall (fun g => forallb (fun c => negb (Ascii.eqb c sep)) g = true) gs ->
  split sep (join sep gs) = gs.
Proof.
  induction gs as [|g rest IH]; [congruence|].
  intros _ Hall. inversion Hall as [|? ? Hg Hrest]; subst.
  destruct rest as [|g' rest'].
  - simpl. now apply split_absent.
  - change (join sep (g :: g' :: rest'))
      with (g ++ sep :: join sep (g' :: rest')).
    rewrite split_app_sep, (split_absent _ _ Hg), IH; [reflexivity| |exact Hrest].
    discriminate.
Qed.

Lemma toLowerCase_join (gs : list jsstr) :
  toLowerCase (join "_" gs) = join "_" (map toLowerCase gs).
Proof.
  induction gs as [|g rest IH]; [reflexivity|].
  destruct rest as [|g' rest']; [reflexivity|].
  change (join "_" (g :: g' :: rest'))
    with (g ++ "_"%char :: join "_" (g' :: rest')).
  change (map toLowerCase (g :: g' :: rest'))
    with (toLowerCase g :: map toLowerCase (g' :: rest')).
  change (join "_" (toLowerCase g :: map toLowerCase (g' :: rest')))
    with (toLowerCase g ++ "_"%char :: join "_" (map toLowerCase (g' :: rest'))).
  rewrite <- IH. unfold toLowerCase. now rewrite map_app.
Qed.

(** Hexadecimal digits are neither separators nor anything [parseInt]
    skips. *)
Lemma is_hex_plain (c : ascii) :
  is_hex c = true ->
  Ascii.eqb c "/" = false /\ Ascii.eqb c "_" = false
  /\ isWhiteSpace c = false /\ Ascii.eqb c "+" = false
  /\ Ascii.eqb c "-" = false /\ Ascii.eqb c "x" = false
  /\ Ascii.eqb c "X" = false.
Proof. each_char c; intros H; try discriminate H; repeat split. Qed.

Lemma is_hex_lower (c : ascii) : is_hex (lower_char c) = is_hex c.
Proof. each_char c. Qed.

Lemma digit_value_lower (c : ascii) :
  digit_value (lower_char c) = digit_value c.
Proof. each_char c. Qed.

Lemma digitSpan_hex (g : jsstr) :
  forallb is_hex g = true ->
  digitSpan g = map digit_or_zero g.
Proof.
  induction g as [|c t IH]; simpl; [reflexivity|].
  intros H. apply andb_prop in H. destruct H as [Hc Ht].
  rewrite hexDigit_digit_value. unfold is_hex in Hc. unfold digit_or_zero at 1.
  destruct (digit_value c); [|discriminate]. now rewrite IH.
Qed.

Lemma radix16_hex_value (g : jsstr) :
  radix16 (map digit_or_zero g) = hex_value g.
Proof.
  unfold radix16, hex_value.
  set (acc := 0). clearbody acc. revert acc.
  induction g as [|c t IH]; intros acc; simpl; [reflexivity|apply IH].
Qed.

Lemma hex_value_lower (g : jsstr) : hex_value (toLowerCase g) = hex_value g.
Proof.
  unfold hex_value.
  set (acc := 0). clearbody acc. revert acc.
  induction g as [|c t IH]; intros acc; simpl; [reflexivity|].
  rewrite IH. unfold digit_or_zero. now rewrite digit_value_lower.
Qed.

Lemma parseInt16_digits (g : jsstr) :
  g <> [] -> forallb is_hex g = true ->
  parseInt16 g = match digitSpan g with
                 | [] => None
                 | ds => Some (1 * radix16 ds)
                 end.
Proof.
  intros Hne Hhex. destruct g as [|c t]; [congruence|].
  simpl in Hhex. apply andb_prop in Hhex. destruct Hhex as [Hc Ht].
  destruct c as [[] [] [] [] [] [] [] []];
    try discriminate Hc; try reflexivity.
  destruct t as [|c2 t2]; [reflexivity|].
  simpl in Ht. apply andb_prop in Ht. destruct Ht as [Hc2 _].
  destruct c2 as [[] [] [] [] [] [] [] []];
    try discriminate Hc2; reflexivity.
Qed.

Lemma parseInt16_hex (g : jsstr) :
  g <> [] -> forallb is_hex g = true -> parseInt16 g = Some (hex_value g).
Proof.
  intros Hne Hhex. rewrite (parseInt16_digits g Hne Hhex).
  rewrite (digitSpan_hex g Hhex).
  destruct g as [|c t]; [congruence|].
  rewrite <- (radix16_hex_value (c :: t)).
  simpl map. cbv iota. now rewrite Z.mul_1_l.
Qed.

Lemma hex_value_nonneg (g : jsstr) : 0 <= hex_value g.
Proof.
  unfold hex_value.
  assert (H : forall acc, 0 <= acc ->
            0 <= fold_left (fun a c => 16 * a + digit_or_zero c) g acc).
  { induction g as [|c t IH]; intros acc Hacc; cbn [fold_left];
      [exact Hacc|].
    apply IH. assert (0 <= digit_or_zero c) by (each_char c; cbv; congruence).
    lia. }
  apply H. lia.
Qed.

Lemma fromCodePoint_valid (cps : list Z) :
  Forall (fun cp => 0 <= cp <= 1114111) cps ->
  fromCodePoint (map Some cps) = Normal (chars_of cps).
Proof.
  induction 1 as [|cp rest Hcp _ IH]; [reflexivity|].
  simpl. destruct (Z.ltb_spec cp 0); [lia|].
  destruct (Z.ltb_spec 1114111 cp); [lia|].
  simpl. now rewrite IH.
Qed.

Lemma forallb_lower_hex (g : jsstr) :
  forallb is_hex (toLowerCase g) = forallb is_hex g.
Proof.
  induction g as [|c t IH]; [reflexivity|].
  simpl. now rewrite is_hex_lower, IH.
Qed.

Lemma hex_no_sep (sep : ascii) (g : jsstr) :
  (forall c, is_hex c = true -> Ascii.eqb c sep = false) ->
  forallb is_hex g = true ->
  forallb (fun c => negb (Ascii.eqb c sep)) g = true.
Proof.
  intros Hsep. induction g as [|c t IH]; [reflexivity|].
  simpl. intros H. apply andb_prop in H. destruct H as [Hc Ht].
  now rewrite (Hsep c Hc), (IH Ht).
Qed.

Lemma join_no_slash (gs : list jsstr) :
  Forall (fun g => forallb is_hex g = true) gs ->
  forallb (fun c => negb (Ascii.eqb c "/")) (join "_" gs) = true.
Proof.
  induction 1 as [|g rest Hg Hrest IH]; [reflexivity|].
  destruct rest as [|g' rest'].
  - simpl. apply hex_no_sep; [|exact Hg]. intros c Hc. apply is_hex_plain, Hc.
  - change (join "_" (g :: g' :: rest'))
      with (g ++ "_"%char :: join "_" (g' :: rest')).
    remember (join "_" (g' :: rest')) as j eqn:Ej.
    rewrite forallb_app. apply andb_true_intro. split.
    + apply hex_no_sep; [|exact Hg]. intros c Hc. apply is_hex_plain, Hc.
    + cbn [forallb]. now rewrite IH.
Qed.

(** What [wellformed] says, group by group. *)
Lemma wellformed_groups (groups : list jsstr) :
  wellformed groups = true ->
  groups <> []
  /\ Forall (fun g => g <> [] /\ forallb is_hex g = true
                      /\ hex_value g <= 1114111) groups.
Proof.
  unfold wellformed. intros H. apply andb_prop in H. destruct H as [Hne Hall].
  split; [destruct groups; [discriminate|discriminate]|].
  rewrite forallb_forall in Hall. apply Forall_forall. intros g Hg.
  specialize (Hall g Hg). unfold is_codepoint_group in Hall.
  apply andb_prop in Hall. destruct Hall as [Hall Hle].
  apply andb_prop in Hall. destruct Hall as [Hlen Hhex].
  repeat split; [destruct g; [discriminate|discriminate]|exact Hhex|lia].
Qed.

Lemma filenameToEmoji_identifier (groups : list jsstr) :
  wellformed groups = true ->
  filenameToEmoji (identifier groups)
  = Normal (chars_of (map hex_value groups)).
Proof.
  intros Hwf. apply wellformed_groups in Hwf. destruct Hwf as [Hne Hall].
  set (low := map toLowerCase groups).
  assert (Hlow : Forall (fun g => forallb is_hex g = true) low).
  { apply Forall_map. eapply Forall_impl; [|exact Hall].
    intros g [_ [Hh _]]. now rewrite forallb_lower_hex. }
  assert (Hlowered : toLowerCase (identifier groups)
                     = lit "emoji_u" ++ join "_" low ++ lit ".svg").
  { unfold identifier, toLowerCase. rewrite !map_app.
    fold (toLowerCase (join "_" groups)). now rewrite toLowerCase_join. }
  unfold filenameToEmoji. rewrite Hlowered.
  rewrite split_absent.
  2:{ rewrite !forallb_app, (join_no_slash low Hlow). reflexivity. }
  change (pop [?x]) with (Some x). cbv beta iota zeta.
  rewrite replace_prefix_app, replace_suffix_app.
  rewrite split_join.
  2:{ unfold low. destruct groups; [congruence|discriminate]. }
  2:{ eapply Forall_impl; [|exact Hlow]. intros g Hg.
      apply hex_no_sep; [|exact Hg]. intros c Hc. apply is_hex_plain, Hc. }
  assert (Hparse : map parseInt16 low = map Some (map hex_value groups)).
  { unfold low. rewrite !map_map. apply map_ext_Forall.
    eapply Forall_impl; [|exact Hall]. intros g [Hg [Hh _]].
    cbv beta. rewrite parseInt16_hex.
    - now rewrite hex_value_lower.
    - destruct g; [congruence|discriminate].
    - now rewrite forallb_lower_hex. }
  rewrite Hparse. apply fromCodePoint_valid.
  apply Forall_map. eapply Forall_impl; [|exact Hall].
  intros g [_ [_ Hle]]. split; [apply hex_value_nonneg|exact Hle].
Qed.

Lemma code_points_encode (cp : Z) :
  0 <= cp <= 1114111 -> code_points (UTF16EncodeCodePoint cp) = [cp].
Proof.
  intros Hcp. unfold UTF16EncodeCodePoint.
  destruct (Z.leb_spec cp 65535) as [Hle|Hgt]; [reflexivity|].
  cbn [code_points].
  pose proof (Z.div_mod (cp - 65536) 1024 ltac:(lia)) as Hdm.
  pose proof (Z.mod_pos_bound (cp - 65536) 1024 ltac:(lia)) as Hm.
  assert (Hq : 0 <= (cp - 65536) / 1024 <= 1023).
  { split; [apply Z.div_pos; lia|].
    apply Z.lt_succ_r, Z.div_lt_upper_bound; lia. }
  replace ((55296 <=? (cp - 65536) / 1024 + 55296)
           && ((cp - 65536) / 1024 + 55296 <=? 56319)
           && (56320 <=? (cp - 65536) mod 1024 + 56320)
           && ((cp - 65536) mod 1024 + 56320 <=? 57343)) with true.
  - f_equal. lia.
  - symmetry. rewrite !andb_true_iff, !Z.leb_le. lia.
Qed.

(** C6.  A well-formed identifier [emoji_u<g1>_..._<gn>.svg] decodes, without
    an exception, to the characters of the code points that its groups
    denote in hexadecimal, in the order of the groups; when it encodes a
    single code point, such as [0x1F600], the result reads back as exactly
    that one code point. *)
Theorem filenameToEmoji_wellformed (groups : list jsstr) :
  wellformed groups = true ->
  filenameToEmoji (identifier groups)
  = Normal (chars_of (map hex_value groups))
  /\ (forall cp u, map hex_value groups = [cp] ->
        filenameToEmoji (identifier groups) = Normal u ->
        code_points u = [cp])
  /\ (map hex_value groups = [128512] ->
        filenameToEmoji (identifier groups) = Normal [55357; 56832]).
Proof.
  intros Hwf. pose proof (filenameToEmoji_identifier groups Hwf) as Hdec.
  split; [exact Hdec|split].
  - intros cp u Hcp Hu. rewrite Hdec, Hcp in Hu. injection Hu as <-.
    unfold chars_of. cbn [flat_map]. rewrite app_nil_r.
    apply code_points_encode.
    apply wellformed_groups in Hwf. destruct Hwf as [_ Hall].
    destruct groups as [|g rest]; [discriminate|].
    injection Hcp as Hg _. inversion Hall as [|? ? [_ [_ Hle]] _]; subst.
    split; [apply hex_value_nonneg|exact Hle].
  - intros Hcp. rewrite Hdec, Hcp. reflexivity.
Qed.

Lemma filenameToEmoji_wellformed_witness :
  wellformed [lit "1F600"] = true
  /\ filenameToEmoji (lit "emoji_u1F600.svg") = Normal [55357; 56832]
  /\ code_points [55357; 56832] = [128512].
Proof.
  pose proof (filenameToEmoji_wellformed [lit "1F600"] eq_refl) as [_ [H1 H2]].
  split; [reflexivity|split].
  - exact (H2 eq_refl).
  - exact (H1 128512 [55357; 56832] eq_refl (H2 eq_refl)).
Defined.

(** ** Promises *)

Lemma settle_at_length (p : nat) (s : PromiseState) (ps : list PromiseState) :
  length (settle_at p s ps) = length ps.
Proof.
  revert p. induction ps as [|x t IH]; intros [|p]; simpl;
    try reflexivity.
  - now destruct x.
  - now rewrite IH.
Qed.

Lemma nth_settle_at_other (p q : nat) (s : PromiseState)
    (ps : list PromiseState) :
  q <> p -> nth q (settle_at p s ps) Pending = nth q ps Pending.
Proof.
  revert p q. induction ps as [|x t IH]; intros p q Hne; [reflexivity|].
  destruct p as [|p], q as [|q]; simpl.
  - congruence.
  - now destruct x.
  - reflexivity.
  - apply IH. congruence.
Qed.

Lemma nth_settle_at_pending (p : nat) (s : PromiseState)
    (ps : list PromiseState) :
  (p < length ps)%nat -> nth p ps Pending = Pending ->
  nth p (settle_at p s ps) Pending = s.
Proof.
  revert p. induction ps as [|x t IH]; intros p Hlt Hp; simpl in Hlt;
    [lia|].
  destruct p as [|p]; simpl in *.
  - now subst x.
  - apply IH; [lia|exact Hp].
Qed.

Lemma nth_settle_at_settled (p q : nat) (s : PromiseState)
    (ps : list PromiseState) :
  nth q ps Pending <> Pending ->
  nth q (settle_at p s ps) Pending = nth q ps Pending.
Proof.
  revert p q. induction ps as [|x t IH]; intros p q Hq; [reflexivity|].
  destruct p as [|p], q as [|q]; simpl in *.
  - destruct x; [congruence|reflexivity|reflexivity].
  - now destruct x.
  - reflexivity.
  - now apply IH.
Qed.

Lemma outcome_not_pending (c : Completion MatchResult) : outcome c <> Pending.
Proof. destruct c; discriminate. Qed.

Section DispatcherFacts.

Variable runMatching : ColorBatch -> Completion MatchResult.

Lemma settled_by_not_pending m colors ps :
  settled_by runMatching m colors = Some ps -> ps <> Pending.
Proof.
  destruct m; simpl; intros H; try discriminate H;
    injection H as <-; [discriminate|apply outcome_not_pending].
Qed.

Lemma handleMessage_settled_by l m st :
  handleMessage runMatching l m st
  = match settled_by runMatching m (l_colors l) with
    | Some ps => settle (l_promise l) ps (removeEventListener l st)
    | None => st
    end.
Proof.
  destruct m; simpl; try reflexivity.
  unfold fallback. now destruct (runMatching (l_colors l)).
Qed.

Lemma handleMessage_workerReady l m st :
  workerReady (handleMessage runMatching l m st) = workerReady st.
Proof.
  rewrite handleMessage_settled_by.
  now destruct (settled_by runMatching m (l_colors l)).
Qed.

Lemma handleMessage_null l m st :
  is_null (mosaicWorker (handleMessage runMatching l m st))
  = is_null (mosaicWorker st).
Proof.
  rewrite handleMessage_settled_by.
  destruct (settled_by runMatching m (l_colors l)); [|reflexivity].
  simpl. now destruct (mosaicWorker st).
Qed.

Lemma handleMessage_sent l m st :
  sent (handleMessage runMatching l m st) = sent st.
Proof.
  rewrite handleMessage_settled_by.
  destruct (settled_by runMatching m (l_colors l)); [|reflexivity].
  unfold sent. simpl. now destruct (mosaicWorker st).
Qed.

Lemma handleMessage_registered l m st l0 :
  In l0 (registered (handleMessage runMatching l m st)) ->
  In l0 (registered st).
Proof.
  rewrite handleMessage_settled_by.
  destruct (settled_by runMatching m (l_colors l)); [|auto].
  unfold registered. simpl. destruct (mosaicWorker st); simpl; [|auto].
  intros H. apply filter_In in H. tauto.
Qed.

Lemma handleMessage_length l m st :
  length (promises (handleMessage runMatching l m st))
  = length (promises st).
Proof.
  rewrite handleMessage_settled_by.
  destruct (settled_by runMatching m (l_colors l)); [|reflexivity].
  simpl. apply settle_at_length.
Qed.

Lemma handleMessage_stable l m st q :
  promise_state st q <> Pending ->
  promise_state (handleMessage runMatching l m st) q = promise_state st q.
Proof.
  intros Hq. rewrite handleMessage_settled_by.
  destruct (settled_by runMatching m (l_colors l)); [|reflexivity].
  unfold promise_state. simpl. now apply nth_settle_at_settled.
Qed.

Lemma handleMessage_other l m st q :
  l_promise l <> q ->
  promise_state (handleMessage runMatching l m st) q = promise_state st q.
Proof.
  intros Hq. rewrite handleMessage_settled_by.
  destruct (settled_by runMatching m (l_colors l)); [|reflexivity].
  unfold promise_state. simpl. apply nth_settle_at_other. congruence.
Qed.

Lemma handleMessage_own l m st ps :
  (l_promise l < length (promises st))%nat ->
  promise_state st (l_promise l) = Pending ->
  settled_by runMatching m (l_colors l) = Some ps ->
  promise_state (handleMessage runMatching l m st) (l_promise l) = ps.
Proof.
  intros Hlt Hp Hs. rewrite handleMessage_settled_by, Hs.
  unfold promise_state. simpl. now apply nth_settle_at_pending.
Qed.

(** *** Delivering one message to a list of closures *)

Lemma deliver_cons m l ls st :
  deliver runMatching m (l :: ls) st
  = deliver runMatching m ls (handleMessage runMatching l m st).
Proof. reflexivity. Qed.

Lemma deliver_workerReady m ls st :
  workerReady (deliver runMatching m ls st) = workerReady st.
Proof.
  revert st. induction ls as [|l t IH]; intros st; [reflexivity|].
  now rewrite deliver_cons, IH, handleMessage_workerReady.
Qed.

Lemma deliver_null m ls st :
  is_null (mosaicWorker (deliver runMatching m ls st)) = is_null (mosaicWorker st).
Proof.
  revert st. induction ls as [|l t IH]; intros st; [reflexivity|].
  now rewrite deliver_cons, IH, handleMessage_null.
Qed.

Lemma deliver_sent m ls st : sent (deliver runMatching m ls st) = sent st.
Proof.
  revert st. induction ls as [|l t IH]; intros st; [reflexivity|].
  now rewrite deliver_cons, IH, handleMessage_sent.
Qed.

Lemma deliver_registered m ls st l0 :
  In l0 (registered (deliver runMatching m ls st)) -> In l0 (registered st).
Proof.
  revert st. induction ls as [|l t IH]; intros st; [auto|].
  rewrite deliver_cons. intros H. apply IH in H.
  eapply handleMessage_registered, H.
Qed.

Lemma deliver_length m ls st :
  length (promises (deliver runMatching m ls st)) = length (promises st).
Proof.
  revert st. induction ls as [|l t IH]; intros st; [reflexivity|].
  now rewrite deliver_cons, IH, handleMessage_length.
Qed.

Lemma deliver_stable m ls st q :
  promise_state st q <> Pending ->
  promise_state (deliver runMatching m ls st) q = promise_state st q.
Proof.
  revert st. induction ls as [|l t IH]; intros st Hq; [reflexivity|].
  rewrite deliver_cons, IH.
  - now apply handleMessage_stable.
  - now rewrite handleMessage_stable.
Qed.

Lemma deliver_own m ls st q colors ps :
  (q < length (promises st))%nat ->
  promise_state st q = Pending ->
  (exists l, In l ls /\ l_promise l = q) ->
  (forall l, In l ls -> l_promise l = q -> l_colors l = colors) ->
  settled_by runMatching m colors = Some ps ->
  promise_state (deliver runMatching m ls st) q = ps.
Proof.
  revert st.
  induction ls as [|l t IH]; intros st Hlt Hp [l0 [Hin Hl0]] Hcol Hs.
  - destruct Hin.
  - rewrite deliver_cons.
    destruct (Nat.eq_dec (l_promise l) q) as [E|E].
    + assert (Hown : promise_state (handleMessage runMatching l m st) q = ps).
      { rewrite <- E. apply handleMessage_own.
        - now rewrite E.
        - now rewrite E.
        - rewrite (Hcol l); [exact Hs|now left|exact E]. }
      rewrite deliver_stable; [exact Hown|].
      rewrite Hown. eapply settled_by_not_pending, Hs.
    + apply IH.
      * now rewrite handleMessage_length.
      * now rewrite handleMessage_other.
      * exists l0. split; [|exact Hl0].
        destruct Hin as [->|Hin]; [contradiction|exact Hin].
      * intros l' Hl'. apply Hcol. now right.
      * exact Hs.
Qed.

Lemma deliver_quiet m ls st :
  (forall colors, settled_by runMatching m colors = None) ->
  deliver runMatching m ls st = st.
Proof.
  intros Hq. revert st. induction ls as [|l t IH]; intros st; [reflexivity|].
  rewrite deliver_cons, handleMessage_settled_by, Hq. apply IH.
Qed.

End DispatcherFacts.

(** ** The dispatcher, event by event *)

Section MatchBatch.

Variable runMatching : ColorBatch -> Completion MatchResult.

Local Abbreviation step' := (step runMatching).
Local Abbreviation run' := (run runMatching).
Local Abbreviation matchBatch := (matchEmojisInWorker runMatching).

Lemma run_app evs1 evs2 st :
  run' (evs1 ++ evs2) st = run' evs2 (run' evs1 st).
Proof. unfold run. apply fold_left_app. Qed.

Lemma registered_onmessage m st :
  registered (onmessage m st) = registered st.
Proof. now destruct m. Qed.

Lemma promises_onmessage m st : promises (onmessage m st) = promises st.
Proof. now destruct m. Qed.

Lemma settled_in_range st p :
  promise_state st p <> Pending -> (p < length (promises st))%nat.
Proof.
  unfold promise_state. intros H.
  destruct (Nat.lt_ge_cases p (length (promises st))) as [Hlt|Hge];
    [exact Hlt|].
  now rewrite nth_overflow in H.
Qed.

Lemma fallback_promises colors p st :
  promises (fallback runMatching colors p st)
  = settle_at p (outcome (runMatching colors)) (promises st).
Proof. unfold fallback. now destruct (runMatching colors). Qed.

Lemma fallback_worker colors p st :
  mosaicWorker (fallback runMatching colors p st) = mosaicWorker st
  /\ workerReady (fallback runMatching colors p st) = workerReady st.
Proof. unfold fallback. now destruct (runMatching colors). Qed.

(** The two branches of a call. *)
Lemma matchBatch_not_ready colors st :
  isReady st = false ->
  matchBatch colors st
  = (length (promises st),
     fallback runMatching colors (length (promises st))
       {| mosaicWorker := mosaicWorker st;
          workerReady := workerReady st;
          promises := promises st ++ [Pending] |}).
Proof.
  unfold isReady, matchEmojisInWorker. simpl. intros H.
  apply negb_false_iff in H. now rewrite H.
Qed.

Lemma matchBatch_ready colors st :
  isReady st = true ->
  matchBatch colors st
  = (length (promises st),
     postMessage (MATCH_EMOJIS colors)
       (addEventListener
          {| l_colors := colors; l_promise := length (promises st) |}
          {| mosaicWorker := mosaicWorker st;
             workerReady := workerReady st;
             promises := promises st ++ [Pending] |})).
Proof.
  unfold isReady, matchEmojisInWorker. simpl. intros H.
  apply negb_true_iff in H. now rewrite H.
Qed.

Lemma matchBatch_promises colors st :
  exists s,
    promises (snd (matchBatch colors st))
    = settle_at (length (promises st)) s (promises st ++ [Pending]).
Proof.
  destruct (isReady st) eqn:R.
  - rewrite matchBatch_ready by exact R. exists Pending. simpl.
    clear R. induction (promises st) as [|x t IH]; [reflexivity|].
    simpl. now rewrite <- IH.
  - rewrite matchBatch_not_ready by exact R. eexists. simpl.
    apply fallback_promises.
Qed.

Lemma matchBatch_registered colors st l :
  In l (registered (snd (matchBatch colors st))) ->
  In l (registered st)
  \/ l = {| l_colors := colors; l_promise := length (promises st) |}.
Proof.
  destruct (isReady st) eqn:R.
  - rewrite matchBatch_ready by exact R. unfold registered. simpl.
    destruct (mosaicWorker st); simpl; [|tauto].
    intros H. apply in_app_or in H. destruct H as [H|[H|[]]]; auto.
  - rewrite matchBatch_not_ready by exact R. cbn [snd]. unfold registered.
    rewrite (proj1 (fallback_worker _ _ _)). simpl. auto.
Qed.

Lemma matchBatch_keeps colors st l :
  In l (registered st) -> In l (registered (snd (matchBatch colors st))).
Proof.
  destruct (isReady st) eqn:R.
  - rewrite matchBatch_ready by exact R. unfold registered. simpl.
    destruct (mosaicWorker st); simpl; [|tauto].
    intros H. apply in_or_app. now left.
  - rewrite matchBatch_not_ready by exact R. cbn [snd]. unfold registered.
    now rewrite (proj1 (fallback_worker _ _ _)).
Qed.

Lemma matchBatch_older colors st p :
  (p < length (promises st))%nat ->
  promise_state (snd (matchBatch colors st)) p = promise_state st p.
Proof.
  intros Hlt. destruct (matchBatch_promises colors st) as [s Hs].
  unfold promise_state. rewrite Hs.
  rewrite nth_settle_at_other by lia. now apply app_nth1.
Qed.

Lemma registered_initWorker st : registered (initWorker st) = registered st.
Proof.
  unfold initWorker, registered.
  destruct (mosaicWorker st) eqn:W; simpl; now rewrite ?W.
Qed.

Lemma promises_initWorker st : promises (initWorker st) = promises st.
Proof. unfold initWorker. now destruct (mosaicWorker st). Qed.

Lemma registered_dispatchError st :
  registered (dispatchError st) = registered st.
Proof.
  unfold dispatchError, registered.
  destruct (mosaicWorker st) eqn:W; simpl; now rewrite ?W.
Qed.

Lemma promises_dispatchError st : promises (dispatchError st) = promises st.
Proof. unfold dispatchError. now destruct (mosaicWorker st). Qed.

Lemma dispatchMessage_deliver m st :
  dispatchMessage runMatching m st
  = match mosaicWorker st with
    | None => st
    | Some _ => deliver runMatching m (registered st) (onmessage m st)
    end.
Proof. unfold dispatchMessage, registered. now destruct (mosaicWorker st). Qed.

Lemma step_length st e :
  (length (promises st) <= length (promises (step' st e)))%nat.
Proof.
  destruct e as [|colors|m|]; simpl.
  - now rewrite promises_initWorker.
  - destruct (matchBatch_promises colors st) as [s ->].
    rewrite settle_at_length, length_app. simpl. lia.
  - rewrite dispatchMessage_deliver. destruct (mosaicWorker st); [|lia].
    now rewrite deliver_length, promises_onmessage.
  - now rewrite promises_dispatchError.
Qed.

Lemma step_registered st e l :
  In l (registered (step' st e)) ->
  In l (registered st) \/ (length (promises st) <= l_promise l)%nat.
Proof.
  destruct e as [|colors|m|]; simpl.
  - rewrite registered_initWorker. auto.
  - intros H. apply matchBatch_registered in H.
    destruct H as [H| ->]; [now left|right; simpl; lia].
  - rewrite dispatchMessage_deliver. destruct (mosaicWorker st); [|auto].
    intros H. apply deliver_registered in H.
    rewrite registered_onmessage in H. auto.
  - rewrite registered_dispatchError. auto.
Qed.

Lemma step_tracks colors p st e :
  tracks colors p st -> tracks colors p (step' st e).
Proof.
  intros [Hlt Hcol]. split.
  - pose proof (step_length st e). lia.
  - intros l Hin Hp. apply step_registered in Hin.
    destruct Hin as [Hin|Hnew]; [now apply Hcol|lia].
Qed.

Lemma step_stable st e p :
  promise_state st p <> Pending ->
  promise_state (step' st e) p = promise_state st p.
Proof.
  intros Hp. destruct e as [|colors|m|]; simpl.
  - unfold promise_state. now rewrite promises_initWorker.
  - apply matchBatch_older. now apply settled_in_range.
  - rewrite dispatchMessage_deliver. destruct (mosaicWorker st); [|auto].
    rewrite deliver_stable; unfold promise_state in *;
      now rewrite promises_onmessage.
  - unfold promise_state. now rewrite promises_dispatchError.
Qed.

Lemma step_quiet colors p st e :
  awaiting colors p st -> is_reply e = false ->
  awaiting colors p (step' st e).
Proof.
  intros [Ht [Hp [l [Hin Hl]]]] Hq.
  split; [now apply step_tracks|].
  assert (Hkeep : promise_state st p = Pending
                  /\ (exists l0, In l0 (registered st) /\ l_promise l0 = p))
    by (split; [exact Hp|exists l; now split]).
  destruct e as [|c|m|]; simpl.
  - unfold promise_state. rewrite promises_initWorker, registered_initWorker.
    exact Hkeep.
  - rewrite matchBatch_older by apply Ht. split; [exact Hp|].
    exists l. split; [now apply matchBatch_keeps|exact Hl].
  - rewrite dispatchMessage_deliver.
    destruct (mosaicWorker st); [|exact Hkeep].
    rewrite deliver_quiet by (intros c; destruct m; try reflexivity;
                               discriminate Hq).
    unfold promise_state.
    rewrite promises_onmessage, registered_onmessage. exact Hkeep.
  - unfold promise_state.
    rewrite promises_dispatchError, registered_dispatchError. exact Hkeep.
Qed.

Lemma run_quiet colors p evs st :
  awaiting colors p st ->
  forallb (fun e => negb (is_reply e)) evs = true ->
  awaiting colors p (run' evs st).
Proof.
  revert st. induction evs as [|e t IH]; intros st Ha Hq; [exact Ha|].
  simpl in Hq. apply andb_prop in Hq. destruct Hq as [He Ht].
  apply negb_true_iff in He. simpl. apply IH; [|exact Ht].
  now apply step_quiet.
Qed.

(** A reply reaches a waiting call. *)
Lemma reply_settles colors p st m ps :
  awaiting colors p st ->
  settled_by runMatching m colors = Some ps ->
  promise_state (step' st (Message m)) p = ps.
Proof.
  intros [[Hlt Hcol] [Hp [l [Hin Hl]]]] Hs. simpl.
  rewrite dispatchMessage_deliver.
  destruct (mosaicWorker st) eqn:W.
  - apply deliver_own with (colors := colors); try assumption.
    + now rewrite promises_onmessage.
    + unfold promise_state in *. now rewrite promises_onmessage.
    + eauto.
  - unfold registered in Hin. rewrite W in Hin. destruct Hin.
Qed.

Lemma step_settled_right colors p st e :
  tracks colors p st ->
  awaiting colors p st \/ settled_right runMatching colors p st ->
  awaiting colors p (step' st e)
  \/ settled_right runMatching colors p (step' st e).
Proof.
  intros Ht [Ha|Hs].
  - destruct (is_reply e) eqn:R; [|left; now apply step_quiet].
    right. destruct e as [|c|m|]; try discriminate R.
    destruct m as [|results|err|ty]; try discriminate R.
    + left. exists results. now apply (reply_settles colors).
    + pose proof (reply_settles colors p st (ERROR err) _ Ha eq_refl) as H.
      unfold settled_right. rewrite H.
      destruct (runMatching colors) as [r|x]; simpl; eauto.
  - right. unfold settled_right in *.
    destruct Hs as [[v Hv]|[x [Hx Hthrow]]].
    + left. exists v. rewrite step_stable; [exact Hv|]. rewrite Hv.
      discriminate.
    + right. exists x. split; [|exact Hthrow].
      rewrite step_stable; [exact Hx|]. rewrite Hx. discriminate.
Qed.

Lemma run_settled_right colors p evs st :
  tracks colors p st ->
  awaiting colors p st \/ settled_right runMatching colors p st ->
  awaiting colors p (run' evs st)
  \/ settled_right runMatching colors p (run' evs st).
Proof.
  revert st. induction evs as [|e t IH]; intros st Ht H; [exact H|].
  simpl. apply IH; [now apply step_tracks|now apply step_settled_right].
Qed.

Lemma run_stable evs st p :
  promise_state st p <> Pending ->
  promise_state (run' evs st) p = promise_state st p.
Proof.
  revert st. induction evs as [|e t IH]; intros st Hp; [reflexivity|].
  simpl. rewrite IH; [now apply step_stable|].
  now rewrite step_stable.
Qed.

(** A call made while the channel is ready waits for its reply. *)
Lemma matchBatch_awaiting colors st :
  wf st -> isReady st = true ->
  awaiting colors (fst (matchBatch colors st)) (snd (matchBatch colors st)).
Proof.
  intros Hwf R. rewrite matchBatch_ready by exact R. simpl.
  assert (W : exists w, mosaicWorker st = Some w).
  { unfold isReady in R. destruct (mosaicWorker st); [eauto|].
    now rewrite orb_true_r in R. }
  destruct W as [w W].
  unfold awaiting, tracks, registered, promise_state. simpl.
  rewrite W. simpl. rewrite length_app. simpl.
  repeat split.
  - lia.
  - intros l Hin Hl. apply in_app_or in Hin.
    destruct Hin as [Hin|[<-|[]]]; [|reflexivity].
    unfold wf, registered in Hwf. rewrite W in Hwf.
    rewrite Forall_forall in Hwf. specialize (Hwf l Hin). lia.
  - rewrite app_nth2 by lia. now rewrite Nat.sub_diag.
  - eexists. split; [apply in_or_app; right; now left|reflexivity].
Qed.

(** Every state the page can reach is well formed. *)
Lemma wf_initial : wf initial.
Proof. apply Forall_nil. Qed.

Lemma step_wf st e : wf st -> wf (step' st e).
Proof.
  unfold wf. rewrite !Forall_forall. intros Hwf l Hin.
  pose proof (step_length st e) as Hlen.
  destruct e as [|colors|m|]; simpl in *.
  - rewrite registered_initWorker in Hin. specialize (Hwf l Hin). lia.
  - apply matchBatch_registered in Hin. destruct Hin as [Hin| ->].
    + specialize (Hwf l Hin). lia.
    + destruct (matchBatch_promises colors st) as [s' Hs].
      rewrite Hs, settle_at_length, length_app. simpl. lia.
  - rewrite dispatchMessage_deliver in Hin.
    destruct (mosaicWorker st) eqn:W.
    + apply deliver_registered in Hin. rewrite registered_onmessage in Hin.
      specialize (Hwf l Hin). lia.
    + specialize (Hwf l Hin). lia.
  - rewrite registered_dispatchError in Hin. specialize (Hwf l Hin). lia.
Qed.

Lemma run_wf evs st : wf st -> wf (run' evs st).
Proof.
  revert st. induction evs as [|e t IH]; intros st Hwf; [exact Hwf|].
  simpl. apply IH. now apply step_wf.
Qed.

End MatchBatch.

(** ** The readiness flag *)

Section Readiness.

Variable runMatching : ColorBatch -> Completion MatchResult.

Lemma matchBatch_flags colors st :
  workerReady (snd (matchEmojisInWorker runMatching colors st))
  = workerReady st
  /\ is_null (mosaicWorker (snd (matchEmojisInWorker runMatching colors st)))
     = is_null (mosaicWorker st).
Proof.
  destruct (isReady st) eqn:R.
  - rewrite matchBatch_ready by exact R. simpl.
    now destruct (mosaicWorker st).
  - rewrite matchBatch_not_ready by exact R. cbn [snd].
    destruct (fallback_worker runMatching colors (length (promises st))
                {| mosaicWorker := mosaicWorker st;
                   workerReady := workerReady st;
                   promises := promises st ++ [Pending] |}) as [-> ->].
    split; reflexivity.
Qed.

Lemma step_worker_stays st e :
  is_null (mosaicWorker st) = false ->
  is_null (mosaicWorker (step runMatching st e)) = false.
Proof.
  intros W. destruct e as [|colors|m|]; simpl.
  - unfold initWorker. destruct (mosaicWorker st) eqn:E; [|reflexivity].
    now rewrite E.
  - now rewrite (proj2 (matchBatch_flags colors st)).
  - rewrite dispatchMessage_deliver. destruct (mosaicWorker st) eqn:E;
      [|discriminate W].
    rewrite deliver_null. destruct m; simpl; now rewrite E.
  - unfold dispatchError. destruct (mosaicWorker st) eqn:E;
      [simpl; now rewrite E|discriminate W].
Qed.

Lemma run_worker_stays evs st :
  is_null (mosaicWorker st) = false ->
  is_null (mosaicWorker (run runMatching evs st)) = false.
Proof.
  revert st. induction evs as [|e t IH]; intros st W; [exact W|].
  simpl. apply IH. now apply step_worker_stays.
Qed.

Lemma step_flag_stays_down st e :
  workerReady st = false -> is_ready_message e = false ->
  workerReady (step runMatching st e) = false.
Proof.
  intros F Q. destruct e as [|colors|m|]; simpl.
  - unfold initWorker. now destruct (mosaicWorker st).
  - now rewrite (proj1 (matchBatch_flags colors st)).
  - rewrite dispatchMessage_deliver. destruct (mosaicWorker st); [|exact F].
    rewrite deliver_workerReady. destruct m; try exact F. discriminate Q.
  - unfold dispatchError. now destruct (mosaicWorker st).
Qed.

Lemma run_flag_stays_down evs st :
  workerReady st = false ->
  forallb (fun e => negb (is_ready_message e)) evs = true ->
  workerReady (run runMatching evs st) = false.
Proof.
  revert st. induction evs as [|e t IH]; intros st F Q; [exact F|].
  simpl in Q. apply andb_prop in Q. destruct Q as [Qe Qt].
  apply negb_true_iff in Qe. simpl. apply IH; [|exact Qt].
  now apply step_flag_stays_down.
Qed.

Lemma ready_message_raises_flag st :
  is_null (mosaicWorker st) = false ->
  isReady (step runMatching st (Message WASM_READY)) = true.
Proof.
  intros W. unfold isReady.
  rewrite (step_worker_stays st (Message WASM_READY) W).
  simpl. rewrite dispatchMessage_deliver.
  destruct (mosaicWorker st); [|discriminate W].
  now rewrite deliver_workerReady.
Qed.

End Readiness.

(** ** The claims about the dispatcher *)

(** A call made while the channel is ready, whose first reply is an error
    response (whatever else happens before it: other calls, unrelated
    messages, error events), ends with the outcome of the local matcher on
    the same batch: fulfilled with its result if it returns, rejected with
    its exception if it throws; nothing later changes that.  And whatever
    events follow the call, its promise is rejected only with an exception
    that the local matcher threw on that batch. *)
Lemma error_reply_falls_back
    (runMatching : ColorBatch -> Completion MatchResult)
    (st : Page) (colors : ColorBatch) (quiet : list Event) (err : string) :
  wf st -> isReady st = true ->
  forallb (fun e => negb (is_reply e)) quiet = true ->
  let p := fst (matchEmojisInWorker runMatching colors st) in
  let st1 := snd (matchEmojisInWorker runMatching colors st) in
  promise_state
    (step runMatching (run runMatching quiet st1) (Message (ERROR err))) p
  = outcome (runMatching colors)
  /\ (forall later,
        promise_state
          (run runMatching (quiet ++ Message (ERROR err) :: later) st1) p
        = outcome (runMatching colors))
  /\ (forall evs e,
        promise_state (run runMatching evs st1) p = Rejected e ->
        runMatching colors = Throw e).
Proof.
  intros Hwf R Q p st1.
  pose proof (matchBatch_awaiting runMatching colors st Hwf R) as Ha.
  fold p st1 in Ha.
  assert (Hreply :
    promise_state
      (step runMatching (run runMatching quiet st1) (Message (ERROR err))) p
    = outcome (runMatching colors)).
  { apply (reply_settles runMatching colors); [|reflexivity].
    now apply run_quiet. }
  split; [exact Hreply|split].
  - intros later. rewrite run_app. change (Message (ERROR err) :: later)
      with ([Message (ERROR err)] ++ later). rewrite run_app.
    rewrite run_stable; [exact Hreply|].
    change (run runMatching [Message (ERROR err)] (run runMatching quiet st1))
      with (step runMatching (run runMatching quiet st1)
              (Message (ERROR err))).
    rewrite Hreply. apply outcome_not_pending.
  - intros evs e He.
    destruct (run_settled_right runMatching colors p evs st1 (proj1 Ha)
                (or_introl Ha)) as [Hw|[[v Hv]|[x [Hx Ht]]]].
    + destruct Hw as [_ [Hp _]]. congruence.
    + congruence.
    + congruence.
Qed.

Lemma error_reply_falls_back_witness :
  promise_state
    (run (queryBatch demo_index)
       [CallMatch [[250; 10; 10]];
        Message (OtherMessage "PROGRESS"); WorkerError;
        Message (ERROR "worker failed")]
       demo_ready_page) 0
  = Fulfilled [lit "emoji_u1f534.svg"].
Proof.
  refine (proj1 (error_reply_falls_back (queryBatch demo_index)
                   demo_ready_page [[250; 10; 10]]
                   [Message (OtherMessage "PROGRESS"); WorkerError]
                   "worker failed" _ _ _)).
  - apply Forall_nil.
  - reflexivity.
  - reflexivity.
Defined.

(** C1.  Two calls in flight on a ready channel.  Every closure listens to
    every message of the one worker and tells replies apart by their type
    only, so the reply to the first request settles both promises and
    unregisters both closures.  When the worker then answers the second
    request with an error response, nothing is left to run the local
    matcher for it: the second promise stays fulfilled with the result for
    the first batch, the red entry, where the local matcher gives the blue
    one for its own batch.  The same with the background context in place
    of hand-made replies: holding an index without entries, it answers the
    empty batch with the empty result and the next batch with an error
    response, and the second promise is fulfilled with the empty result
    although the local matcher, on an index without entries as well, throws
    on that batch. *)
Theorem error_reply_after_an_earlier_reply :
  isReady demo_ready_page = true
  /\ promise_state
       (run (queryBatch demo_index)
          [CallMatch [[255; 0; 0]]; CallMatch [[0; 0; 255]];
           Message (MATCH_COMPLETE [lit "emoji_u1f534.svg"]);
           Message (ERROR "match failed")]
          demo_ready_page) 1
     = Fulfilled [lit "emoji_u1f534.svg"]
  /\ outcome (queryBatch demo_index [[0; 0; 255]])
     = Fulfilled [lit "emoji_u1f535.svg"]
  /\ snd (bg_handle (loaded []) (MATCH_EMOJIS [])) = MATCH_COMPLETE []
  /\ snd (bg_handle (loaded []) (MATCH_EMOJIS [[0; 0; 255]]))
     = ERROR "match failed"
  /\ promise_state
       (fst (system_run []
               [PageMatch []; PageMatch [[0; 0; 255]];
                BackgroundTurn; BackgroundTurn]
               (demo_ready_page, loaded []))) 1
     = Fulfilled []
  /\ outcome (queryBatch [] [[0; 0; 255]])
     = Rejected (Error "empty match index").
Proof. repeat split. Qed.

(** The not-ready branch of a call: the promise it returns. *)
Lemma local_path_promise
    (runMatching : ColorBatch -> Completion MatchResult)
    (st : Page) (colors : ColorBatch) :
  isReady st = false ->
  promise_state (snd (matchEmojisInWorker runMatching colors st))
                (fst (matchEmojisInWorker runMatching colors st))
  = outcome (runMatching colors).
Proof.
  intros R. rewrite (matchBatch_not_ready runMatching colors st R).
  cbn [fst snd]. unfold promise_state. rewrite fallback_promises. simpl.
  apply nth_settle_at_pending.
  - rewrite length_app. simpl. lia.
  - rewrite app_nth2 by lia. now rewrite Nat.sub_diag.
Qed.

(** The not-ready branch of a call: the worker object and the flag. *)
Lemma local_path_worker
    (runMatching : ColorBatch -> Completion MatchResult)
    (st : Page) (colors : ColorBatch) :
  isReady st = false ->
  mosaicWorker (snd (matchEmojisInWorker runMatching colors st))
  = mosaicWorker st
  /\ workerReady (snd (matchEmojisInWorker runMatching colors st))
     = workerReady st.
Proof.
  intros R. rewrite (matchBatch_not_ready runMatching colors st R).
  cbn [snd].
  exact (fallback_worker runMatching colors (length (promises st))
           {| mosaicWorker := mosaicWorker st;
              workerReady := workerReady st;
              promises := promises st ++ [Pending] |}).
Qed.

(** C4.  When the readiness test fails (no worker yet, worker not yet
    acknowledged, or flag cleared by an error event), the call runs the local
    matcher inside the promise executor: when the call returns, its promise
    is already settled with the local outcome, fulfilled with the local
    result whenever the matcher returns one; nothing was posted to the
    worker, no closure was registered, and the worker and the flag are as
    before. *)
Theorem not_ready_runs_local_matcher
    (runMatching : ColorBatch -> Completion MatchResult)
    (st : Page) (colors : ColorBatch) :
  isReady st = false ->
  let p := fst (matchEmojisInWorker runMatching colors st) in
  let st1 := snd (matchEmojisInWorker runMatching colors st) in
  promise_state st1 p = outcome (runMatching colors)
  /\ (forall results, runMatching colors = Normal results ->
                      promise_state st1 p = Fulfilled results)
  /\ sent st1 = sent st
  /\ registered st1 = registered st
  /\ mosaicWorker st1 = mosaicWorker st
  /\ workerReady st1 = workerReady st.
Proof.
  intros R p st1.
  pose proof (local_path_promise runMatching st colors R) as Hp.
  destruct (local_path_worker runMatching st colors R) as [Hw Hr].
  fold p st1 in Hp. fold st1 in Hw, Hr.
  split; [exact Hp|].
  split.
  - intros results Hres. rewrite Hp, Hres. reflexivity.
  - unfold sent, registered. rewrite Hw. auto.
Qed.

(** The three not-ready situations: no worker, worker not acknowledged,
    flag cleared by an error event. *)
Lemma not_ready_runs_local_matcher_witness :
  promise_state
    (snd (matchEmojisInWorker (queryBatch demo_index) [[0; 0; 200]] initial)) 0
  = Fulfilled [lit "emoji_u1f535.svg"]
  /\ promise_state
       (snd (matchEmojisInWorker (queryBatch demo_index) [[0; 0; 200]]
               (initWorker initial))) 0
     = Fulfilled [lit "emoji_u1f535.svg"]
  /\ promise_state
       (snd (matchEmojisInWorker (queryBatch demo_index) [[0; 0; 200]]
               (dispatchError demo_ready_page))) 0
     = Fulfilled [lit "emoji_u1f535.svg"].
Proof.
  split; [|split].
  - exact (proj1 (not_ready_runs_local_matcher (queryBatch demo_index)
                    initial [[0; 0; 200]] eq_refl)).
  - exact (proj1 (not_ready_runs_local_matcher (queryBatch demo_index)
                    (initWorker initial) [[0; 0; 200]] eq_refl)).
  - exact (proj1 (not_ready_runs_local_matcher (queryBatch demo_index)
                    (dispatchError demo_ready_page) [[0; 0; 200]] eq_refl)).
Defined.

(** C3, as stated, fails: with the channel ready, a call with the empty
    batch posts a match request carrying the empty batch, and its promise is
    still pending when the call returns. *)
Lemma empty_batch_is_posted_when_ready :
  isReady demo_ready_page = true
  /\ sent demo_ready_page = []
  /\ sent (snd (matchEmojisInWorker (queryBatch demo_index) []
                  demo_ready_page))
     = [MATCH_EMOJIS []]
  /\ promise_state
       (snd (matchEmojisInWorker (queryBatch demo_index) []
               demo_ready_page))
       (fst (matchEmojisInWorker (queryBatch demo_index) []
               demo_ready_page))
     = Pending.
Proof. repeat split. Qed.

Lemma awaiting_ext (colors : ColorBatch) (p : nat) (st st' : Page) :
  registered st' = registered st -> promises st' = promises st ->
  awaiting colors p st -> awaiting colors p st'.
Proof.
  unfold awaiting, tracks, promise_state. intros -> ->. auto.
Qed.

(** A request that is alone on the channel is settled by the reply of the
    background context to it. *)
Lemma single_request_served (local : MatchIndex) (bg : Background)
    (st : Page) (colors : ColorBatch) (ps : PromiseState) :
  wf st -> isReady st = true -> sent st = [] ->
  settled_by (queryBatch local) (snd (bg_handle bg (MATCH_EMOJIS colors)))
             colors = Some ps ->
  promise_state
    (fst (serve local
            (snd (matchEmojisInWorker (queryBatch local) colors st), bg)))
    (fst (matchEmojisInWorker (queryBatch local) colors st))
  = ps.
Proof.
  intros Hwf R Hsent Hps.
  pose proof (matchBatch_awaiting (queryBatch local) colors st Hwf R) as Ha.
  rewrite (matchBatch_ready (queryBatch local) colors st R) in *.
  cbn [fst snd] in *.
  assert (W : exists w, mosaicWorker st = Some w).
  { unfold isReady in R. destruct (mosaicWorker st); [eauto|].
    now rewrite orb_true_r in R. }
  destruct W as [w W].
  unfold sent in Hsent. rewrite W in Hsent.
  unfold serve, take_request. cbn [mosaicWorker postMessage addEventListener
    with_worker]. rewrite W. cbn [option_map outbox]. rewrite Hsent.
  cbn [app].
  destruct (bg_handle bg (MATCH_EMOJIS colors)) as [bg' reply].
  cbn [fst snd] in *.
  match goal with
  | |- context [dispatchMessage _ _ ?s] => set (st2 := s)
  end.
  assert (Ha2 : awaiting colors (length (promises st)) st2).
  { eapply awaiting_ext; [| |exact Ha]; subst st2; unfold registered; simpl;
      rewrite ?W; reflexivity. }
  exact (reply_settles (queryBatch local) colors _ st2 reply ps Ha2 Hps).
Qed.

(** C3, amended.  The empty batch is routed like any other batch.  With the
    channel not ready nothing is posted and the promise is settled at once
    with the local matcher's outcome on the empty batch, the empty result
    when the matcher returns that, as [queryBatch] does.  With the channel
    ready a match request carrying the empty batch is posted; the promise
    stays pending, through whatever happens, until a reply arrives; the
    first reply settles it, a [MATCH_COMPLETE] with its results and an
    [ERROR] with the local outcome on the empty batch; and when the
    request is alone on the channel the background context answers it with
    the empty result, which the promise is then fulfilled with. *)
Theorem empty_batch_is_routed_like_any_other
    (runMatching : ColorBatch -> Completion MatchResult) (st : Page) :
  let p := fst (matchEmojisInWorker runMatching [] st) in
  let st1 := snd (matchEmojisInWorker runMatching [] st) in
  (isReady st = false ->
     sent st1 = sent st
     /\ promise_state st1 p = outcome (runMatching [])
     /\ (runMatching [] = Normal [] -> promise_state st1 p = Fulfilled []))
  /\ (forall local, queryBatch local [] = Normal [])
  /\ (isReady st = true -> wf st ->
        sent st1 = sent st ++ [MATCH_EMOJIS []]
        /\ (forall quiet,
              forallb (fun e => negb (is_reply e)) quiet = true ->
              promise_state (run runMatching quiet st1) p = Pending
              /\ (forall results,
                    promise_state
                      (step runMatching (run runMatching quiet st1)
                         (Message (MATCH_COMPLETE results))) p
                    = Fulfilled results)
              /\ (forall err,
                    promise_state
                      (step runMatching (run runMatching quiet st1)
                         (Message (ERROR err))) p
                    = outcome (runMatching []))))
  /\ (forall local contents,
        isReady st = true -> wf st -> sent st = [] ->
        snd (bg_handle (loaded contents) (MATCH_EMOJIS []))
        = MATCH_COMPLETE []
        /\ promise_state
             (fst (serve local
                     (snd (matchEmojisInWorker (queryBatch local) [] st),
                      loaded contents)))
             (fst (matchEmojisInWorker (queryBatch local) [] st))
           = Fulfilled []).
Proof.
  intros p st1. split; [|split; [|split]].
  - intros R.
    pose proof (local_path_promise runMatching st [] R) as Hp.
    destruct (local_path_worker runMatching st [] R) as [Hw _].
    fold p st1 in Hp. fold st1 in Hw.
    split; [unfold sent; now rewrite Hw|].
    split; [exact Hp|].
    intros Hempty. rewrite Hp, Hempty. reflexivity.
  - reflexivity.
  - intros R Hwf.
    pose proof (matchBatch_awaiting runMatching [] st Hwf R) as Ha.
    fold p st1 in Ha. split.
    + subst p st1. rewrite (matchBatch_ready runMatching [] st R).
      cbn [fst snd]. unfold isReady in R. unfold sent. simpl.
      destruct (mosaicWorker st); [reflexivity|now rewrite orb_true_r in R].
    + intros quiet Q.
      pose proof (run_quiet runMatching [] p quiet st1 Ha Q) as Hq.
      split; [exact (proj1 (proj2 Hq))|]. split.
      * intros results.
        exact (reply_settles runMatching [] p _ (MATCH_COMPLETE results) _
                 Hq eq_refl).
      * intros err.
        exact (reply_settles runMatching [] p _ (ERROR err) _ Hq eq_refl).
  - intros local contents R Hwf Hsent. split; [reflexivity|].
    now apply single_request_served.
Qed.

Lemma empty_batch_is_routed_like_any_other_witness :
  (sent (snd (matchEmojisInWorker (queryBatch demo_index) [] initial)) = []
   /\ promise_state
        (snd (matchEmojisInWorker (queryBatch demo_index) [] initial)) 0
      = Fulfilled [])
  /\ sent (snd (matchEmojisInWorker (queryBatch demo_index) []
                  demo_ready_page))
     = [MATCH_EMOJIS []]
  /\ promise_state
       (run (queryBatch demo_index)
          [CallMatch []; WorkerError; Message (OtherMessage "PROGRESS")]
          demo_ready_page) 0
     = Pending
  /\ promise_state
       (fst (serve demo_index
               (snd (matchEmojisInWorker (queryBatch demo_index) []
                       demo_ready_page),
                loaded demo_index))) 0
     = Fulfilled [].
Proof.
  assert (Hwf : wf demo_ready_page) by apply Forall_nil.
  split; [|split; [|split]].
  - destruct (proj1 (empty_batch_is_routed_like_any_other
                       (queryBatch demo_index) initial) eq_refl)
      as [Hs [_ Hf]].
    split; [exact Hs|exact (Hf eq_refl)].
  - exact (proj1 (proj1 (proj2 (proj2
             (empty_batch_is_routed_like_any_other
                (queryBatch demo_index) demo_ready_page))) eq_refl Hwf)).
  - exact (proj1 (proj2 (proj1 (proj2 (proj2
             (empty_batch_is_routed_like_any_other
                (queryBatch demo_index) demo_ready_page))) eq_refl Hwf)
             [WorkerError; Message (OtherMessage "PROGRESS")] eq_refl)).
  - exact (proj2 (proj2 (proj2 (proj2
             (empty_batch_is_routed_like_any_other
                (queryBatch demo_index) demo_ready_page)))
             demo_index demo_index eq_refl Hwf eq_refl)).
Defined.

(** The page on its own: after an error event has taken the flag down, it
    stays down through every later event other than a [WASM_READY]
    message (calls, other messages, further error events), the one message
    that raises it. *)
Lemma not_ready_until_next_ready_message
    (runMatching : ColorBatch -> Completion MatchResult)
    (st : Page) (evs : list Event) :
  isReady st = true ->
  let down := step runMatching st WorkerError in
  isReady down = false
  /\ (forallb (fun e => negb (is_ready_message e)) evs = true ->
      isReady (run runMatching evs down) = false)
  /\ isReady (step runMatching (run runMatching evs down)
                (Message WASM_READY)) = true.
Proof.
  intros R down.
  assert (W : is_null (mosaicWorker st) = false).
  { unfold isReady in R. destruct (mosaicWorker st); [reflexivity|].
    now rewrite orb_true_r in R. }
  assert (Hdown : workerReady down = false
                  /\ is_null (mosaicWorker down) = false).
  { subst down. simpl. unfold dispatchError.
    destruct (mosaicWorker st) eqn:E; [|discriminate W].
    simpl. now rewrite E. }
  destruct Hdown as [F Wd].
  split; [unfold isReady; now rewrite F|split].
  - intros Q. unfold isReady.
    now rewrite (run_flag_stays_down runMatching evs down F Q).
  - apply ready_message_raises_flag. now apply run_worker_stays.
Qed.

(** ** The two execution paths *)

(** With the worker holding the same index contents as the page, and no
    older request still on the channel, a call served by the worker ends
    exactly as the same call forced down the local path. *)
Lemma single_request_paths_agree (idx : MatchIndex) (st : Page)
    (colors : ColorBatch) :
  wf st -> isReady st = true -> sent st = [] ->
  promise_state
    (fst (serve idx
            (snd (matchEmojisInWorker (queryBatch idx) colors st),
             loaded idx)))
    (fst (matchEmojisInWorker (queryBatch idx) colors st))
  = promise_state
      (snd (matchEmojisInWorker (queryBatch idx) colors (onerror st)))
      (fst (matchEmojisInWorker (queryBatch idx) colors (onerror st))).
Proof.
  intros Hwf R Hsent.
  rewrite (local_path_promise (queryBatch idx) (onerror st) colors eq_refl).
  pose proof (matchBatch_awaiting (queryBatch idx) colors st Hwf R) as Ha.
  rewrite (matchBatch_ready (queryBatch idx) colors st R) in *.
  cbn [fst snd] in *.
  assert (W : exists w, mosaicWorker st = Some w).
  { unfold isReady in R. destruct (mosaicWorker st); [eauto|].
    now rewrite orb_true_r in R. }
  destruct W as [w W].
  unfold sent in Hsent. rewrite W in Hsent.
  unfold serve, take_request. cbn [mosaicWorker postMessage addEventListener
    with_worker]. rewrite W. cbn [option_map outbox]. rewrite Hsent.
  cbn [app bg_handle loaded bg_loaded bg_contents].
  match goal with
  | |- context [dispatchMessage _ _ ?s] => set (st2 := s)
  end.
  assert (Ha2 : awaiting colors (length (promises st)) st2).
  { eapply awaiting_ext; [| |exact Ha]; subst st2; unfold registered; simpl;
      rewrite ?W; reflexivity. }
  destruct (queryBatch idx colors) as [results|e] eqn:Q; cbn [fst].
  - apply (reply_settles (queryBatch idx) colors _ st2
             (MATCH_COMPLETE results) _ Ha2). reflexivity.
  - transitivity (outcome (queryBatch idx colors)); [|now rewrite Q].
    exact (reply_settles (queryBatch idx) colors _ st2
             (ERROR "match failed") _ Ha2 eq_refl).
Qed.

Lemma single_request_paths_agree_example :
  promise_state
    (fst (serve demo_index
            (snd (matchEmojisInWorker (queryBatch demo_index) [[0; 0; 255]]
                    demo_ready_page),
             loaded demo_index))) 0
  = Fulfilled [lit "emoji_u1f535.svg"].
Proof. reflexivity. Qed.

(** C2 at two overlapping calls.  The second call, for a blue tile, is
    answered by the worker's reply to the first call, for a red tile: its
    promise is fulfilled with the red palette entry, and the reply to its
    own request changes nothing any more, whereas the local path gives the
    blue entry for the same batch and the same index contents. *)
Theorem overlapping_calls_share_the_first_reply :
  isReady demo_ready_page = true
  /\ sent overlapping_page
     = [MATCH_EMOJIS [[255; 0; 0]]; MATCH_EMOJIS [[0; 0; 255]]]
  /\ promise_state
       (fst (serve demo_index (overlapping_page, loaded demo_index))) 1
     = Fulfilled [lit "emoji_u1f534.svg"]
  /\ promise_state
       (fst (serve demo_index
               (serve demo_index (overlapping_page, loaded demo_index)))) 1
     = Fulfilled [lit "emoji_u1f534.svg"]
  /\ promise_state
       (snd (matchEmojisInWorker (queryBatch demo_index) [[0; 0; 255]]
               (onerror demo_ready_page))) 0
     = Fulfilled [lit "emoji_u1f535.svg"].
Proof. repeat split. Qed.

(** ** Composition *)

Section ComposeFacts.

Variables (results : list ustr) (cols : nat) (tileSize offset : number).

Local Abbreviation loop_x' := (loop_x results tileSize offset).
Local Abbreviation loop_y' := (loop_y results cols tileSize offset).
Local Abbreviation draw := (tile_draw results tileSize offset).
Local Abbreviation row := (tile_row results cols tileSize offset).

(** The inner loop appends one row and advances the index by its
    length. *)
Lemma loop_x_row (y n x index : nat) (drawn : list TextDraw) :
  loop_x' y n x index drawn
  = ((index + n)%nat,
     drawn ++ map (fun k => draw y (x + k)%nat (index + k)%nat) (seq 0 n)).
Proof.
  revert x index drawn.
  induction n as [|n IH]; intros x index drawn.
  - simpl. now rewrite Nat.add_0_r, app_nil_r.
  - cbn [loop_x]. rewrite IH. f_equal; [lia|].
    rewrite <- app_assoc. f_equal.
    cbn [seq map app]. rewrite !Nat.add_0_r. f_equal.
    rewrite <- seq_shift, map_map. apply map_ext. intros k.
    f_equal; lia.
Qed.

Lemma row_length y index : length (row y index) = cols.
Proof. unfold tile_row. now rewrite length_map, length_seq. Qed.

Lemma row_nth y index x :
  (x < cols)%nat ->
  nth_error (row y index) x = Some (draw y x (index + x)%nat).
Proof.
  intros Hx. unfold tile_row.
  rewrite nth_error_map, nth_error_seq.
  destruct (Nat.ltb_spec x cols); [reflexivity|lia].
Qed.

Lemma loop_y_step (n y index : nat) (drawn : list TextDraw) :
  loop_y' (S n) y index drawn
  = loop_y' n (S y) (index + cols)%nat (drawn ++ row y index).
Proof. cbn [loop_y]. now rewrite loop_x_row. Qed.

Lemma loop_y_prefix (n y index : nat) (drawn : list TextDraw) :
  exists rest, loop_y' n y index drawn = drawn ++ rest
               /\ length rest = (n * cols)%nat.
Proof.
  revert y index drawn. induction n as [|n IH]; intros y index drawn.
  - exists []. now rewrite app_nil_r.
  - rewrite loop_y_step.
    destruct (IH (S y) (index + cols)%nat (drawn ++ row y index))
      as [rest [Hrest Hlen]].
    exists (row y index ++ rest). rewrite Hrest, <- app_assoc.
    split; [reflexivity|].
    rewrite length_app, row_length, Hlen. simpl. lia.
Qed.

(** The draw made for row [y + j], column [x]. *)
Lemma loop_y_nth (n y index : nat) (drawn : list TextDraw) (j x : nat) :
  (j < n)%nat -> (x < cols)%nat ->
  nth_error (loop_y' n y index drawn) (length drawn + (j * cols + x))
  = Some (draw (y + j)%nat x (index + (j * cols + x))%nat).
Proof.
  revert y index drawn j.
  induction n as [|n IH]; intros y index drawn j Hj Hx; [lia|].
  rewrite loop_y_step. destruct j as [|j].
  - destruct (loop_y_prefix n (S y) (index + cols)%nat
                (drawn ++ row y index)) as [rest [-> _]].
    rewrite <- app_assoc, nth_error_app2 by lia.
    replace (length drawn + (0 * cols + x) - length drawn)%nat with x
      by lia.
    rewrite nth_error_app1 by (rewrite row_length; exact Hx).
    rewrite row_nth by exact Hx. f_equal. f_equal; lia.
  - specialize (IH (S y) (index + cols)%nat (drawn ++ row y index) j
                  ltac:(lia) Hx).
    rewrite length_app, row_length in IH.
    replace (length drawn + (S j * cols + x))%nat
      with (length drawn + cols + (j * cols + x))%nat by (simpl; lia).
    rewrite IH. f_equal. f_equal; simpl; lia.
Qed.

End ComposeFacts.


Lemma texts_nth (results : list ustr) (cols rows : nat)
    (tileSize scale : number) (x y : nat) :
  (x < cols)%nat -> (y < rows)%nat ->
  nth_error (texts (renderFromResults results cols rows tileSize scale))
            (y * cols + x)
  = Some (tile_draw results tileSize (glyph_offset tileSize scale)
            y x (y * cols + x)).
Proof.
  intros Hx Hy. simpl.
  exact (loop_y_nth results cols tileSize (glyph_offset tileSize scale)
           rows 0 0 [] y x Hy Hx).
Qed.

(** *** Doubles

    Two facts of double arithmetic that the composer relies on: a finite
    number times one is that number, and a finite number minus itself is
    zero. *)



(** The literal [0.83] and the offset it gives for tiles of size 8:
    0.6800000000000002, not 17/25. *)
Example literal_0_83_bits :
  literal_0_83 = S754_finite false 7475975381435023 (-53).
Proof. reflexivity. Qed.

Example glyph_offset_at_0_83 :
  glyph_offset (num 8) literal_0_83
  = S754_finite false 6124895493223876 (-53).
Proof. reflexivity. Qed.


Lemma set_dimension_in_range (default : Z) (v : number) :
  0 <= IntegerPart v <= 2147483647 ->
  set_dimension default v = IntegerPart v.
Proof.
  intros H. unfold set_dimension, ToUint32.
  rewrite Z.mod_small by lia.
  destruct (Z.leb_spec (IntegerPart v) 2147483647); [reflexivity|lia].
Qed.



(** C9, as stated, fails: the width and the height of a canvas are 32-bit
    attributes.  One tile of size 1000000000 asks for a backing store of
    4000000000 pixels each way; the element falls back to its defaults,
    300 by 150. *)
Lemma backing_size_falls_back_beyond_the_attribute_range :
  let c := renderFromResults [] 1 1 (num 1000000000) (num 1) in
  (of_nat 1 * num 1000000000 * scaleOutput)%num = num 4000000000
  /\ IntegerPart (num 4000000000) = 4000000000
  /\ width c = 300
  /\ height c = 150
  /\ width c <> 1 * 1000000000 * 4
  /\ height c <> 1 * 1000000000 * 4.
Proof. repeat split; discriminate. Qed.

(** C9, amended.  The script assigns the doubles
    [cols * tileSize * scaleOutput] and [rows * tileSize * scaleOutput],
    with [scaleOutput] fixed at four, to the width and the height of the
    canvas.  Whenever the whole part of such a number lies between 0 and
    2147483647, it is the size of the backing store; in general the element
    keeps the whole part modulo [2 ^ 32] when that is at most 2147483647
    and falls back to 300 (width) or 150 (height) otherwise.  The CSS size
    is kept apart, in the style: [cols * tileSize] by [rows * tileSize]
    pixels.  Four columns and three rows of tile size 8 give 128 by 96 on
    the backing store and 32 by 24 in the style. *)
Theorem canvas_backing_and_display_size (results : list ustr)
    (cols rows : nat) (tileSize scale : number) :
  let c := renderFromResults results cols rows tileSize scale in
  let w := IntegerPart (of_nat cols * tileSize * scaleOutput)%num in
  let h := IntegerPart (of_nat rows * tileSize * scaleOutput)%num in
  (0 <= w <= 2147483647 -> width c = w)
  /\ (0 <= h <= 2147483647 -> height c = h)
  /\ width c = (if w mod 2 ^ 32 <=? 2147483647 then w mod 2 ^ 32 else 300)
  /\ height c = (if h mod 2 ^ 32 <=? 2147483647 then h mod 2 ^ 32 else 150)
  /\ style_width c = Px (of_nat cols * tileSize)%num
  /\ style_height c = Px (of_nat rows * tileSize)%num
  /\ scaleOutput = num 4
  /\ width (renderFromResults results 4 3 (num 8) scale) = 128
  /\ height (renderFromResults results 4 3 (num 8) scale) = 96
  /\ style_width (renderFromResults results 4 3 (num 8) scale) = Px (num 32)
  /\ style_height (renderFromResults results 4 3 (num 8) scale)
     = Px (num 24).
Proof.
  intros c w h.
  split; [exact (set_dimension_in_range 300 _)|].
  split; [exact (set_dimension_in_range 150 _)|].
  repeat split.
Qed.

Lemma canvas_backing_and_display_size_witness :
  width (renderFromResults [] 4 3 (num 8) literal_0_83) = 128.
Proof.
  refine (proj1 (canvas_backing_and_display_size [] 4 3 (num 8)
                   literal_0_83) _).
  vm_compute. split; discriminate.
Defined.

(** ** Decoding, then composing *)

Lemma mapC_nth {A B : Type} (f : A -> Completion B) (l : list A)
    (rs : list B) (i : nat) :
  mapC f l = Normal rs ->
  match nth_error l i with
  | Some a => exists b, f a = Normal b /\ nth_error rs i = Some b
  | None => nth_error rs i = None
  end.
Proof.
  revert rs i. induction l as [|a t IH]; intros rs i H; simpl in H.
  - injection H as <-. now destruct i.
  - destruct (f a) as [b|e] eqn:Fa; [|discriminate H]. simpl in H.
    destruct (mapC f t) as [r|e] eqn:Ft; [|discriminate H]. simpl in H.
    injection H as <-. destruct i as [|i]; simpl.
    + exists b. now split.
    + now apply IH.
Qed.

Lemma mapC_throws {A B : Type} (f : A -> Completion B) (l : list A) (a : A)
    (e : JsError) :
  In a l -> f a = Throw e -> exists e', mapC f l = Throw e'.
Proof.
  intros Hin Fa. induction l as [|b t IH]; [destruct Hin|].
  simpl. destruct Hin as [->|Hin].
  - rewrite Fa. simpl. eauto.
  - destruct (f b); simpl; [|eauto].
    destruct (IH Hin) as [e' ->]. simpl. eauto.
Qed.

Lemma fromCodePoint_nonempty (args : list (option Z)) (u : ustr) :
  args <> [] -> fromCodePoint args = Normal u -> u <> [].
Proof.
  destruct args as [|[cp|] rest]; [congruence| |discriminate].
  intros _. simpl.
  destruct ((cp <? 0) || (1114111 <? cp)); [discriminate|].
  destruct (fromCodePoint rest) as [r|e]; [|discriminate]. simpl.
  intros H. injection H as <-. unfold UTF16EncodeCodePoint.
  destruct (cp <=? 65535); discriminate.
Qed.

(** A decoded glyph is never the empty string. *)
Lemma filenameToEmoji_nonempty (name : jsstr) (u : ustr) :
  filenameToEmoji name = Normal u -> u <> [].
Proof.
  unfold filenameToEmoji.
  destruct (pop (split "/" (toLowerCase name))) as [seg|]; [|discriminate].
  apply fromCodePoint_nonempty.
  pose proof (split_nonempty "_"
    (replace_suffix (lit ".svg") (replace_prefix (lit "emoji_u") seg))) as H.
  destruct (split "_" _); [contradiction|discriminate].
Qed.

(** C7.  An identifier that does not decode takes the whole run down:
    the decoding step throws before the composer is called, the handler
    ends in its alert, and no tile is drawn, neither a placeholder for that
    entry nor the glyph of the other, whether or not the font would have
    loaded.  The composer's own fallback to the placeholder never sees
    such an entry. *)
Theorem undecodable_identifier_aborts_the_run (fontsLoad : Completion unit) :
  let ids := [lit "emoji_u1f600.svg"; lit "emoji_uzz.svg"] in
  filenameToEmoji (lit "emoji_u1f600.svg") = Normal [55357; 56832]
  /\ filenameToEmoji (lit "emoji_uzz.svg") = Throw RangeError
  /\ decode_and_render fontsLoad ids 2 1
     = Alerted "Could not process image. Please try again."
  /\ drawn_glyph (decode_and_render fontsLoad ids 2 1) 1 <> Some placeholder
  /\ drawn_glyph (decode_and_render fontsLoad ids 2 1) 0
     <> Some [55357; 56832].
Proof. repeat split; discriminate. Qed.

(** What the composer does for the entries it is given: at tile
    [i = y * cols + x] it draws entry [i] of the decoded results, or the
    placeholder when [i] is out of range or the entry is the empty string;
    what it draws there depends on no other entry.  When every identifier
    decodes and the font loads, tile [i] shows the decoding of identifier
    [i], and the placeholder where there is no identifier [i]; when some
    identifier does not decode, nothing is drawn. *)
Lemma composer_falls_back_on_missing_entries (cols rows : nat) (x y : nat) :
  (x < cols)%nat -> (y < rows)%nat ->
  let i := (y * cols + x)%nat in
  (forall (results : list ustr) tileSize scale,
      option_map td_text
        (nth_error (texts (renderFromResults results cols rows tileSize scale))
                   i)
      = Some (glyph_at results i))
  /\ (forall results : list ustr, (length results <= i)%nat ->
                      glyph_at results i = placeholder)
  /\ (forall results : list ustr, nth_error results i = Some [] ->
                      glyph_at results i = placeholder)
  /\ (forall (results : list ustr) (g : ustr),
         nth_error results i = Some g -> g <> [] ->
                        glyph_at results i = g)
  /\ (forall results results' : list ustr,
         nth_error results i = nth_error results' i ->
         glyph_at results i = glyph_at results' i)
  /\ (forall (ids : MatchResult) (results : list ustr),
         mapC filenameToEmoji ids = Normal results ->
         drawn_glyph (decode_and_render (Normal tt) ids cols rows) i
         = Some (match nth_error ids i with
                 | Some id => match filenameToEmoji id with
                              | Normal g => g
                              | Throw _ => placeholder
                              end
                 | None => placeholder
                 end))
  /\ (forall fontsLoad ids id e,
         In id ids -> filenameToEmoji id = Throw e ->
         decode_and_render fontsLoad ids cols rows
         = Alerted "Could not process image. Please try again."
         /\ drawn_glyph (decode_and_render fontsLoad ids cols rows) i = None).
Proof.
  intros Hx Hy i. subst i.
  split.
  { intros results ts scale.
    now rewrite (texts_nth results cols rows ts scale x y Hx Hy). }
  split.
  { intros results Hlen. unfold glyph_at.
    apply nth_error_None in Hlen. now rewrite Hlen. }
  split.
  { intros results H. unfold glyph_at. now rewrite H. }
  split.
  { intros results g H Hg. unfold glyph_at. rewrite H.
    destruct g; [congruence|reflexivity]. }
  split.
  { intros results results' H. unfold glyph_at. now rewrite H. }
  split.
  { intros ids results Hdec. unfold decode_and_render. rewrite Hdec.
    cbn [bindC renderFromResults_awaited]. unfold drawn_glyph.
    rewrite (texts_nth results cols rows tileSize literal_0_83 x y Hx Hy).
    cbn [option_map tile_draw td_text]. f_equal.
    pose proof (mapC_nth filenameToEmoji ids results (y * cols + x) Hdec)
      as Hi.
    unfold glyph_at.
    destruct (nth_error ids (y * cols + x)) as [id|].
    - destruct Hi as [g [Hg ->]]. rewrite Hg.
      pose proof (filenameToEmoji_nonempty id g Hg).
      destruct g; [congruence|reflexivity].
    - now rewrite Hi. }
  intros fontsLoad ids id e Hin He. unfold decode_and_render.
  destruct (mapC_throws filenameToEmoji ids id e Hin He) as [e' ->].
  now split.
Qed.

Lemma composer_falls_back_on_missing_entries_witness :
  drawn_glyph
    (decode_and_render (Normal tt)
       [lit "emoji_u1f600.svg"; lit "emoji_u2b50.svg"] 2 2) 1
  = Some [11088]
  /\ drawn_glyph
       (decode_and_render (Normal tt)
          [lit "emoji_u1f600.svg"; lit "emoji_u2b50.svg"] 2 2)
       3
     = Some placeholder.
Proof.
  split.
  - exact (proj1 (proj2 (proj2 (proj2 (proj2 (proj2
             (composer_falls_back_on_missing_entries 2 2 1 0
                ltac:(lia) ltac:(lia)))))))
             [lit "emoji_u1f600.svg"; lit "emoji_u2b50.svg"]
             [[55357; 56832]; [11088]] eq_refl).
  - exact (proj1 (proj2 (proj2 (proj2 (proj2 (proj2
             (composer_falls_back_on_missing_entries 2 2 1 1
                ltac:(lia) ltac:(lia)))))))
             [lit "emoji_u1f600.svg"; lit "emoji_u2b50.svg"]
             [[55357; 56832]; [11088]] eq_refl).
Defined.

(** * Further properties of the code *)

(** ** The dispatcher's bookkeeping *)

Lemma filter_twice {A : Type} (f g : A -> bool) (l : list A) :
  filter f (filter g l) = filter (fun a => g a && f a) l.
Proof.
  induction l as [|a t IH]; [reflexivity|].
  simpl. destruct (g a); simpl; [destruct (f a)|]; now rewrite IH.
Qed.

Lemma filter_none {A : Type} (f : A -> bool) (l : list A) :
  (forall a, In a l -> f a = false) -> filter f l = [].
Proof.
  induction l as [|a t IH]; intros H; [reflexivity|].
  simpl. rewrite (H a (or_introl eq_refl)). apply IH.
  intros b Hb. apply H. now right.
Qed.

Lemma NoDup_map_same {A B : Type} (f : A -> B) (l : list A) (a b : A) :
  NoDup (map f l) -> In a l -> In b l -> f a = f b -> a = b.
Proof.
  induction l as [|x t IH]; intros Hnd Ha Hb E; [destruct Ha|].
  simpl in Hnd. inversion Hnd as [|? ? Hx Ht]; subst.
  destruct Ha as [->|Ha], Hb as [->|Hb].
  - reflexivity.
  - exfalso. apply Hx. rewrite E. now apply in_map.
  - exfalso. apply Hx. rewrite <- E. now apply in_map.
  - now apply IH.
Qed.

Lemma NoDup_snoc {A : Type} (l : list A) (x : A) :
  NoDup l -> ~ In x l -> NoDup (l ++ [x]).
Proof.
  induction l as [|a t IH]; intros Hnd Hx; simpl.
  - constructor; [tauto|constructor].
  - inversion Hnd as [|? ? Ha Ht]; subst. constructor.
    + intros Hin. apply in_app_or in Hin. destruct Hin as [Hin|[->|[]]].
      * now apply Ha.
      * apply Hx. now left.
    + apply IH; [exact Ht|]. intros Hin. apply Hx. now right.
Qed.

Section Bookkeeping.

Variable runMatching : ColorBatch -> Completion MatchResult.

Lemma reply_settled_by m colors :
  is_reply (Message m) = true ->
  exists ps, settled_by runMatching m colors = Some ps.
Proof. destruct m; simpl; intros H; try discriminate H; eauto. Qed.

Lemma reply_onmessage m st :
  is_reply (Message m) = true -> onmessage m st = st.
Proof. destruct m; simpl; intros H; try discriminate H; reflexivity. Qed.

Lemma handleMessage_unregisters l m st :
  is_reply (Message m) = true ->
  registered (handleMessage runMatching l m st)
  = filter (fun l' => negb (Nat.eqb (l_promise l') (l_promise l)))
           (registered st).
Proof.
  intros R. rewrite handleMessage_settled_by.
  destruct (reply_settled_by m (l_colors l) R) as [ps ->].
  unfold registered. simpl. destruct (mosaicWorker st); reflexivity.
Qed.

Lemma deliver_unregisters m ls st :
  is_reply (Message m) = true ->
  registered (deliver runMatching m ls st)
  = filter (fun l' =>
              forallb (fun l => negb (Nat.eqb (l_promise l') (l_promise l)))
                      ls)
           (registered st).
Proof.
  intros R. revert st. induction ls as [|l t IH]; intros st.
  - simpl. symmetry. clear. induction (registered st) as [|a r IHr];
      [reflexivity|]. simpl. f_equal. exact IHr.
  - rewrite deliver_cons, IH, handleMessage_unregisters by exact R.
    rewrite filter_twice. reflexivity.
Qed.

(** A reply leaves no closure registered. *)
Lemma reply_unregisters_all m st :
  is_reply (Message m) = true ->
  registered (step runMatching st (Message m)) = [].
Proof.
  intros R. simpl. rewrite dispatchMessage_deliver.
  destruct (mosaicWorker st) eqn:W.
  - rewrite deliver_unregisters by exact R.
    rewrite registered_onmessage. apply filter_none.
    intros a Ha. apply not_true_is_false. intros H.
    rewrite forallb_forall in H. specialize (H a Ha).
    now rewrite Nat.eqb_refl in H.
  - unfold registered. now rewrite W.
Qed.

(** A reply settles the promise of every registered closure, by that
    closure's own batch. *)
Lemma reply_settles_registered m st l ps :
  coherent st -> In l (registered st) ->
  settled_by runMatching m (l_colors l) = Some ps ->
  promise_state (step runMatching st (Message m)) (l_promise l) = ps.
Proof.
  intros [Hnd [Hreg _]] Hin Hs.
  destruct (Hreg l Hin) as [Hlt Hp].
  simpl. rewrite dispatchMessage_deliver.
  destruct (mosaicWorker st) eqn:W.
  - apply deliver_own with (colors := l_colors l).
    + now rewrite promises_onmessage.
    + unfold promise_state in *. now rewrite promises_onmessage.
    + exists l. split; [exact Hin|reflexivity].
    + intros l' Hin' E. f_equal.
      now apply (NoDup_map_same l_promise (registered st)).
    + exact Hs.
  - unfold registered in Hin. rewrite W in Hin. destruct Hin.
Qed.

Lemma coherent_initial : coherent initial.
Proof.
  unfold coherent, registered, promise_state. simpl.
  split; [constructor|]. split; [tauto|]. intros p Hp. lia.
Qed.

Lemma coherent_same st st' :
  registered st' = registered st -> promises st' = promises st ->
  coherent st -> coherent st'.
Proof. unfold coherent, promise_state. intros -> ->. auto. Qed.

Lemma coherent_call colors st :
  coherent st ->
  coherent (snd (matchEmojisInWorker runMatching colors st)).
Proof.
  intros [Hnd [Hreg Hpend]].
  set (n := length (promises st)).
  destruct (isReady st) eqn:R.
  - rewrite (matchBatch_ready runMatching colors st R). cbn [snd].
    assert (W : exists w, mosaicWorker st = Some w).
    { unfold isReady in R. destruct (mosaicWorker st); [eauto|].
      now rewrite orb_true_r in R. }
    destruct W as [w W].
    unfold coherent, registered, promise_state in *. simpl.
    rewrite W in *. simpl. rewrite length_app. simpl. fold n.
    split; [|split].
    + rewrite map_app. simpl. apply NoDup_snoc; [exact Hnd|].
      intros Hin. apply in_map_iff in Hin.
      destruct Hin as [l [El Hl]]. destruct (Hreg l Hl) as [Hlt _].
      fold n in Hlt. lia.
    + intros l Hin. apply in_app_or in Hin. destruct Hin as [Hin|[<-|[]]].
      * destruct (Hreg l Hin) as [Hlt Hp]. fold n in Hlt.
        split; [lia|]. now rewrite app_nth1.
      * simpl. split; [lia|]. rewrite app_nth2 by (fold n; lia).
        fold n. now rewrite Nat.sub_diag.
    + intros p Hp Hpe. destruct (Nat.eq_dec p n) as [->|Hne].
      * eexists. split; [apply in_or_app; right; now left|reflexivity].
      * assert (Hlt : (p < n)%nat) by lia.
        rewrite app_nth1 in Hpe by exact Hlt.
        destruct (Hpend p Hlt Hpe) as [l [Hin El]].
        exists l. split; [apply in_or_app; now left|exact El].
  - rewrite (matchBatch_not_ready runMatching colors st R). cbn [snd].
    unfold coherent, registered, promise_state in *.
    rewrite (proj1 (fallback_worker runMatching colors n _)).
    rewrite fallback_promises. simpl.
    rewrite settle_at_length, length_app. simpl. fold n.
    split; [exact Hnd|split].
    + intros l Hin. destruct (Hreg l Hin) as [Hlt Hp]. fold n in Hlt.
      split; [lia|].
      rewrite nth_settle_at_other by lia. now rewrite app_nth1.
    + intros p Hp Hpe. destruct (Nat.eq_dec p n) as [->|Hne].
      * exfalso. rewrite nth_settle_at_pending in Hpe.
        -- now apply outcome_not_pending in Hpe.
        -- rewrite length_app. simpl. fold n. lia.
        -- rewrite app_nth2 by (fold n; lia). fold n.
           now rewrite Nat.sub_diag.
      * assert (Hlt : (p < n)%nat) by lia.
        rewrite nth_settle_at_other in Hpe by exact Hne.
        rewrite app_nth1 in Hpe by exact Hlt.
        now apply Hpend.
Qed.

Lemma coherent_step st e :
  coherent st -> coherent (step runMatching st e).
Proof.
  intros Hc. destruct e as [|colors|m|]; simpl.
  - eapply coherent_same; [| |exact Hc].
    + apply registered_initWorker.
    + apply promises_initWorker.
  - now apply coherent_call.
  - destruct (is_reply (Message m)) eqn:R.
    + pose proof (reply_unregisters_all m st R) as Hnone.
      simpl in Hnone.
      unfold coherent. rewrite Hnone. simpl.
      split; [constructor|]. split; [tauto|].
      intros p Hp Hpe. exfalso.
      assert (Hlen : length (promises (dispatchMessage runMatching m st))
                     = length (promises st)).
      { rewrite dispatchMessage_deliver. destruct (mosaicWorker st);
          [|reflexivity].
        now rewrite deliver_length, promises_onmessage. }
      rewrite Hlen in Hp.
      destruct (promise_state st p) eqn:Before.
      * destruct Hc as [Hnd [Hreg Hpend]].
        destruct (Hpend p Hp Before) as [l [Hin El]].
        destruct (reply_settled_by m (l_colors l) R) as [ps Hs].
        pose proof (reply_settles_registered m st l ps
                      (conj Hnd (conj Hreg Hpend)) Hin Hs) as Hafter.
        simpl in Hafter. rewrite El in Hafter. rewrite Hafter in Hpe.
        subst ps. eapply settled_by_not_pending; eauto.
      * pose proof (step_stable runMatching st (Message m) p) as Hst.
        simpl in Hst. rewrite Hst in Hpe by (rewrite Before; discriminate).
        congruence.
      * pose proof (step_stable runMatching st (Message m) p) as Hst.
        simpl in Hst. rewrite Hst in Hpe by (rewrite Before; discriminate).
        congruence.
    + eapply coherent_same; [| |exact Hc];
        rewrite dispatchMessage_deliver; destruct (mosaicWorker st);
        try reflexivity;
        rewrite deliver_quiet
          by (intros c; destruct m; try reflexivity; discriminate R).
      * apply registered_onmessage.
      * apply promises_onmessage.
  - eapply coherent_same; [| |exact Hc].
    + apply registered_dispatchError.
    + apply promises_dispatchError.
Qed.

Lemma coherent_run evs st :
  coherent st -> coherent (run runMatching evs st).
Proof.
  revert st. induction evs as [|e t IH]; intros st Hc; [exact Hc|].
  simpl. apply IH. now apply coherent_step.
Qed.

End Bookkeeping.

(** X1.  Whatever has happened since the page was loaded, a promise handed
    out by [matchEmojisInWorker] is pending exactly when a [handleMessage]
    closure for it is still registered on the worker, and no closure is
    registered twice: closures do not outlive their promise, and no pending
    promise is without its closure. *)
Theorem pending_iff_listener_registered
    (runMatching : ColorBatch -> Completion MatchResult)
    (evs : list Event) :
  NoDup (map l_promise (registered (run runMatching evs initial)))
  /\ forall p,
       (p < length (promises (run runMatching evs initial)))%nat ->
       (promise_state (run runMatching evs initial) p = Pending
        <-> exists l, In l (registered (run runMatching evs initial))
                      /\ l_promise l = p).
Proof.
  destruct (coherent_run runMatching evs initial coherent_initial)
    as [Hnd [Hreg Hpend]].
  split; [exact Hnd|]. intros p Hp. split.
  - now apply Hpend.
  - intros [l [Hin <-]]. now apply Hreg.
Qed.

Lemma pending_iff_listener_registered_witness :
  promise_state
    (run (queryBatch demo_index)
       [CallInitWorker; Message WASM_READY; CallMatch [[1; 2; 3]]] initial) 0
  = Pending.
Proof.
  apply (proj2 (pending_iff_listener_registered (queryBatch demo_index)
                  [CallInitWorker; Message WASM_READY; CallMatch [[1; 2; 3]]])
               0%nat).
  - simpl. lia.
  - exists {| l_colors := [[1; 2; 3]]; l_promise := 0 |}.
    split; [now left|reflexivity].
Defined.

(** X2.  A [MATCH_COMPLETE] message carries no request identity: whatever
    has happened before, it fulfils every promise that is pending when it
    arrives with its own results, leaves settled promises alone, and
    leaves no closure registered. *)
Theorem match_complete_fulfils_every_pending_promise
    (runMatching : ColorBatch -> Completion MatchResult)
    (evs : list Event) (results : MatchResult) (p : nat) :
  (p < length (promises (run runMatching evs initial)))%nat ->
  let st := run runMatching evs initial in
  let st' := step runMatching st (Message (MATCH_COMPLETE results)) in
  (promise_state st p = Pending -> promise_state st' p = Fulfilled results)
  /\ (promise_state st p <> Pending -> promise_state st' p = promise_state st p)
  /\ registered st' = [].
Proof.
  intros Hp st st'.
  pose proof (coherent_run runMatching evs initial coherent_initial) as Hc.
  fold st in Hc, Hp. split; [|split].
  - intros Hpe. destruct Hc as [Hnd [Hreg Hpend]].
    destruct (Hpend p Hp Hpe) as [l [Hin <-]].
    exact (reply_settles_registered runMatching (MATCH_COMPLETE results) st l
             _ (conj Hnd (conj Hreg Hpend)) Hin eq_refl).
  - intros Hs. now apply step_stable.
  - now apply reply_unregisters_all.
Qed.

Lemma match_complete_fulfils_every_pending_promise_witness :
  promise_state
    (run (queryBatch demo_index)
       [CallInitWorker; Message WASM_READY; CallMatch [[255; 0; 0]];
        CallMatch [[0; 0; 255]];
        Message (MATCH_COMPLETE [lit "emoji_u1f534.svg"])] initial) 1
  = Fulfilled [lit "emoji_u1f534.svg"].
Proof.
  refine (proj1 (match_complete_fulfils_every_pending_promise
                   (queryBatch demo_index)
                   [CallInitWorker; Message WASM_READY;
                    CallMatch [[255; 0; 0]]; CallMatch [[0; 0; 255]]]
                   [lit "emoji_u1f534.svg"] 1%nat _) eq_refl).
  simpl. lia.
Defined.

(** X3.  An [ERROR] message sends every waiting call to the local matcher,
    each with the batch of its own call: the promise of every registered
    closure ends with the local outcome on that closure's batch, and no
    closure stays registered. *)
Theorem error_message_falls_back_for_every_waiting_call
    (runMatching : ColorBatch -> Completion MatchResult)
    (evs : list Event) (err : string) (l : Listener) :
  In l (registered (run runMatching evs initial)) ->
  let st := run runMatching evs initial in
  let st' := step runMatching st (Message (ERROR err)) in
  promise_state st' (l_promise l) = outcome (runMatching (l_colors l))
  /\ registered st' = [].
Proof.
  intros Hin st st'.
  pose proof (coherent_run runMatching evs initial coherent_initial) as Hc.
  split.
  - exact (reply_settles_registered runMatching (ERROR err) st l _ Hc Hin
             eq_refl).
  - now apply reply_unregisters_all.
Qed.

Lemma error_message_falls_back_for_every_waiting_call_witness :
  promise_state
    (run (queryBatch demo_index)
       [CallInitWorker; Message WASM_READY; CallMatch [[255; 0; 0]];
        CallMatch [[0; 0; 255]]; Message (ERROR "failed")] initial) 1
  = Fulfilled [lit "emoji_u1f535.svg"].
Proof.
  refine (proj1 (error_message_falls_back_for_every_waiting_call
                   (queryBatch demo_index)
                   [CallInitWorker; Message WASM_READY;
                    CallMatch [[255; 0; 0]]; CallMatch [[0; 0; 255]]]
                   "failed"
                   {| l_colors := [[0; 0; 255]]; l_promise := 1 |} _)).
  simpl. right. now left.
Defined.

(** X4.  A call made while the channel is ready has no timeout: as long as
    neither a [MATCH_COMPLETE] nor an [ERROR] message arrives, its promise
    stays pending and its closure stays registered, whatever else happens,
    error events on the worker included. *)
Theorem call_stays_pending_without_reply
    (runMatching : ColorBatch -> Completion MatchResult)
    (st : Page) (colors : ColorBatch) (evs : list Event) :
  wf st -> isReady st = true ->
  forallb (fun e => negb (is_reply e)) evs = true ->
  let p := fst (matchEmojisInWorker runMatching colors st) in
  let st1 := snd (matchEmojisInWorker runMatching colors st) in
  promise_state (run runMatching evs st1) p = Pending
  /\ In {| l_colors := colors; l_promise := p |}
        (registered (run runMatching evs st1)).
Proof.
  intros Hwf R Q p st1.
  pose proof (matchBatch_awaiting runMatching colors st Hwf R) as Ha.
  fold p st1 in Ha.
  destruct (run_quiet runMatching colors p evs st1 Ha Q)
    as [[_ Hcol] [Hp [l [Hin Hl]]]].
  split; [exact Hp|].
  destruct l as [c q]. simpl in Hl. subst q.
  now rewrite <- (Hcol _ Hin eq_refl).
Qed.

Lemma call_stays_pending_without_reply_witness :
  promise_state
    (run (queryBatch demo_index)
       [WorkerError; Message WASM_READY; WorkerError; CallMatch [[9; 9; 9]]]
       (snd (matchEmojisInWorker (queryBatch demo_index) [[1; 2; 3]]
               demo_ready_page))) 0
  = Pending.
Proof.
  refine (proj1 (call_stays_pending_without_reply (queryBatch demo_index)
                   demo_ready_page [[1; 2; 3]]
                   [WorkerError; Message WASM_READY; WorkerError;
                    CallMatch [[9; 9; 9]]] _ _ _)).
  - apply Forall_nil.
  - reflexivity.
  - reflexivity.
Defined.

(** ** What the page posts, and when it is ready *)

Section Channel.

Variable runMatching : ColorBatch -> Completion MatchResult.

Lemma sent_step st e :
  sent (step runMatching st e) = sent st
  \/ (exists colors, mosaicWorker st <> None
                     /\ sent (step runMatching st e)
                        = sent st ++ [MATCH_EMOJIS colors])
  \/ (mosaicWorker st = None
      /\ sent (step runMatching st e) = [init_request]).
Proof.
  destruct e as [|colors|m|]; simpl.
  - unfold initWorker, sent. destruct (mosaicWorker st) eqn:W.
    + left. now rewrite W.
    + right. right. split; reflexivity.
  - destruct (isReady st) eqn:R.
    + right. left. exists colors.
      rewrite (matchBatch_ready runMatching colors st R). cbn [snd].
      unfold isReady in R. unfold sent. simpl.
      destruct (mosaicWorker st); [|now rewrite orb_true_r in R].
      split; [discriminate|reflexivity].
    + left. unfold sent.
      now rewrite (proj1 (local_path_worker runMatching st colors R)).
  - left. rewrite dispatchMessage_deliver.
    destruct (mosaicWorker st) eqn:W; [|reflexivity].
    rewrite deliver_sent. unfold sent. destruct m; simpl; now rewrite ?W.
  - left. unfold dispatchError, sent.
    destruct (mosaicWorker st) eqn:W; simpl; now rewrite W.
Qed.

Lemma step_keeps_no_worker st e :
  mosaicWorker st = None -> e <> CallInitWorker ->
  mosaicWorker (step runMatching st e) = None.
Proof.
  intros W Hn. destruct e as [|colors|m|]; simpl.
  - congruence.
  - assert (R : isReady st = false)
      by (unfold isReady; rewrite W; now rewrite orb_true_r).
    now rewrite (proj1 (local_path_worker runMatching st colors R)).
  - unfold dispatchMessage. now rewrite W.
  - unfold dispatchError. now rewrite W.
Qed.

Lemma init_first_step st e :
  init_first st -> init_first (step runMatching st e).
Proof.
  intros H.
  destruct (mosaicWorker st) as [w|] eqn:W.
  - pose proof (sent_step st e) as Hs.
    pose proof (step_worker_stays runMatching st e) as Hw.
    unfold init_first, sent in *. rewrite W in *.
    specialize (Hw eq_refl).
    destruct (mosaicWorker (step runMatching st e)) as [w'|];
      [|discriminate Hw].
    destruct H as [rest [Ho Hm]].
    destruct Hs as [Hs|[[colors [_ Hs]]|[Hn _]]]; [| |discriminate Hn].
    + exists rest. now rewrite Hs.
    + exists (rest ++ [MATCH_EMOJIS colors]). rewrite Hs, Ho.
      split; [reflexivity|]. rewrite forallb_app, Hm. reflexivity.
  - destruct e as [|colors|m|];
      try (unfold init_first;
           rewrite (step_keeps_no_worker st _ W) by discriminate;
           exact I).
    unfold init_first. simpl. unfold initWorker. rewrite W. simpl.
    exists []. split; reflexivity.
Qed.

Lemma init_first_run evs st :
  init_first st -> init_first (run runMatching evs st).
Proof.
  revert st. induction evs as [|e t IH]; intros st H; [exact H|].
  simpl. apply IH. now apply init_first_step.
Qed.

Lemma run_no_worker evs st :
  mosaicWorker st = None -> ~ In CallInitWorker evs ->
  mosaicWorker (run runMatching evs st) = None.
Proof.
  revert st. induction evs as [|e t IH]; intros st W Hn; [exact W|].
  simpl. apply IH.
  - apply step_keeps_no_worker; [exact W|]. intros ->. apply Hn. now left.
  - intros H. apply Hn. now right.
Qed.

Lemma run_worker_needs_init evs st :
  is_null (mosaicWorker (run runMatching evs st)) = false ->
  is_null (mosaicWorker st) = false \/ In CallInitWorker evs.
Proof.
  revert st. induction evs as [|e t IH]; intros st H; [now left|].
  simpl in H. destruct (IH _ H) as [Hw|Hin]; [|right; now right].
  destruct (mosaicWorker st) eqn:W; [now left|]. right.
  destruct e as [|colors|m|]; [now left| | |];
    rewrite (step_keeps_no_worker st _ W) in Hw by discriminate;
    discriminate Hw.
Qed.

Lemma run_creates_worker evs st :
  In CallInitWorker evs ->
  is_null (mosaicWorker (run runMatching evs st)) = false.
Proof.
  revert st. induction evs as [|e t IH]; intros st Hin; [destruct Hin|].
  simpl. destruct Hin as [->|Hin]; [|now apply IH].
  apply run_worker_stays. simpl. unfold initWorker.
  destruct (mosaicWorker st) eqn:W; simpl; now rewrite ?W.
Qed.

Lemma run_ready_needs_acknowledgement evs st :
  workerReady (run runMatching evs st) = true ->
  workerReady st = true \/ In (Message WASM_READY) evs.
Proof.
  revert st. induction evs as [|e t IH]; intros st H; [now left|].
  simpl in H. destruct (IH _ H) as [Hr|Hin]; [|right; now right].
  destruct (workerReady st) eqn:F; [now left|]. right.
  destruct (is_ready_message e) eqn:Q.
  - left. destruct e as [|c|m|]; try discriminate Q.
    destruct m; try discriminate Q. reflexivity.
  - rewrite (step_flag_stays_down runMatching st e F Q) in Hr.
    discriminate Hr.
Qed.

End Channel.

Lemma sent_run_grows
    (runMatching : ColorBatch -> Completion MatchResult)
    (evs : list Event) (st : Page) :
  is_null (mosaicWorker st) = false ->
  exists later, sent (run runMatching evs st) = sent st ++ later
                /\ forallb is_match_request later = true.
Proof.
  revert st. induction evs as [|e t IH]; intros st W.
  - exists []. now rewrite app_nil_r.
  - change (run runMatching (e :: t) st)
      with (run runMatching t (step runMatching st e)).
    destruct (IH (step runMatching st e)
                (step_worker_stays runMatching st e W)) as [later [Hl Hm]].
    destruct (sent_step runMatching st e) as [Hs|[[colors [_ Hs]]|[Hn _]]].
    + exists later. now rewrite Hl, Hs.
    + exists (MATCH_EMOJIS colors :: later).
      rewrite Hl, Hs, <- app_assoc. now split.
    + rewrite Hn in W. discriminate W.
Qed.

(** X5.  [initWorker] creates the worker once.  After its first call a
    further call changes nothing at all: the worker object, with the
    closures registered on it and the requests posted to it, stays the one
    it was.  The requests posted to that worker start with the one
    initialisation request, with the two fixed paths, and go on with match
    requests only; whatever happens later, further calls of [initWorker]
    included, only adds match requests at the end.  Before the first call
    there is no worker and nothing is posted. *)
Theorem worker_initialised_once
    (runMatching : ColorBatch -> Completion MatchResult)
    (evs more : list Event) :
  (In CallInitWorker evs ->
     let st := run runMatching evs initial in
     initWorker st = st
     /\ (exists rest,
           sent st
           = INIT_WASM "build/full_mosaic.wasm" "kd_tree.json" :: rest
           /\ forallb is_match_request rest = true)
     /\ (exists later,
           sent (run runMatching more st) = sent st ++ later
           /\ forallb is_match_request later = true)
     /\ is_null (mosaicWorker (run runMatching more st)) = false)
  /\ (~ In CallInitWorker evs ->
        mosaicWorker (run runMatching evs initial) = None
        /\ sent (run runMatching evs initial) = []).
Proof.
  split.
  - intros Hin st.
    pose proof (init_first_run runMatching evs initial I) as H.
    pose proof (run_creates_worker runMatching evs initial Hin) as W.
    fold st in H, W.
    split; [|split; [|split]].
    + unfold initWorker. destruct (mosaicWorker st); [reflexivity|].
      discriminate W.
    + unfold init_first in H. unfold sent.
      destruct (mosaicWorker st); [exact H|discriminate W].
    + exact (sent_run_grows runMatching more st W).
    + exact (run_worker_stays runMatching more st W).
  - intros Hn.
    pose proof (run_no_worker runMatching evs initial eq_refl Hn) as W.
    unfold sent. now rewrite W.
Qed.

Lemma worker_initialised_once_witness :
  initWorker
    (run (queryBatch demo_index)
       [CallInitWorker; Message WASM_READY; CallMatch [[1; 2; 3]]] initial)
  = run (queryBatch demo_index)
      [CallInitWorker; Message WASM_READY; CallMatch [[1; 2; 3]]] initial
  /\ sent (run (queryBatch demo_index)
             [CallInitWorker; Message WASM_READY; CallMatch [[1; 2; 3]];
              CallInitWorker] initial)
     = [INIT_WASM "build/full_mosaic.wasm" "kd_tree.json";
        MATCH_EMOJIS [[1; 2; 3]]].
Proof.
  split.
  - apply (proj1 (worker_initialised_once (queryBatch demo_index)
                    [CallInitWorker; Message WASM_READY;
                     CallMatch [[1; 2; 3]]] [])).
    now left.
  - reflexivity.
Defined.

(** X6.  The page takes the channel for ready only after [initWorker] has
    created the worker and a [WASM_READY] message has arrived; in
    particular every match request it posts comes after both. *)
Theorem ready_only_after_acknowledgement
    (runMatching : ColorBatch -> Completion MatchResult)
    (evs : list Event) :
  isReady (run runMatching evs initial) = true ->
  In CallInitWorker evs /\ In (Message WASM_READY) evs.
Proof.
  intros R. unfold isReady in R. apply negb_true_iff in R.
  apply orb_false_iff in R. destruct R as [F W].
  apply negb_false_iff in F. split.
  - destruct (run_worker_needs_init runMatching evs initial W)
      as [H|H]; [discriminate H|exact H].
  - destruct (run_ready_needs_acknowledgement runMatching evs initial F)
      as [H|H]; [discriminate H|exact H].
Qed.

Lemma ready_only_after_acknowledgement_witness :
  In CallInitWorker [CallInitWorker; CallMatch []; Message WASM_READY]
  /\ In (Message WASM_READY)
        [CallInitWorker; CallMatch []; Message WASM_READY].
Proof.
  exact (ready_only_after_acknowledgement (queryBatch demo_index)
           [CallInitWorker; CallMatch []; Message WASM_READY] eq_refl).
Defined.

(** ** The page and the background context together *)

Lemma dispatchMessage_sent
    (runMatching : ColorBatch -> Completion MatchResult)
    (m : FromWorker) (st : Page) :
  sent (dispatchMessage runMatching m st) = sent st.
Proof.
  rewrite dispatchMessage_deliver.
  destruct (mosaicWorker st) eqn:W; [|reflexivity].
  rewrite deliver_sent. unfold sent. destruct m; simpl; now rewrite ?W.
Qed.

Lemma dispatchMessage_null
    (runMatching : ColorBatch -> Completion MatchResult)
    (m : FromWorker) (st : Page) :
  is_null (mosaicWorker (dispatchMessage runMatching m st))
  = is_null (mosaicWorker st).
Proof.
  rewrite dispatchMessage_deliver.
  destruct (mosaicWorker st) eqn:W; [|now rewrite W].
  rewrite deliver_null. destruct m; simpl; now rewrite ?W.
Qed.

Lemma dispatchMessage_flag
    (runMatching : ColorBatch -> Completion MatchResult)
    (m : FromWorker) (st : Page) :
  is_null (mosaicWorker st) = false ->
  workerReady (dispatchMessage runMatching m st)
  = match m with
    | WASM_READY => true
    | _ => workerReady st
    end.
Proof.
  intros W. rewrite dispatchMessage_deliver.
  destruct (mosaicWorker st); [|discriminate W].
  rewrite deliver_workerReady. now destruct m.
Qed.

Lemma take_request_none (st : Page) :
  take_request st = None -> sent st = [].
Proof.
  unfold take_request, sent. destruct (mosaicWorker st) as [w|];
    [|reflexivity].
  now destruct (outbox w).
Qed.

Lemma take_request_some (st st' : Page) (req : ToWorker) :
  take_request st = Some (req, st') ->
  sent st = req :: sent st'
  /\ workerReady st' = workerReady st
  /\ is_null (mosaicWorker st') = false
  /\ is_null (mosaicWorker st) = false.
Proof.
  unfold take_request, sent. destruct (mosaicWorker st) as [w|] eqn:W;
    [|discriminate].
  destruct (outbox w) as [|r rest] eqn:O; [discriminate|].
  intros H. injection H as <- <-. unfold with_worker. rewrite W. simpl.
  repeat split.
Qed.

(** The background context acknowledges the initialisation request and
    nothing else. *)
Lemma bg_handle_acknowledges (bg : Background) (req : ToWorker) :
  snd (bg_handle bg req)
  = WASM_READY <-> is_match_request req = false.
Proof.
  destruct req as [wasm tree|colors]; simpl.
  - now split.
  - destruct (bg_loaded bg); [|now split].
    destruct (queryBatch (bg_contents bg) colors); now split.
Qed.

Section ClosedSystem.

Variable local : MatchIndex.

Lemma serve_page (st : Page) (bg : Background) :
  fst (serve local (st, bg))
  = match take_request st with
    | Some (req, st') =>
        dispatchMessage (queryBatch local) (snd (bg_handle bg req)) st'
    | None => st
    end.
Proof.
  unfold serve. destruct (take_request st) as [[req st']|]; [|reflexivity].
  now destruct (bg_handle bg req).
Qed.

Lemma unavailable_step (sys : Page * Background) (e : SystemEvent) :
  unavailable (fst sys) -> unavailable (fst (system_step local sys e)).
Proof.
  destruct sys as [st bg]. cbn [fst]. intros [W [F M]].
  destruct e as [|colors| |]; cbn [system_step fst snd].
  - unfold initWorker. destruct (mosaicWorker st) eqn:E;
      [|discriminate W].
    unfold unavailable. rewrite E. now repeat split.
  - assert (R : isReady st = false) by (unfold isReady; now rewrite F).
    destruct (local_path_worker (queryBatch local) st colors R) as [Hw Hr].
    unfold unavailable, sent. now rewrite Hw, Hr.
  - rewrite serve_page.
    destruct (take_request st) as [[req st']|] eqn:T; [|now repeat split].
    destruct (take_request_some st st' req T) as [Hs [Hr [Hn _]]].
    rewrite Hs in M. cbn [forallb] in M. apply andb_prop in M.
    destruct M as [Mreq Mrest].
    unfold unavailable.
    rewrite dispatchMessage_null, dispatchMessage_sent,
      dispatchMessage_flag by exact Hn.
    split; [exact Hn|]. split; [|exact Mrest].
    destruct (snd (bg_handle bg req)) eqn:Reply; try congruence.
    apply bg_handle_acknowledges in Reply. congruence.
  - unfold dispatchError, unavailable, sent in *.
    destruct (mosaicWorker st) eqn:E; [|discriminate W].
    simpl. rewrite E. now repeat split.
Qed.

Lemma unavailable_run (evs : list SystemEvent) (sys : Page * Background) :
  unavailable (fst sys) -> unavailable (fst (system_run local evs sys)).
Proof.
  revert sys. induction evs as [|e t IH]; intros sys H; [exact H|].
  cbn [system_run fold_left]. apply IH. now apply unavailable_step.
Qed.

Lemma init_pending_or_taken_step (sys : Page * Background)
    (e : SystemEvent) :
  init_pending_or_taken (fst sys) ->
  init_pending_or_taken (fst (system_step local sys e)).
Proof.
  destruct sys as [st bg]. cbn [fst]. intros H.
  destruct e as [|colors| |]; cbn [system_step fst snd].
  - unfold initWorker. destruct H as [[W F]|H].
    + destruct (mosaicWorker st) eqn:E; [discriminate W|].
      right. split; [reflexivity|]. right. split; [exact F|].
      exists []. unfold sent. simpl. now split.
    + destruct H as [W H]. destruct (mosaicWorker st) eqn:E;
        [|discriminate W].
      right. unfold sent in *. rewrite E in *. now split.
  - destruct (isReady st) eqn:R.
    + unfold isReady in R. apply negb_true_iff, orb_false_iff in R.
      destruct R as [F W]. apply negb_false_iff in F.
      destruct H as [[W' _]|[_ [M|[F' _]]]]; try congruence.
      assert (R : isReady st = true) by (unfold isReady; now rewrite F, W).
      right. rewrite (matchBatch_ready (queryBatch local) colors st R).
      cbn [snd]. unfold sent in *. simpl.
      destruct (mosaicWorker st); [|discriminate W]. simpl.
      split; [reflexivity|]. left. rewrite forallb_app, M. reflexivity.
    + destruct (local_path_worker (queryBatch local) st colors R)
        as [Hw Hr].
      unfold init_pending_or_taken, sent in *. now rewrite Hw, Hr.
  - rewrite serve_page.
    destruct (take_request st) as [[req st']|] eqn:T; [|exact H].
    destruct (take_request_some st st' req T) as [Hs [Hr [Hn Hn']]].
    right. rewrite dispatchMessage_null, dispatchMessage_sent.
    split; [exact Hn|]. left.
    destruct H as [[W _]|[_ [M|[_ [rest [Hi M]]]]]]; [congruence| |].
    + rewrite Hs in M. cbn [forallb] in M. apply andb_prop in M. tauto.
    + rewrite Hs in Hi. injection Hi as _ ->. exact M.
  - unfold dispatchError.
    destruct (mosaicWorker st) eqn:E; [|exact H].
    destruct H as [[W _]|[W H]]; [rewrite E in W; discriminate W|].
    right. unfold sent in *. simpl. rewrite E in *.
    split; [reflexivity|].
    destruct H as [M|[_ H]]; [now left|right; now split].
Qed.

Lemma init_pending_or_taken_run (evs : list SystemEvent)
    (sys : Page * Background) :
  init_pending_or_taken (fst sys) ->
  init_pending_or_taken (fst (system_run local evs sys)).
Proof.
  revert sys. induction evs as [|e t IH]; intros sys H; [exact H|].
  cbn [system_run fold_left]. apply IH.
  now apply init_pending_or_taken_step.
Qed.

End ClosedSystem.

(** C5.  Take the page from its start, together with the background
    context: the page calls [initWorker] and [matchEmojisInWorker], the
    background context serves the requests it is sent, and the worker
    object raises error events, in any order.  Once the channel is ready
    and an error event comes, the channel is not ready, and it is never
    ready again whatever happens afterwards: the flag is raised only by
    the acknowledgement of the initialisation request, the page posts that
    request once, and it has been answered by then. *)
Theorem unavailable_is_final (local : MatchIndex) (bg : Background)
    (before after : list SystemEvent) :
  let sys := system_run local before (initial, bg) in
  isReady (fst sys) = true ->
  isReady (fst (system_step local sys BackgroundError)) = false
  /\ isReady
       (fst (system_run local after (system_step local sys BackgroundError)))
     = false
  /\ isReady
       (fst (system_run local (before ++ BackgroundError :: after)
               (initial, bg)))
     = false.
Proof.
  intros sys R.
  assert (K : init_pending_or_taken (fst sys)).
  { apply init_pending_or_taken_run. left. now split. }
  assert (U : unavailable (fst (system_step local sys BackgroundError))).
  { unfold isReady in R. apply negb_true_iff, orb_false_iff in R.
    destruct R as [F W]. apply negb_false_iff in F.
    destruct K as [[W' _]|[_ [M|[F' _]]]]; try congruence.
    destruct sys as [st bg']. cbn [fst snd system_step] in *.
    unfold dispatchError, unavailable, sent in *.
    destruct (mosaicWorker st) eqn:E; [|discriminate W].
    simpl. rewrite E. now repeat split. }
  assert (Hfinal : forall evs,
            isReady (fst (system_run local evs
                            (system_step local sys BackgroundError)))
            = false).
  { intros evs.
    destruct (unavailable_run local evs _ U) as [_ [F _]].
    unfold isReady. now rewrite F. }
  split; [exact (Hfinal [])|]. split; [exact (Hfinal after)|].
  unfold system_run. rewrite fold_left_app. exact (Hfinal after).
Qed.

Lemma unavailable_is_final_witness :
  isReady
    (fst (system_run demo_index
            [PageInitWorker; BackgroundTurn; PageMatch [[255; 0; 0]];
             BackgroundError;
             BackgroundTurn; PageInitWorker; PageMatch [[0; 0; 255]];
             BackgroundTurn]
            (initial, demo_background)))
  = false.
Proof.
  exact (proj2 (proj2 (unavailable_is_final demo_index demo_background
                         [PageInitWorker; BackgroundTurn;
                          PageMatch [[255; 0; 0]]]
                         [BackgroundTurn; PageInitWorker;
                          PageMatch [[0; 0; 255]]; BackgroundTurn]
                         eq_refl))).
Defined.

(** ** The grid of draws *)

Lemma flat_map_seq_succ {A : Type} (f : nat -> list A) (a n : nat) :
  flat_map f (seq (S a) n) = flat_map (fun j => f (S j)) (seq a n).
Proof.
  revert a. induction n as [|n IH]; intros a; [reflexivity|].
  simpl. f_equal. apply IH.
Qed.

Section GridFacts.

Variables (cols : nat) (tileSize offset : number).

Lemma loop_y_rows (results : list ustr) (n y index : nat)
    (drawn : list TextDraw) :
  loop_y results cols tileSize offset n y index drawn
  = drawn ++ flat_map (fun j => tile_row results cols tileSize offset
                                  (y + j) (index + j * cols))
                      (seq 0 n).
Proof.
  revert y index drawn. induction n as [|n IH]; intros y index drawn.
  - simpl. now rewrite app_nil_r.
  - rewrite loop_y_step, IH, <- app_assoc. f_equal.
    cbn [seq flat_map]. rewrite !Nat.add_0_r. f_equal.
    rewrite flat_map_seq_succ.
    apply flat_map_ext. intros j. f_equal; simpl; lia.
Qed.

Lemma tile_row_ext (results results' : list ustr) (y index : nat) :
  (forall k, (k < cols)%nat ->
             glyph_at results (index + k) = glyph_at results' (index + k)) ->
  tile_row results cols tileSize offset y index
  = tile_row results' cols tileSize offset y index.
Proof.
  intros H. unfold tile_row. apply map_ext_in. intros k Hk.
  apply in_seq in Hk. unfold tile_draw. now rewrite H by lia.
Qed.

Lemma loop_y_ext (results results' : list ustr) (rows : nat) :
  (forall i, (i < rows * cols)%nat ->
             glyph_at results i = glyph_at results' i) ->
  loop_y results cols tileSize offset rows 0 0 []
  = loop_y results' cols tileSize offset rows 0 0 [].
Proof.
  intros H. rewrite !loop_y_rows. f_equal.
  rewrite !flat_map_concat_map. f_equal. apply map_ext_in.
  intros j Hj. apply in_seq in Hj. apply tile_row_ext. intros k Hk.
  apply H. simpl. nia.
Qed.

End GridFacts.

Lemma renderFromResults_ext (results results' : list ustr) (cols rows : nat)
    (tileSize scale : number) :
  (forall i, (i < rows * cols)%nat ->
             glyph_at results i = glyph_at results' i) ->
  renderFromResults results cols rows tileSize scale
  = renderFromResults results' cols rows tileSize scale.
Proof.
  intros H. unfold renderFromResults. f_equal. now apply loop_y_ext.
Qed.



(** X8.  Only the first [rows * cols] results matter, and a missing result
    is the same as an explicit placeholder: results beyond the grid are
    ignored, and a results list that is too short can be filled up with
    placeholders, or with empty strings, without changing the canvas. *)
Theorem results_cut_and_padded_to_the_grid (results : list ustr)
    (cols rows : nat) (tileSize scale : number) (k : nat) :
  renderFromResults (firstn (rows * cols) results) cols rows tileSize scale
  = renderFromResults results cols rows tileSize scale
  /\ renderFromResults (results ++ repeat placeholder k) cols rows tileSize
       scale
     = renderFromResults results cols rows tileSize scale
  /\ renderFromResults (results ++ repeat [] k) cols rows tileSize scale
     = renderFromResults results cols rows tileSize scale.
Proof.
  assert (Hpad : forall (g : ustr) i,
            g = placeholder \/ g = [] ->
            glyph_at (results ++ repeat g k) i = glyph_at results i).
  { intros g i Hg. unfold glyph_at.
    destruct (Nat.lt_ge_cases i (length results)) as [Hlt|Hge].
    - now rewrite nth_error_app1.
    - rewrite nth_error_app2 by exact Hge.
      rewrite (proj2 (nth_error_None results i) Hge).
      destruct (nth_error (repeat g k) (i - length results)) as [u|] eqn:E;
        [|reflexivity].
      apply nth_error_In, repeat_spec in E. subst u.
      destruct Hg as [-> | ->]; reflexivity. }
  split; [|split].
  - apply renderFromResults_ext. intros i Hi. unfold glyph_at.
    now rewrite nth_error_firstn, (proj2 (Nat.ltb_lt _ _) Hi).
  - apply renderFromResults_ext. intros i _. apply Hpad. now left.
  - apply renderFromResults_ext. intros i _. apply Hpad. now right.
Qed.

(** ** More on the decoder *)

Lemma pop_some {A : Type} (l : list A) : l <> [] -> exists x, pop l = Some x.
Proof.
  induction l as [|a t IH]; [congruence|]. intros _.
  destruct t as [|b t']; [now exists a|].
  destruct IH as [x Hx]; [discriminate|]. exists x. exact Hx.
Qed.

Lemma fromCodePoint_outcome (args : list (option Z)) :
  (exists u, fromCodePoint args = Normal u)
  \/ fromCodePoint args = Throw RangeError.
Proof.
  induction args as [|[cp|] rest IH]; simpl.
  - left. eauto.
  - destruct ((cp <? 0) || (1114111 <? cp)); [now right|].
    destruct IH as [[u ->]| ->]; simpl; [left; eauto|now right].
  - now right.
Qed.

(** X11.  The decoder has two outcomes only: it returns a glyph, which is
    never the empty string, or it throws a [RangeError]; no name makes it
    fail in another way. *)
Theorem filenameToEmoji_glyph_or_RangeError (name : jsstr) :
  (exists u, filenameToEmoji name = Normal u /\ u <> [])
  \/ filenameToEmoji name = Throw RangeError.
Proof.
  destruct (filenameToEmoji name) as [u|e] eqn:E.
  - left. exists u. split; [reflexivity|].
    now apply (filenameToEmoji_nonempty name).
  - right. unfold filenameToEmoji in E.
    destruct (pop_some (split "/" (toLowerCase name))
                (split_nonempty _ _)) as [seg Hseg].
    rewrite Hseg in E.
    destruct (fromCodePoint_outcome
                (map parseInt16
                   (split "_" (replace_suffix (lit ".svg")
                                 (replace_prefix (lit "emoji_u") seg)))))
      as [[u Hu]|Ht]; congruence.
Qed.

(** *** Prefix and extension are optional *)

Lemma body_char_plain (c : ascii) :
  is_body_char c = true ->
  Ascii.eqb "m" c = false /\ Ascii.eqb "g" c = false
  /\ Ascii.eqb c "/" = false.
Proof. each_char c; intros H; try discriminate H; repeat split. Qed.

Lemma body_char_lower (c : ascii) :
  is_body_char (lower_char c) = is_body_char c.
Proof. each_char c. Qed.

Lemma join_body_chars (gs : list jsstr) :
  Forall (fun g => forallb is_hex g = true) gs ->
  forallb is_body_char (join "_" gs) = true.
Proof.
  induction 1 as [|g rest Hg Hrest IH]; [reflexivity|].
  assert (Hgb : forallb is_body_char g = true).
  { rewrite forallb_forall in *. intros c Hc. unfold is_body_char.
    now rewrite (Hg c Hc). }
  destruct rest as [|g' rest']; [exact Hgb|].
  change (join "_" (g :: g' :: rest'))
    with (g ++ "_"%char :: join "_" (g' :: rest')).
  remember (join "_" (g' :: rest')) as j eqn:Ej.
  rewrite forallb_app, Hgb. cbn [forallb andb]. now rewrite IH.
Qed.

Lemma no_prefix_in_body (body rest : jsstr) :
  forallb is_body_char body = true -> body <> [] ->
  (rest = [] \/ exists t, rest = "."%char :: t) ->
  replace_prefix (lit "emoji_u") (body ++ rest) = body ++ rest.
Proof.
  intros Hb Hne Hrest. unfold replace_prefix.
  destruct body as [|c1 body']; [congruence|].
  simpl in Hb. apply andb_prop in Hb. destruct Hb as [_ Hb].
  cbn [app lit list_ascii_of_string strip_prefix].
  destruct (Ascii.eqb "e" c1); [|reflexivity].
  destruct body' as [|c2 body''].
  - destruct Hrest as [-> | [t ->]]; reflexivity.
  - simpl in Hb. apply andb_prop in Hb. destruct Hb as [Hc2 _].
    cbn [app strip_prefix].
    now rewrite (proj1 (body_char_plain c2 Hc2)).
Qed.

Lemma no_suffix_in_body (body : jsstr) :
  forallb is_body_char body = true ->
  replace_suffix (lit ".svg") body = body.
Proof.
  intros Hb. unfold replace_suffix.
  assert (Hr : forallb is_body_char (rev body) = true).
  { rewrite forallb_forall in *. intros c Hc. apply Hb.
    now apply in_rev. }
  destruct (rev body) as [|c t]; [reflexivity|].
  simpl in Hr. apply andb_prop in Hr. destruct Hr as [Hc _].
  cbn [lit list_ascii_of_string rev app strip_prefix].
  now rewrite (proj1 (proj2 (body_char_plain c Hc))).
Qed.

(** Decoding any name whose lower-cased form, without slash, is reduced by
    the two replacements to the joined lower-cased groups. *)
Lemma decode_through_body (name : jsstr) (groups : list jsstr) :
  wellformed groups = true ->
  forallb (fun c => negb (Ascii.eqb c "/")) (toLowerCase name) = true ->
  replace_suffix (lit ".svg")
    (replace_prefix (lit "emoji_u") (toLowerCase name))
  = join "_" (map toLowerCase groups) ->
  filenameToEmoji name = Normal (chars_of (map hex_value groups)).
Proof.
  intros Hwf Hslash Hbody.
  apply wellformed_groups in Hwf. destruct Hwf as [Hne Hall].
  assert (Hlow : Forall (fun g => forallb is_hex g = true)
                        (map toLowerCase groups)).
  { apply Forall_map. eapply Forall_impl; [|exact Hall].
    intros g [_ [Hh _]]. now rewrite forallb_lower_hex. }
  unfold filenameToEmoji. rewrite (split_absent _ _ Hslash).
  change (pop [?x]) with (Some x). cbv beta iota zeta.
  rewrite Hbody, split_join.
  - assert (Hparse : map parseInt16 (map toLowerCase groups)
                     = map Some (map hex_value groups)).
    { rewrite !map_map. apply map_ext_Forall.
      eapply Forall_impl; [|exact Hall]. intros g [Hg [Hh _]].
      cbv beta. rewrite parseInt16_hex.
      - now rewrite hex_value_lower.
      - destruct g; [congruence|discriminate].
      - now rewrite forallb_lower_hex. }
    rewrite Hparse. apply fromCodePoint_valid.
    apply Forall_map. eapply Forall_impl; [|exact Hall].
    intros g [_ [_ Hle]]. split; [apply hex_value_nonneg|exact Hle].
  - destruct groups; [congruence|discriminate].
  - eapply Forall_impl; [|exact Hlow]. intros g Hg.
    apply hex_no_sep; [|exact Hg]. intros c Hc. apply is_hex_plain, Hc.
Qed.

Lemma join_nonempty (gs : list jsstr) :
  gs <> [] -> Forall (fun g => g <> []) gs -> join "_" gs <> [].
Proof.
  destruct gs as [|g rest]; [congruence|]. intros _ H.
  inversion H as [|? ? Hg _]; subst.
  destruct g as [|c g']; [congruence|].
  destruct rest; simpl; discriminate.
Qed.

(** X12.  The prefix [emoji_u] and the extension [.svg] are both optional:
    for well-formed groups, the bare joined groups, the groups with the
    prefix only and the groups with the extension only all decode to the
    glyph of the full identifier. *)
Theorem prefix_and_extension_optional (groups : list jsstr) :
  wellformed groups = true ->
  filenameToEmoji (join "_" groups) = filenameToEmoji (identifier groups)
  /\ filenameToEmoji (lit "emoji_u" ++ join "_" groups)
     = filenameToEmoji (identifier groups)
  /\ filenameToEmoji (join "_" groups ++ lit ".svg")
     = filenameToEmoji (identifier groups).
Proof.
  intros Hwf. rewrite (filenameToEmoji_identifier groups Hwf).
  pose proof (wellformed_groups groups Hwf) as [Hne Hall].
  set (low := map toLowerCase groups).
  assert (Hlow : Forall (fun g => forallb is_hex g = true) low).
  { apply Forall_map. eapply Forall_impl; [|exact Hall].
    intros g [_ [Hh _]]. now rewrite forallb_lower_hex. }
  pose proof (join_body_chars low Hlow) as Hbody.
  pose proof (join_no_slash low Hlow) as Hslash.
  assert (Hjne : join "_" low <> []).
  { apply join_nonempty.
    - unfold low. destruct groups; [congruence|discriminate].
    - apply Forall_map. eapply Forall_impl; [|exact Hall].
      intros g [Hg _]. destruct g; [congruence|discriminate]. }
  split; [|split]; apply decode_through_body; try exact Hwf.
  - now rewrite toLowerCase_join.
  - rewrite toLowerCase_join. fold low.
    rewrite <- (app_nil_r (join "_" low)) at 1.
    rewrite no_prefix_in_body by (auto; now left).
    rewrite app_nil_r. now apply no_suffix_in_body.
  - unfold toLowerCase. rewrite map_app.
    fold (toLowerCase (join "_" groups)). rewrite toLowerCase_join.
    fold low. rewrite forallb_app, Hslash. reflexivity.
  - unfold toLowerCase. rewrite map_app.
    fold (toLowerCase (join "_" groups)). rewrite toLowerCase_join.
    fold low. change (map lower_char (lit "emoji_u")) with (lit "emoji_u").
    rewrite replace_prefix_app. now apply no_suffix_in_body.
  - unfold toLowerCase. rewrite map_app.
    fold (toLowerCase (join "_" groups)). rewrite toLowerCase_join.
    fold low. rewrite forallb_app, Hslash. reflexivity.
  - unfold toLowerCase. rewrite map_app.
    fold (toLowerCase (join "_" groups)). rewrite toLowerCase_join.
    fold low. change (map lower_char (lit ".svg")) with (lit ".svg").
    rewrite no_prefix_in_body by (auto; right; now eexists).
    apply replace_suffix_app.
Qed.

Lemma prefix_and_extension_optional_witness :
  filenameToEmoji (lit "1F468_200d_1f469")
  = filenameToEmoji (lit "emoji_u1F468_200d_1f469.svg").
Proof.
  exact (proj1 (prefix_and_extension_optional
                  [lit "1F468"; lit "200d"; lit "1f469"] eq_refl)).
Defined.

(** *** Reading the glyph back *)

Lemma chars_of_cons (cp : Z) (rest : list Z) :
  chars_of (cp :: rest) = UTF16EncodeCodePoint cp ++ chars_of rest.
Proof. reflexivity. Qed.

Lemma code_points_chars_of (cps : list Z) :
  forallb is_scalar cps = true -> code_points (chars_of cps) = cps.
Proof.
  induction cps as [|cp rest IH]; [reflexivity|].
  intros H. cbn [forallb] in H. apply andb_prop in H. destruct H as [Hcp Hrest].
  specialize (IH Hrest). rewrite chars_of_cons.
  unfold is_scalar in Hcp. rewrite !andb_true_iff, negb_true_iff in Hcp.
  destruct Hcp as [[H0 H1] Hsur].
  apply Z.leb_le in H0. apply Z.leb_le in H1.
  unfold UTF16EncodeCodePoint.
  destruct (Z.leb_spec cp 65535) as [Hle|Hgt].
  - cbn [app code_points]. destruct (chars_of rest) as [|lo r] eqn:E.
    + rewrite <- IH. reflexivity.
    + replace ((55296 <=? cp) && (cp <=? 56319)) with false.
      * cbn [andb]. now rewrite IH.
      * symmetry. apply andb_false_iff.
        apply andb_false_iff in Hsur. destruct Hsur as [Hs|Hs].
        -- now left.
        -- right. apply Z.leb_gt in Hs. apply Z.leb_gt. lia.
  - cbn [app code_points].
    pose proof (Z.div_mod (cp - 65536) 1024 ltac:(lia)) as Hdm.
    pose proof (Z.mod_pos_bound (cp - 65536) 1024 ltac:(lia)) as Hm.
    assert (Hq : 0 <= (cp - 65536) / 1024 <= 1023).
    { split; [apply Z.div_pos; lia|].
      apply Z.lt_succ_r, Z.div_lt_upper_bound; lia. }
    replace ((55296 <=? (cp - 65536) / 1024 + 55296)
             && ((cp - 65536) / 1024 + 55296 <=? 56319)
             && (56320 <=? (cp - 65536) mod 1024 + 56320)
             && ((cp - 65536) mod 1024 + 56320 <=? 57343)) with true.
    + rewrite IH. f_equal. lia.
    + symmetry. rewrite !andb_true_iff, !Z.leb_le. lia.
Qed.

(** X13.  A well-formed identifier whose groups all denote scalar values
    (no surrogates) decodes to a glyph that reads back, as UTF-16, as
    exactly those code points in order; so two such identifiers decode to
    the same glyph only if they denote the same code point sequence. *)
Theorem decoded_glyph_reads_back (groups groups' : list jsstr) :
  wellformed groups = true ->
  forallb is_scalar (map hex_value groups) = true ->
  (exists u, filenameToEmoji (identifier groups) = Normal u
             /\ code_points u = map hex_value groups)
  /\ (wellformed groups' = true ->
      forallb is_scalar (map hex_value groups') = true ->
      filenameToEmoji (identifier groups)
      = filenameToEmoji (identifier groups') ->
      map hex_value groups = map hex_value groups').
Proof.
  intros Hwf Hsc. split.
  - eexists. split; [apply (filenameToEmoji_identifier groups Hwf)|].
    now apply code_points_chars_of.
  - intros Hwf' Hsc' E.
    rewrite (filenameToEmoji_identifier groups Hwf),
      (filenameToEmoji_identifier groups' Hwf') in E.
    injection E as E.
    rewrite <- (code_points_chars_of _ Hsc), <- (code_points_chars_of _ Hsc').
    now rewrite E.
Qed.

Lemma decoded_glyph_reads_back_witness :
  exists u,
    filenameToEmoji (lit "emoji_u1f468_200d_1F469.svg") = Normal u
    /\ code_points u = [128104; 8205; 128105].
Proof.
  exact (proj1 (decoded_glyph_reads_back
                  [lit "1f468"; lit "200d"; lit "1F469"] []
                  eq_refl eq_refl)).
Defined.

(** Without the restriction to scalar values the decoder is not injective:
    a surrogate pair written as two groups gives the glyph of the code
    point it encodes. *)
Example surrogate_groups_collide :
  filenameToEmoji (lit "emoji_ud83d_de00.svg")
  = filenameToEmoji (lit "emoji_u1f600.svg").
Proof. reflexivity. Qed.

(** *** What a group may carry after its digits *)

Lemma digitSpan_hex_then (h : jsstr) (d : ascii) (rest : jsstr) :
  forallb is_hex h = true -> is_hex d = false ->
  digitSpan (h ++ d :: rest) = map digit_or_zero h.
Proof.
  intros Hh Hd. induction h as [|c t IH]; simpl.
  - rewrite hexDigit_digit_value. unfold is_hex in Hd.
    now destruct (digit_value d).
  - simpl in Hh. apply andb_prop in Hh. destruct Hh as [Hc Ht].
    rewrite hexDigit_digit_value. unfold is_hex in Hc.
    unfold digit_or_zero at 1.
    destruct (digit_value c); [|discriminate]. now rewrite IH.
Qed.

Lemma parseInt16_digits_then (h : jsstr) (d : ascii) (rest : jsstr) :
  h <> [] -> forallb is_hex h = true -> is_hex d = false ->
  Ascii.eqb d "x" = false -> Ascii.eqb d "X" = false ->
  parseInt16 (h ++ d :: rest)
  = match digitSpan (h ++ d :: rest) with
    | [] => None
    | ds => Some (1 * radix16 ds)
    end.
Proof.
  intros Hne Hh Hd Hx HX. destruct h as [|c t]; [congruence|].
  simpl in Hh. apply andb_prop in Hh. destruct Hh as [Hc Ht].
  destruct c as [[] [] [] [] [] [] [] []];
    try discriminate Hc; try reflexivity.
  destruct t as [|c2 t2].
  - destruct d as [[] [] [] [] [] [] [] []];
      try discriminate Hd; try discriminate Hx; try discriminate HX;
      reflexivity.
  - simpl in Ht. apply andb_prop in Ht. destruct Ht as [Hc2 _].
    destruct c2 as [[] [] [] [] [] [] [] []];
      try discriminate Hc2; reflexivity.
Qed.

Lemma parseInt16_hex_then (h : jsstr) (d : ascii) (rest : jsstr) :
  h <> [] -> forallb is_hex h = true -> is_hex d = false ->
  Ascii.eqb d "x" = false -> Ascii.eqb d "X" = false ->
  parseInt16 (h ++ d :: rest) = Some (hex_value h).
Proof.
  intros Hne Hh Hd Hx HX.
  rewrite (parseInt16_digits_then h d rest Hne Hh Hd Hx HX).
  rewrite (digitSpan_hex_then h d rest Hh Hd).
  destruct h as [|c t]; [congruence|].
  rewrite <- (radix16_hex_value (c :: t)).
  simpl map. cbv iota. now rewrite Z.mul_1_l.
Qed.

Lemma lower_char_plain (c : ascii) :
  Ascii.eqb (lower_char c) "_" = Ascii.eqb c "_"
  /\ Ascii.eqb (lower_char c) "X" = false.
Proof. each_char c; split; reflexivity. Qed.

Lemma lower_keeps_separators_out (s : jsstr) :
  forallb (fun a => negb (Ascii.eqb a "/") && negb (Ascii.eqb a "_")) s
  = true ->
  forallb (fun a => negb (Ascii.eqb a "/")) (toLowerCase s) = true
  /\ forallb (fun a => negb (Ascii.eqb a "_")) (toLowerCase s) = true.
Proof.
  induction s as [|a t IH]; [now split|].
  simpl. intros H. apply andb_prop in H. destruct H as [Ha Ht].
  apply andb_prop in Ha. destruct Ha as [Hs Hu].
  destruct (IH Ht) as [IH1 IH2].
  now rewrite lower_char_slash, (proj1 (lower_char_plain a)), Hs, Hu, IH1, IH2.
Qed.

(** X14.  A group is read like [parseInt] reads it: whatever follows the
    hexadecimal digits of a single group, up to the extension, is ignored,
    provided it starts with a character that is neither a hexadecimal
    digit nor an [x] and contains neither separator.  The identifier then
    decodes to the glyph of the digits alone. *)
Theorem characters_after_the_digits_ignored (g : jsstr) (c : ascii)
    (junk : jsstr) :
  is_codepoint_group g = true ->
  is_hex c = false ->
  Ascii.eqb (lower_char c) "x" = false ->
  forallb (fun a => negb (Ascii.eqb a "/") && negb (Ascii.eqb a "_"))
          (c :: junk) = true ->
  filenameToEmoji (lit "emoji_u" ++ (g ++ c :: junk) ++ lit ".svg")
  = filenameToEmoji (identifier [g]).
Proof.
  intros Hg Hc Hx Hsep.
  assert (Hwf : wellformed [g] = true) by (unfold wellformed; simpl;
                                            now rewrite Hg).
  rewrite (filenameToEmoji_identifier [g] Hwf).
  destruct (wellformed_groups [g] Hwf) as [_ Hall].
  inversion Hall as [|? ? [Hne [Hh Hle]] _]; subst.
  destruct (lower_keeps_separators_out (c :: junk) Hsep) as [Hs1 Hs2].
  set (lg := toLowerCase g).
  assert (Hlg : forallb is_hex lg = true) by
    (unfold lg; now rewrite forallb_lower_hex).
  assert (Hlow : toLowerCase (lit "emoji_u" ++ (g ++ c :: junk) ++ lit ".svg")
                 = lit "emoji_u" ++ (lg ++ toLowerCase (c :: junk))
                   ++ lit ".svg").
  { unfold toLowerCase, lg. now rewrite !map_app. }
  unfold filenameToEmoji. rewrite Hlow.
  rewrite split_absent.
  2:{ rewrite !forallb_app, Hs1.
      rewrite (hex_no_sep "/" lg) by
        (try exact Hlg; intros a Ha; apply is_hex_plain, Ha).
      reflexivity. }
  change (pop [?x]) with (Some x). cbv beta iota zeta.
  rewrite replace_prefix_app, replace_suffix_app.
  rewrite split_absent.
  2:{ rewrite forallb_app, Hs2.
      rewrite (hex_no_sep "_" lg) by
        (try exact Hlg; intros a Ha; apply is_hex_plain, Ha).
      reflexivity. }
  cbn [map toLowerCase]. change (map lower_char junk) with (toLowerCase junk).
  rewrite parseInt16_hex_then.
  - unfold lg. rewrite hex_value_lower. cbn [fromCodePoint].
    destruct (Z.ltb_spec (hex_value g) 0) as [Hneg|_];
      [pose proof (hex_value_nonneg g); lia|].
    destruct (Z.ltb_spec 1114111 (hex_value g)) as [Hbig|_]; [lia|].
    reflexivity.
  - unfold lg. destruct g; [congruence|discriminate].
  - exact Hlg.
  - now rewrite is_hex_lower.
  - exact Hx.
  - apply lower_char_plain.
Qed.

Lemma characters_after_the_digits_ignored_witness :
  filenameToEmoji (lit "emoji_u1f600 (copy).svg")
  = filenameToEmoji (lit "emoji_u1f600.svg").
Proof.
  exact (characters_after_the_digits_ignored (lit "1f600") " "
           (lit "(copy)") eq_refl eq_refl eq_refl eq_refl).
Defined.

(** A group that starts with [0x] is another matter: [parseInt] takes the
    two characters for the hexadecimal prefix. *)
Example zero_x_is_a_prefix :
  filenameToEmoji (lit "emoji_u0x41.svg") = Normal [65]
  /\ filenameToEmoji (lit "emoji_u0.svg") = Normal [0].
Proof. split; reflexivity. Qed.

(** ** The download countdown *)




Lemma interval_fires_alert (i : nat) (msg : string) (ui : Ui) :
  interval_fires i (alert msg ui) = alert msg (interval_fires i ui).
Proof.
  unfold interval_fires. cbn [alert intervals].
  destruct (nth_error (intervals ui) i) as [cd|]; [|reflexivity].
  destruct (cd_countdown cd - 1 <? 0); destruct (cd_kind cd); reflexivity.
Qed.

Lemma firings_alert (fires : list nat) (msg : string) (ui : Ui) :
  fold_left (fun u i => interval_fires i u) fires (alert msg ui)
  = alert msg (fold_left (fun u i => interval_fires i u) fires ui).
Proof.
  revert ui. induction fires as [|i t IH]; intros ui; [reflexivity|].
  cbn [fold_left]. now rewrite interval_fires_alert, IH.
Qed.

(** X16.  Without a mosaic canvas on the page a click only shows the
    alert.  It starts no interval and touches no button, and whatever
    intervals fire afterwards, in whatever order, the page ends up as it
    would have without the click, but for the one alert: a countdown that
    was already running goes on and saves its file as before, and the click
    adds no file of its own. *)
Theorem download_without_mosaic_only_alerts (k : Kind) (ui : Ui)
    (fires : list nat) :
  mosaicCanvas ui = None ->
  let firings := fold_left (fun u i => interval_fires i u) fires in
  firings (download_click k ui)
  = alert "Please generate the mosaic first!" (firings ui)
  /\ saved (firings (download_click k ui)) = saved (firings ui)
  /\ intervals (firings (download_click k ui)) = intervals (firings ui)
  /\ btnUltraHD (firings (download_click k ui)) = btnUltraHD (firings ui)
  /\ btnStandard (firings (download_click k ui)) = btnStandard (firings ui)
  /\ alerts (firings (download_click k ui))
     = alerts (firings ui) ++ ["Please generate the mosaic first!"%string].
Proof.
  intros Hc firings. subst firings.
  unfold download_click. rewrite Hc, firings_alert.
  repeat split.
Qed.

Lemma download_without_mosaic_only_alerts_witness :
  saved (fold_left (fun u i => interval_fires i u) [0; 0; 0; 0; 0; 0; 0]%nat
           (downloadStandard
              (countdown_without_canvas
                 (renderFromResults [] 1 1 (num 8) (num 1)))))
  = [SavedPNG "mosaic-ultra-hd.png"
       (renderFromResults [] 1 1 (num 8) (num 1))].
Proof.
  exact (proj1 (proj2 (download_without_mosaic_only_alerts Standard
                         (countdown_without_canvas
                            (renderFromResults [] 1 1 (num 8) (num 1)))
                         [0; 0; 0; 0; 0; 0; 0]%nat eq_refl))).
Defined.

(** ** The SVG optimiser script *)

Section ScanFacts.

Variable path_join : jsstr -> jsstr -> jsstr.

Local Abbreviation scan_entry' := (scan_entry path_join).
Local Abbreviation scan_entries' := (scan_entries path_join).
Local Abbreviation below := (svg_files_below path_join).

Lemma scan_entry_dir (currentDir : jsstr) (name : jsstr) (readable : bool)
    (entries : list Entry) (files : list jsstr) :
  scan_entry' currentDir (DirEntry name readable entries) files
  = scan path_join (path_join currentDir name) readable entries files.
Proof.
  unfold scan. cbn [scan_entry]. destruct readable; [|reflexivity].
  revert files. induction entries as [|e rest IH]; intros files;
    [reflexivity|].
  cbn [scan_entries].
  destruct (scan_entry' (path_join currentDir name) e files);
    [|reflexivity].
  simpl. apply IH.
Qed.

Lemma scan_entries_outcome (currentDir : jsstr) (entries : list Entry) :
  Forall (fun e => forall cur files,
            scan_entry' cur e files
            = if all_readable e
              then Normal (files ++ below cur e)
              else Throw (Error "readdir failed")) entries ->
  forall files,
    scan_entries' currentDir entries files
    = if forallb all_readable entries
      then Normal (files ++ flat_map (below currentDir) entries)
      else Throw (Error "readdir failed").
Proof.
  induction 1 as [|e rest He _ IH]; intros files.
  - simpl. now rewrite app_nil_r.
  - cbn [scan_entries forallb flat_map]. rewrite He.
    destruct (all_readable e); [|reflexivity].
    simpl. rewrite IH. destruct (forallb all_readable rest); [|reflexivity].
    now rewrite app_assoc.
Qed.

Lemma scan_entry_outcome (e : Entry) :
  forall cur files,
    scan_entry' cur e files
    = if all_readable e
      then Normal (files ++ below cur e)
      else Throw (Error "readdir failed").
Proof.
  induction e as [name|name readable entries IH|name]
    using Entry_forall_ind; intros cur files.
  - simpl. destruct (is_svg_name name); [reflexivity|].
    now rewrite app_nil_r.
  - rewrite scan_entry_dir. unfold scan. cbn [all_readable svg_files_below].
    destruct readable; [|reflexivity].
    now rewrite (scan_entries_outcome (path_join cur name) entries IH).
  - simpl. now rewrite app_nil_r.
Qed.

(** Every path found is the scanned directory with names joined to it one
    by one, the last of them the name of an SVG file. *)
Lemma svg_files_below_shape (e : Entry) :
  forall cur p,
    In p (below cur e) ->
    exists between name,
      p = fold_left path_join (between ++ [name]) cur
      /\ is_svg_name name = true.
Proof.
  induction e as [name|name readable entries IH|name]
    using Entry_forall_ind; intros cur p Hin.
  - simpl in Hin. destruct (is_svg_name name) eqn:E; [|destruct Hin].
    destruct Hin as [<-|[]]. exists [], name. now split.
  - cbn [svg_files_below] in Hin. apply in_flat_map in Hin.
    destruct Hin as [e [He Hp]].
    rewrite Forall_forall in IH.
    destruct (IH e He _ _ Hp) as [between [n [-> Hn]]].
    exists (name :: between), n. split; [reflexivity|exact Hn].
  - destruct Hin.
Qed.

End ScanFacts.

(** X17.  [getAllSvgFiles] either fails as a whole or returns every SVG
    file: if the directory and every directory below it can be read, the
    result lists, depth first in directory order, one path for each file
    whose name ends in [.svg] in any letter case, and for no other entry;
    each path is made by [path.join] from the scanned directory and the
    names on the way down to the file.  If any directory cannot be read,
    the call throws and no partial list is returned. *)
Theorem svg_scan_all_or_nothing (path_join : jsstr -> jsstr -> jsstr)
    (dir : jsstr) (readable : bool) (entries : list Entry) :
  (readable && forallb all_readable entries = true ->
     getAllSvgFiles path_join dir readable entries
     = Normal (flat_map (svg_files_below path_join dir) entries)
     /\ forall p, In p (flat_map (svg_files_below path_join dir) entries) ->
                  exists between name,
                    p = fold_left path_join (between ++ [name]) dir
                    /\ endsWith (toLowerCase name) (lit ".svg") = true)
  /\ (readable && forallb all_readable entries = false ->
        getAllSvgFiles path_join dir readable entries
        = Throw (Error "readdir failed")).
Proof.
  assert (Hall : Forall (fun e => forall cur files,
                    scan_entry path_join cur e files
                    = if all_readable e
                      then Normal (files ++ svg_files_below path_join cur e)
                      else Throw (Error "readdir failed")) entries).
  { apply Forall_forall. intros e _. apply scan_entry_outcome. }
  unfold getAllSvgFiles, scan. split.
  - intros H. apply andb_prop in H. destruct H as [-> Hr].
    rewrite (scan_entries_outcome path_join dir entries Hall), Hr.
    split; [reflexivity|].
    intros p Hin. apply in_flat_map in Hin. destruct Hin as [e [_ Hp]].
    exact (svg_files_below_shape path_join e dir p Hp).
  - intros H. destruct readable; [|reflexivity]. simpl in H.
    now rewrite (scan_entries_outcome path_join dir entries Hall), H.
Qed.

Lemma svg_scan_all_or_nothing_witness :
  getAllSvgFiles (fun a b => a ++ lit "/" ++ b) (lit "emojis") true
    demo_entries
  = Normal [lit "emojis/a.SVG"; lit "emojis/flags.svg/b.svg"]
  /\ getAllSvgFiles (fun a b => a ++ lit "/" ++ b) (lit "emojis") true
       [FileEntry (lit "a.svg"); DirEntry (lit "locked") false []]
     = Throw (Error "readdir failed").
Proof.
  split.
  - exact (proj1 (proj1 (svg_scan_all_or_nothing
                           (fun a b => a ++ lit "/" ++ b) (lit "emojis")
                           true demo_entries) eq_refl)).
  - exact (proj2 (svg_scan_all_or_nothing
                    (fun a b => a ++ lit "/" ++ b) (lit "emojis") true
                    [FileEntry (lit "a.svg");
                     DirEntry (lit "locked") false []]) eq_refl).
Defined.

(** *** The totals of [main] *)

Lemma account_from_totals (n : nat) (results : list (option (Z * Z))) :
  forall i t,
    totalOriginalSize (account_from n i results t)
    = totalOriginalSize t + sum_Z (map fst (processed results))
    /\ totalOptimizedSize (account_from n i results t)
       = totalOptimizedSize t + sum_Z (map snd (processed results))
    /\ processedCount (account_from n i results t)
       = processedCount t + Z.of_nat (length (processed results)).
Proof.
  induction results as [|r rest IH]; intros i t.
  - unfold processed, sum_Z. simpl. lia.
  - cbn [account_from]. destruct (IH (S i) (account n i r t)) as [H1 [H2 H3]].
    rewrite H1, H2, H3. destruct r as [[o p]|]; unfold processed, sum_Z;
      cbn [account flat_map app map fold_right fst snd length
           totalOriginalSize totalOptimizedSize processedCount];
      repeat split; lia.
Qed.

Lemma progress_due (n i : nat) :
  Nat.eqb ((i + 1) mod 100) 0 || Nat.eqb i (n - 1) = true
  <-> ((S i mod 100 = 0)%nat \/ (S i - 1 = n - 1)%nat).
Proof.
  rewrite orb_true_iff, !Nat.eqb_eq.
  replace (i + 1)%nat with (S i) by lia.
  replace (S i - 1)%nat with i by lia. tauto.
Qed.

Lemma account_from_progress (n : nat) (results : list (option (Z * Z))) :
  forall i t k,
    In k (progress_shown (account_from n i results t))
    <-> In k (progress_shown t)
        \/ ((i < k <= i + length results)%nat
            /\ (exists sizes, nth_error results (k - 1 - i) = Some (Some sizes))
            /\ ((k mod 100 = 0)%nat \/ (k - 1 = n - 1)%nat)).
Proof.
  induction results as [|r rest IH]; intros i t k.
  - simpl. split; [now left|]. intros [H|[H _]]; [exact H|lia].
  - cbn [account_from]. rewrite IH. cbn [length].
    assert (Hacc : In k (progress_shown (account n i r t))
                   <-> In k (progress_shown t)
                       \/ (k = S i /\ (exists sizes, r = Some sizes)
                           /\ ((k mod 100 = 0)%nat \/ (k - 1 = n - 1)%nat))).
    { destruct r as [[o p]|]; cbn [account progress_shown].
      - pose proof (progress_due n i) as Hdue.
        destruct (Nat.eqb ((i + 1) mod 100) 0 || Nat.eqb i (n - 1)).
        + rewrite in_app_iff. simpl. split.
          * intros [H|[H|[]]]; [now left|]. right.
            replace k with (S i) by lia.
            split; [reflexivity|]. split; [eauto|]. now apply Hdue.
          * intros [H|[-> _]]; [now left|]. right. left. lia.
        + split; [now left|].
          intros [H|[-> [_ Hc]]]; [exact H|].
          apply Hdue in Hc. discriminate Hc.
      - split; [now left|].
        intros [H|[_ [[sizes Hs] _]]]; [exact H|discriminate Hs]. }
    rewrite Hacc. split.
    + intros [[H|[-> [[sizes ->] Hc]]]|[Hr [[sizes Hs] Hc]]].
      * now left.
      * right. split; [lia|]. split; [|exact Hc].
        exists sizes. now replace (S i - 1 - i)%nat with 0%nat by lia.
      * right. split; [lia|]. split; [|exact Hc].
        exists sizes. replace (k - 1 - i)%nat with (S (k - 1 - S i)) by lia.
        exact Hs.
    + intros [H|[Hr [[sizes Hs] Hc]]]; [left; now left|].
      destruct (Nat.eq_dec k (S i)) as [->|Hne].
      * left. right. split; [reflexivity|]. split; [|exact Hc].
        exists sizes. replace (S i - 1 - i)%nat with 0%nat in Hs by lia.
        simpl in Hs. congruence.
      * right. split; [lia|]. split; [|exact Hc].
        exists sizes. replace (k - 1 - i)%nat with (S (k - 1 - S i)) in Hs
          by lia.
        exact Hs.
Qed.

(** X18.  In the totals of [main] a file that failed to optimise counts for
    nothing: the processed count is the number of files with a result and
    the two size totals are the sums over those files; and progress is
    written only at a file with a result, when its position is a multiple
    of 100 or it is the last file, so that a failure at such a position
    leaves the line out. *)
Theorem totals_skip_failed_files (results : list (option (Z * Z))) :
  processedCount (account_all results)
  = Z.of_nat (length (processed results))
  /\ totalOriginalSize (account_all results)
     = sum_Z (map fst (processed results))
  /\ totalOptimizedSize (account_all results)
     = sum_Z (map snd (processed results))
  /\ forall k,
       In k (progress_shown (account_all results))
       <-> (1 <= k <= length results)%nat
           /\ (exists sizes, nth_error results (k - 1) = Some (Some sizes))
           /\ ((k mod 100 = 0)%nat \/ k = length results).
Proof.
  unfold account_all.
  destruct (account_from_totals (length results) results 0
              {| totalOriginalSize := 0; totalOptimizedSize := 0;
                 processedCount := 0; progress_shown := [] |})
    as [H1 [H2 H3]].
  rewrite H1, H2, H3. cbn [totalOriginalSize totalOptimizedSize
                           processedCount].
  split; [lia|]. split; [lia|]. split; [lia|].
  intros k. rewrite account_from_progress. cbn [progress_shown In].
  rewrite Nat.sub_0_r. split.
  - intros [[]|[Hr [Hs Hc]]]. split; [lia|]. split; [exact Hs|].
    destruct Hc as [Hc|Hc]; [now left|right; lia].
  - intros [Hr [Hs Hc]]. right. split; [lia|]. split; [exact Hs|].
    destruct Hc as [Hc|Hc]; [now left|right; lia].
Qed.

(** *** Starting [main] *)

(** X19.  The usage text is printed, followed by exit code 1, exactly when
    the first argument is the empty string.  Run without arguments, the
    script throws a [TypeError] when it computes the default output
    directory, before it reaches the test that prints the usage text; with
    a non-empty first argument it proceeds, taking the second argument as
    output directory unless that is absent or empty. *)
Theorem usage_only_for_an_empty_first_argument
    (path_join : jsstr -> jsstr -> jsstr) (args : list jsstr) :
  (main_start path_join args = Normal (UsageAndExit 1)
   <-> exists rest, args = [] :: rest)
  /\ (main_start path_join args = Throw TypeError <-> args = [])
  /\ (forall c d rest,
        args = (c :: d) :: rest ->
        main_start path_join args
        = Normal (Proceed (c :: d)
                    (match rest with
                     | (a :: o) :: _ => a :: o
                     | _ => path_join (c :: d) (lit "../max-optimized-emojis")
                     end))).
Proof.
  unfold main_start. split; [|split].
  - split.
    + intros H. destruct args as [|[|c d] rest].
      * discriminate H.
      * now exists rest.
      * exfalso. destruct rest as [|[|a o] rest']; discriminate H.
    + intros [rest ->]. destruct rest as [|[|a o] rest']; reflexivity.
  - split.
    + intros H. destruct args as [|[|c d] [|[|a o] rest']];
        try reflexivity; discriminate H.
    + intros ->. reflexivity.
  - intros c d rest ->.
    destruct rest as [|[|a o] rest']; reflexivity.
Qed.

Lemma usage_only_for_an_empty_first_argument_witness :
  main_start (fun a b => a ++ lit "/" ++ b) [lit ""; lit "out"]
  = Normal (UsageAndExit 1)
  /\ main_start (fun a b => a ++ lit "/" ++ b) [] = Throw TypeError.
Proof.
  split.
  - apply (proj1 (usage_only_for_an_empty_first_argument
                    (fun a b => a ++ lit "/" ++ b) [lit ""; lit "out"])).
    now exists [lit "out"].
  - now apply (proj1 (proj2 (usage_only_for_an_empty_first_argument
                               (fun a b => a ++ lit "/" ++ b) []))).
Defined.

(** ** Decoding the whole result *)

Lemma mapC_all_or_nothing {A B : Type} (f : A -> Completion B) (l : list A) :
  (forall rs, mapC f l = Normal rs ->
     length rs = length l
     /\ Forall (fun a => exists b, f a = Normal b) l)
  /\ (Forall (fun a => exists b, f a = Normal b) l ->
      exists rs, mapC f l = Normal rs).
Proof.
  induction l as [|a t [IH1 IH2]]; split.
  - intros rs H. injection H as <-. now split.
  - intros _. now exists [].
  - intros rs H. simpl in H.
    destruct (f a) as [b|e] eqn:Fa; [|discriminate H]. simpl in H.
    destruct (mapC f t) as [r|e] eqn:Ft; [|discriminate H]. simpl in H.
    injection H as <-. destruct (IH1 r eq_refl) as [Hlen Hall].
    split; [simpl; now rewrite Hlen|].
    constructor; [now exists b|exact Hall].
  - intros H. inversion H as [|? ? [b Fa] Ht]; subst.
    destruct (IH2 Ht) as [rs Hrs]. exists (b :: rs).
    simpl. now rewrite Fa, Hrs.
Qed.

(** X20.  The handler draws a mosaic exactly when every identifier of the
    match result decodes, those beyond the grid included, and the awaited
    font load resolves; in every other case the run ends in the alert.
    When it draws, each tile that has an identifier shows the decoding of
    that identifier. *)
Theorem mosaic_drawn_iff_all_identifiers_decode
    (fontsLoad : Completion unit) (ids : MatchResult) (cols rows : nat) :
  ((exists c, decode_and_render fontsLoad ids cols rows = Rendered c)
   <-> Forall (fun id => exists g, filenameToEmoji id = Normal g) ids
       /\ fontsLoad = Normal tt)
  /\ ((exists c, decode_and_render fontsLoad ids cols rows = Rendered c)
      \/ decode_and_render fontsLoad ids cols rows
         = Alerted "Could not process image. Please try again.")
  /\ (forall c i id,
        decode_and_render fontsLoad ids cols rows = Rendered c ->
        (i < rows * cols)%nat -> nth_error ids i = Some id ->
        exists g, filenameToEmoji id = Normal g
                  /\ option_map td_text (nth_error (texts c) i) = Some g).
Proof.
  destruct (mapC_all_or_nothing filenameToEmoji ids) as [H1 H2].
  unfold decode_and_render.
  destruct (mapC filenameToEmoji ids) as [results|e] eqn:E;
    unfold renderFromResults_awaited; cbn [bindC].
  - destruct (H1 results eq_refl) as [Hlen Hall].
    destruct fontsLoad as [[]|e]; cbn [bindC].
    + split; [|split].
      * split; [intros _; now split|intros _; eauto].
      * left. eauto.
      * intros c i id Hc Hi Hid. injection Hc as <-.
        pose proof (mapC_nth filenameToEmoji ids results i E) as Hn.
        rewrite Hid in Hn. destruct Hn as [g [Hg Hr]].
        exists g. split; [exact Hg|].
        assert (Hcols : cols <> 0%nat) by nia.
        pose proof (Nat.div_mod_eq i cols) as Hdm.
        pose proof (Nat.mod_upper_bound i cols Hcols) as Hx.
        assert (Hy : (i / cols < rows)%nat).
        { apply Nat.Div0.div_lt_upper_bound. nia. }
        replace i with (i / cols * cols + i mod cols)%nat at 1 by nia.
        rewrite (texts_nth results cols rows tileSize literal_0_83
                   (i mod cols) (i / cols) Hx Hy).
        cbn [option_map tile_draw td_text]. unfold glyph_at.
        replace (i / cols * cols + i mod cols)%nat with i by nia.
        rewrite Hr. pose proof (filenameToEmoji_nonempty id g Hg).
        destruct g; [congruence|reflexivity].
    + split; [|split].
      * split; [intros [c Hc]; discriminate Hc|].
        intros [_ Hf]. discriminate Hf.
      * now right.
      * intros c i id Hc. discriminate Hc.
  - split; [|split].
    + split; [intros [c Hc]; discriminate Hc|].
      intros [Hall _]. destruct (H2 Hall) as [rs Hrs]. discriminate Hrs.
    + now right.
    + intros c i id Hc. discriminate Hc.
Qed.

(** ** Which identifiers decode *)

Lemma fromCodePoint_rejects (args : list (option Z)) :
  Exists (fun a => match a with
                   | None => True
                   | Some cp => cp < 0 \/ 1114111 < cp
                   end) args ->
  fromCodePoint args = Throw RangeError.
Proof.
  induction 1 as [a rest Ha|a rest _ IH].
  - destruct a as [cp|]; [|reflexivity]. simpl.
    destruct (Z.ltb_spec cp 0); [reflexivity|].
    destruct (Z.ltb_spec 1114111 cp); [reflexivity|]. lia.
  - destruct a as [cp|]; [|reflexivity]. simpl.
    destruct ((cp <? 0) || (1114111 <? cp)); [reflexivity|].
    now rewrite IH.
Qed.

Lemma hex_group_parse (g : jsstr) :
  forallb is_hex g = true ->
  parseInt16 (toLowerCase g)
  = match g with
    | [] => None
    | _ => Some (hex_value g)
    end.
Proof.
  intros Hh. destruct g as [|c t]; [reflexivity|].
  rewrite parseInt16_hex.
  - now rewrite hex_value_lower.
  - discriminate.
  - now rewrite forallb_lower_hex.
Qed.

Lemma not_wellformed_group (groups : list jsstr) :
  groups <> [] ->
  Forall (fun g => forallb is_hex g = true) groups ->
  wellformed groups = false ->
  Exists (fun g => g = [] \/ 1114111 < hex_value g) groups.
Proof.
  intros Hne Hall Hwf. unfold wellformed in Hwf.
  destruct groups as [|g0 rest0]; [congruence|]. cbn [length Nat.eqb negb andb]
    in Hwf. clear Hne. revert Hwf Hall.
  generalize (g0 :: rest0) as gs. clear g0 rest0.
  induction gs as [|g rest IH]; intros Hwf Hall; [discriminate Hwf|].
  inversion Hall as [|? ? Hg Hrest]; subst.
  cbn [forallb] in Hwf. apply andb_false_iff in Hwf.
  destruct Hwf as [Hbad|Hbad].
  - left. unfold is_codepoint_group in Hbad. rewrite Hg, andb_true_r in Hbad.
    apply andb_false_iff in Hbad. destruct Hbad as [Hlen|Hbig].
    + left. destruct g; [reflexivity|discriminate Hlen].
    + right. now apply Z.leb_gt in Hbig.
  - right. now apply IH.
Qed.

(** X21.  For an identifier whose groups consist of hexadecimal digits,
    being well formed is exactly what makes it decode: if a group is empty
    (two delimiters in a row, a delimiter at either end, or no group at
    all) or denotes a number above [0x10FFFF], the decoder throws a
    [RangeError]; otherwise it returns the glyph. *)
Theorem hex_identifier_decodes_iff_wellformed (groups : list jsstr) :
  Forall (fun g => forallb is_hex g = true) groups ->
  ((exists u, filenameToEmoji (identifier groups) = Normal u)
   <-> wellformed groups = true)
  /\ (wellformed groups = false ->
      filenameToEmoji (identifier groups) = Throw RangeError).
Proof.
  intros Hall.
  assert (Hbad : wellformed groups = false ->
                 filenameToEmoji (identifier groups) = Throw RangeError).
  { intros Hwf. destruct groups as [|g0 rest0] eqn:Eg; [reflexivity|].
    rewrite <- Eg in *.
    assert (Hne : groups <> []) by (rewrite Eg; discriminate).
    clear Eg g0 rest0.
    set (low := map toLowerCase groups).
    assert (Hlow : Forall (fun g => forallb is_hex g = true) low).
    { apply Forall_map. eapply Forall_impl; [|exact Hall].
      intros g Hh. now rewrite forallb_lower_hex. }
    assert (Hlowered : toLowerCase (identifier groups)
                       = lit "emoji_u" ++ join "_" low ++ lit ".svg").
    { unfold identifier, toLowerCase. rewrite !map_app.
      fold (toLowerCase (join "_" groups)). now rewrite toLowerCase_join. }
    unfold filenameToEmoji. rewrite Hlowered.
    rewrite split_absent.
    2:{ rewrite !forallb_app, (join_no_slash low Hlow). reflexivity. }
    change (pop [?x]) with (Some x). cbv beta iota zeta.
    rewrite replace_prefix_app, replace_suffix_app.
    rewrite split_join.
    2:{ unfold low. destruct groups; [congruence|discriminate]. }
    2:{ eapply Forall_impl; [|exact Hlow]. intros g Hg.
        apply hex_no_sep; [|exact Hg]. intros c Hc. apply is_hex_plain, Hc. }
    apply fromCodePoint_rejects.
    unfold low. rewrite map_map. apply Exists_exists.
    pose proof (not_wellformed_group groups Hne Hall Hwf) as Hex.
    apply Exists_exists in Hex. destruct Hex as [g [Hin Hg]].
    exists (parseInt16 (toLowerCase g)). split.
    - apply in_map_iff. now exists g.
    - rewrite Forall_forall in Hall.
      rewrite (hex_group_parse g (Hall g Hin)).
      destruct Hg as [->|Hbig]; [exact I|].
      destruct g; [exact I|now right]. }
  split; [|exact Hbad]. split.
  - intros [u Hu]. destruct (wellformed groups) eqn:Hwf; [reflexivity|].
    rewrite (Hbad eq_refl) in Hu. discriminate Hu.
  - intros Hwf. eexists. apply (filenameToEmoji_identifier groups Hwf).
Qed.

Lemma hex_identifier_decodes_iff_wellformed_witness :
  filenameToEmoji (lit "emoji_u1f600__200d.svg") = Throw RangeError.
Proof.
  refine (proj2 (hex_identifier_decodes_iff_wellformed
                   [lit "1f600"; lit ""; lit "200d"] _) eq_refl).
  repeat constructor.
Defined.

Lemma totals_skip_failed_files_witness :
  In 3%nat (progress_shown (account_all [Some (10, 4); None; Some (7, 7)]))
  /\ ~ In 2%nat (progress_shown (account_all [Some (10, 4); None])).
Proof.
  split.
  - apply (proj2 (proj2 (proj2 (totals_skip_failed_files
                                  [Some (10, 4); None; Some (7, 7)])))).
    split; [simpl; lia|]. split; [now exists (7, 7)|now right].
  - intros H.
    apply (proj2 (proj2 (proj2 (totals_skip_failed_files
                                  [Some (10, 4); None])))) in H.
    destruct H as [_ [[sizes Hs] _]]. discriminate Hs.
Defined.

Lemma mosaic_drawn_iff_all_identifiers_decode_witness :
  exists c,
    decode_and_render (Normal tt)
      [lit "emoji_u1f600.svg"; lit "emoji_u2b50.svg"] 1 1
    = Rendered c.
Proof.
  apply (proj1 (mosaic_drawn_iff_all_identifiers_decode (Normal tt)
                  [lit "emoji_u1f600.svg"; lit "emoji_u2b50.svg"] 1 1)).
  split; [|reflexivity].
  repeat constructor; eexists; reflexivity.
Defined.
